(** * cosmos-tax-indexer: the indexing and persistence engine

    A shallow embedding of [db/db.go], [db/osmosis.go] and the REST client,
    and the properties of the specification that are stated about them.

    The relational store is a record of tables. A table is the list of its
    rows in primary-key order; the identifier of a row is its position,
    counted from 1 (0 is Go's zero value, "no identifier").  The gorm calls
    of the source are embedded by what they do to these tables; constraint
    violations and connection failures of the database are not part of the
    model, so a statement fails only where the source itself returns an
    error or stops the process. *)

From Stdlib Require Import String Ascii DecimalString ZArith Bool Arith Lia List.
From Stdlib Require Import Sorted Permutation.
Import ListNotations.
Local Open Scope list_scope.

Set Implicit Arguments.

(** ** Go values *)

(** [errors.New] and [fmt.Errorf] values, kept by their message. *)
Definition error := string.

(** [int64] arithmetic wraps around. *)
Definition wrap64 (z : Z) : Z := ((z + 2 ^ 63) mod 2 ^ 64 - 2 ^ 63)%Z.

(** ** Models (the rows and the decoded wrappers) *)

(** Modelled from the spec: the struct declarations of the models (Chain,
    Block, FailedBlock, Address, Tx, Fee, MessageType, Message,
    TaxableTransaction, Denom, TaxableEvent and their wrappers), which are
    declared outside the files at hand.  The entities are those of the data
    model of the specification, the fields those the functions below read
    and write.  The [...Only] structs are the rows of a table, without
    associations; a decoded wrapper carries no identifier yet: the store
    assigns them. *)

Module Chain.
Record t := mk { ChainID : string; Name : string }.
End Chain.

Module Address.
Record t := mk { Address : string }.
End Address.

Module MessageType.
Record t := mk { MessageType : string }.
End MessageType.

Module Denom.
Record t := mk { ID : nat; Base : string; Symbol : string; Name : string }.
End Denom.

Module Block.
  (** [Block] with its [Chain] association, as [osmosis.go] builds it. *)
Record t := mk {
    TimeStamp : Z; Height : Z; BlockchainID : nat;
    Chain : Chain.t; Indexed : bool }.
End Block.

Module BlockOnly.
Record t := mk { Height : Z; TimeStamp : Z; Indexed : bool; BlockchainID : nat }.
End BlockOnly.

Module FailedBlock.
Record t := mk { Height : Z; BlockchainID : nat }.
End FailedBlock.

Module TxOnly.
Record t := mk {
    Hash : string; Code : Z; BlockID : nat; SignerAddressID : option nat }.
End TxOnly.

Module FeeOnly.
Record t := mk {
    TxID : nat; Amount : Z; DenominationID : nat; PayerAddressID : nat }.
End FeeOnly.

Module MessageOnly.
Record t := mk { TxID : nat; MessageTypeID : nat; MessageIndex : Z }.
End MessageOnly.

Module TaxableTransactionOnly.
Record t := mk {
    MessageID : nat; AmountSent : Z; AmountReceived : Z;
    DenominationSentID : nat; DenominationReceivedID : nat;
    SenderAddressID : option nat; ReceiverAddressID : option nat }.
End TaxableTransactionOnly.

(** The decoded input of [IndexNewBlock]. *)

Module Fee.
Record t := mk { Amount : Z; Denomination : Denom.t; PayerAddress : Address.t }.
End Fee.

Module Tx.
Record t := mk { Hash : string; Code : Z; Fees : list Fee.t }.
End Tx.

Module Message.
Record t := mk { MessageType : MessageType.t; MessageIndex : Z }.
End Message.

Module TaxableTransaction.
Record t := mk {
    AmountSent : Z; AmountReceived : Z;
    DenominationSentID : nat; DenominationReceivedID : nat }.
End TaxableTransaction.

Module TaxableTxDBWrapper.
Record t := mk {
    TaxableTx : TaxableTransaction.t;
    SenderAddress : Address.t; ReceiverAddress : Address.t }.
End TaxableTxDBWrapper.

Module MessageDBWrapper.
Record t := mk { Message : Message.t; TaxableTxs : list TaxableTxDBWrapper.t }.
End MessageDBWrapper.

Module TxDBWrapper.
Record t := mk {
    Tx : Tx.t; SignerAddress : Address.t; Messages : list MessageDBWrapper.t }.
End TxDBWrapper.

(** A reward candidate, and the row [Create] writes for it. *)

Module TaxableEvent.
Record t := mk {
    Source : nat; Amount : Z; EventHash : string;
    Denomination : Denom.t; Block : Block.t; EventAddress : Address.t }.
End TaxableEvent.

Module TaxableEventRow.
Record t := mk {
    Source : nat; Amount : Z; EventHash : string;
    DenominationID : nat; BlockID : nat; AddressID : nat }.
End TaxableEventRow.

(** ** The store *)

Record Store := mkStore {
  chains : list Chain.t;
  blocks : list BlockOnly.t;
  failed_blocks : list FailedBlock.t;
  addresses : list Address.t;
  txes : list TxOnly.t;
  fees : list FeeOnly.t;
  message_types : list MessageType.t;
  messages : list MessageOnly.t;
  taxable_tx : list TaxableTransactionOnly.t;
  taxable_event : list TaxableEventRow.t }.

Definition empty_store : Store := mkStore [] [] [] [] [] [] [] [] [] [].

(** A table of the store, as a getter and a setter. *)
Record Table (R : Type) := mkTable {
  rows : Store -> list R;
  with_rows : list R -> Store -> Store }.

Definition chains_tbl : Table Chain.t :=
  mkTable chains (fun l s => mkStore l (blocks s) (failed_blocks s) (addresses s)
    (txes s) (fees s) (message_types s) (messages s) (taxable_tx s) (taxable_event s)).
Definition blocks_tbl : Table BlockOnly.t :=
  mkTable blocks (fun l s => mkStore (chains s) l (failed_blocks s) (addresses s)
    (txes s) (fees s) (message_types s) (messages s) (taxable_tx s) (taxable_event s)).
Definition failed_blocks_tbl : Table FailedBlock.t :=
  mkTable failed_blocks (fun l s => mkStore (chains s) (blocks s) l (addresses s)
    (txes s) (fees s) (message_types s) (messages s) (taxable_tx s) (taxable_event s)).
Definition addresses_tbl : Table Address.t :=
  mkTable addresses (fun l s => mkStore (chains s) (blocks s) (failed_blocks s) l
    (txes s) (fees s) (message_types s) (messages s) (taxable_tx s) (taxable_event s)).
Definition txes_tbl : Table TxOnly.t :=
  mkTable txes (fun l s => mkStore (chains s) (blocks s) (failed_blocks s) (addresses s)
    l (fees s) (message_types s) (messages s) (taxable_tx s) (taxable_event s)).
Definition fees_tbl : Table FeeOnly.t :=
  mkTable fees (fun l s => mkStore (chains s) (blocks s) (failed_blocks s) (addresses s)
    (txes s) l (message_types s) (messages s) (taxable_tx s) (taxable_event s)).
Definition message_types_tbl : Table MessageType.t :=
  mkTable message_types (fun l s => mkStore (chains s) (blocks s) (failed_blocks s) (addresses s)
    (txes s) (fees s) l (messages s) (taxable_tx s) (taxable_event s)).
Definition messages_tbl : Table MessageOnly.t :=
  mkTable messages (fun l s => mkStore (chains s) (blocks s) (failed_blocks s) (addresses s)
    (txes s) (fees s) (message_types s) l (taxable_tx s) (taxable_event s)).
Definition taxable_tx_tbl : Table TaxableTransactionOnly.t :=
  mkTable taxable_tx (fun l s => mkStore (chains s) (blocks s) (failed_blocks s) (addresses s)
    (txes s) (fees s) (message_types s) (messages s) l (taxable_event s)).
Definition taxable_event_tbl : Table TaxableEventRow.t :=
  mkTable taxable_event (fun l s => mkStore (chains s) (blocks s) (failed_blocks s) (addresses s)
    (txes s) (fees s) (message_types s) (messages s) (taxable_tx s) l).

(** ** Statements that can fail or stop the process *)

Inductive result (A : Type) : Type :=
| Ok (a : A) (db : Store)   (* the statement went through *)
| Err (e : error)           (* the callback returns [e] *)
| Fatal.                    (* the process is gone *)
Arguments Err {A} e.
Arguments Fatal {A}.

Definition M (A : Type) : Type := Store -> result A.

Definition ret {A} (a : A) : M A := fun db => Ok a db.

Definition bind {A B} (m : M A) (k : A -> M B) : M B :=
  fun db => match m db with
            | Ok a db' => k a db'
            | Err e => Err e
            | Fatal => Fatal
            end.

Definition fail {A} (e : error) : M A := fun _ => Err e.

Declare Scope db_scope.
Delimit Scope db_scope with db.
Notation "x <- m ;; k" := (bind m (fun x => k))
  (at level 61, m at next level, right associativity) : db_scope.
Notation "m ;; k" := (bind m (fun _ => k))
  (at level 61, right associativity) : db_scope.
Local Open Scope db_scope.

(** [for _, x := range l { ... }] with an early [return err]. *)
Fixpoint forM_ {X} (l : list X) (body : X -> M unit) : M unit :=
  match l with
  | [] => ret tt
  | x :: l' => body x ;; forM_ l' body
  end.

(** Modelled from the spec: [config.Log.Fatal] and [config.Log.Fatalf] of the
    [config] package, which the specification describes as
    process-terminating: nothing after the call runs. *)
Definition Log_Fatal {A} (msg : string) : M A := fun _ => Fatal.

(** What the caller of a function sees: the value returned, or nothing
    because the process ended.  For a function that returns an [error],
    [Returns None] is Go's [nil]. *)
Inductive call (A : Type) : Type :=
| Returns (a : A)
| Exits.
Arguments Exits {A}.

Definition outcome : Type := call (option error).

(** [db.Transaction(func(dbTransaction) error {...})]: commit when the
    callback returns nil, roll back when it returns an error.  A process that
    ends inside the callback never commits. *)
Definition Transaction (fc : M unit) (db : Store) : outcome * Store :=
  match fc db with
  | Ok _ db' => (Returns None, db')
  | Err e => (Returns (Some e), db)
  | Fatal => (Exits, db)
  end.

(** ** gorm queries *)

(** A struct condition ([Where(Tx{Hash: h})]) compares only the fields of the
    struct that are not Go zero values. *)
Definition cond_str (c v : string) : bool := (c =? "")%string || (c =? v)%string.
Definition cond_nat (c v : nat) : bool := (c =? 0) || (c =? v).
Definition cond_Z (c v : Z) : bool := (c =? 0)%Z || (c =? v)%Z.

(** First row, in primary-key order, that satisfies [cond], with its
    identifier. *)
Fixpoint first_from {R} (cond : R -> bool) (id : nat) (l : list R) : option (nat * R) :=
  match l with
  | [] => None
  | r :: l' => if cond r then Some (id, r) else first_from cond (S id) l'
  end.

Definition First {R} (cond : R -> bool) (l : list R) : option (nat * R) :=
  first_from cond 1 l.

(** [Where(cond).FirstOrCreate(&dest)]: [dest] becomes the row found, or is
    inserted and receives the next identifier. *)
Definition FirstOrCreate {R} (T : Table R) (cond : R -> bool) (dest : R) : M (nat * R) :=
  fun db =>
    match First cond (rows T db) with
    | Some found => Ok found db
    | None => Ok (S (length (rows T db)), dest) (with_rows T (rows T db ++ [dest]) db)
    end.

(** Row [id] of a table rewritten by [f]. *)
Fixpoint update_row {R} (id : nat) (f : R -> R) (l : list R) : list R :=
  match l, id with
  | [], _ => []
  | r :: l', 0 => r :: l'
  | r :: l', 1 => f r :: l'
  | r :: l', S id' => r :: update_row id' f l'
  end.

(** [Where(cond).Assign(attrs).FirstOrCreate(&dest)]: as [FirstOrCreate],
    and the attributes are written to the row in both cases. *)
Definition FirstOrCreateAssign {R} (T : Table R) (cond : R -> bool) (assign : R -> R)
    (dest : R) : M (nat * R) :=
  fun db =>
    match First cond (rows T db) with
    | Some (id, row) => Ok (id, assign row) (with_rows T (update_row id assign (rows T db)) db)
    | None => Ok (S (length (rows T db)), assign dest)
                 (with_rows T (rows T db ++ [assign dest]) db)
    end.

(** [Create(&value)]. *)
Definition Create {R} (T : Table R) (value : R) : M nat :=
  fun db => Ok (S (length (rows T db))) (with_rows T (rows T db ++ [value]) db).

(** [Exec("DELETE FROM t WHERE ...")]. *)
Definition Delete {R} (T : Table R) (matching : R -> bool) : M unit :=
  fun db => Ok tt (with_rows T (filter (fun r => negb (matching r)) (rows T db)) db).

Notation "' pat <- m ;; k" := (bind m (fun x => match x with pat => k end))
  (at level 61, pat pattern, m at next level, right associativity) : db_scope.

(** ** [IndexNewBlock] (db/db.go)

    The loop bodies of the source are named here after what they store. *)

Definition isEmpty (s : string) : bool := (s =? "")%string.

(** [Where(Address{Address: a})] and [Where(&address)]. *)
Definition whereAddress (a : Address.t) (r : Address.t) : bool :=
  cond_str (Address.Address a) (Address.Address r).

Definition denomNotCached (d : Denom.t) : error :=
  ("denom not cached for base " ++ Denom.Base d ++ " and symbol " ++ Denom.Symbol d)%string.

(** Body of [for _, fee := range transaction.Tx.Fees]. *)
Definition indexFee (txOnly_ID : nat) (fee : Fee.t) : M unit :=
  let thisFee := FeeOnly.mk txOnly_ID (Fee.Amount fee) (Denom.ID (Fee.Denomination fee)) 0 in
  thisFee <-
    (if negb (isEmpty (Address.Address (Fee.PayerAddress fee))) then
       ' (payer_ID, _) <- FirstOrCreate addresses_tbl
                            (whereAddress (Fee.PayerAddress fee)) (Fee.PayerAddress fee) ;;
       ret (FeeOnly.mk (FeeOnly.TxID thisFee) (FeeOnly.Amount thisFee)
                       (FeeOnly.DenominationID thisFee) payer_ID)
     else fail "fee cannot have empty payer address"%string) ;;
  (if isEmpty (Denom.Base (Fee.Denomination fee))
      || isEmpty (Denom.Symbol (Fee.Denomination fee))
   then fail (denomNotCached (Fee.Denomination fee))
   else ret tt) ;;
  FirstOrCreate fees_tbl
    (fun r => cond_nat (FeeOnly.TxID thisFee) (FeeOnly.TxID r)
              && cond_nat (FeeOnly.DenominationID thisFee) (FeeOnly.DenominationID r))
    thisFee ;;
  ret tt.

(** Body of [for _, taxableTx := range message.TaxableTxs].  The amounts are
    arbitrary-precision decimals: a decoded amount is never the zero value of
    its Go type, so the condition always compares it. *)
Definition indexTaxableTx (msg_ID : nat) (taxableTx : TaxableTxDBWrapper.t) : M unit :=
  let tt0 := TaxableTxDBWrapper.TaxableTx taxableTx in
  senderID <-
    (if negb (isEmpty (Address.Address (TaxableTxDBWrapper.SenderAddress taxableTx))) then
       ' (id, _) <- FirstOrCreate addresses_tbl
                      (whereAddress (TaxableTxDBWrapper.SenderAddress taxableTx))
                      (TaxableTxDBWrapper.SenderAddress taxableTx) ;;
       ret (Some id)
     else ret None) ;;
  receiverID <-
    (if negb (isEmpty (Address.Address (TaxableTxDBWrapper.ReceiverAddress taxableTx))) then
       ' (id, _) <- FirstOrCreate addresses_tbl
                      (whereAddress (TaxableTxDBWrapper.ReceiverAddress taxableTx))
                      (TaxableTxDBWrapper.ReceiverAddress taxableTx) ;;
       ret (Some id)
     else ret None) ;;
  let thisTaxableTx :=
    TaxableTransactionOnly.mk msg_ID
      (TaxableTransaction.AmountSent tt0) (TaxableTransaction.AmountReceived tt0)
      (TaxableTransaction.DenominationSentID tt0)
      (TaxableTransaction.DenominationReceivedID tt0)
      senderID receiverID in
  FirstOrCreate taxable_tx_tbl
    (fun r => cond_nat msg_ID (TaxableTransactionOnly.MessageID r)
              && (TaxableTransaction.AmountSent tt0 =? TaxableTransactionOnly.AmountSent r)%Z
              && (TaxableTransaction.AmountReceived tt0
                  =? TaxableTransactionOnly.AmountReceived r)%Z)
    thisTaxableTx ;;
  ret tt.

(** Body of [for _, message := range transaction.Messages]. *)
Definition indexMessage (txOnly_ID : nat) (message : MessageDBWrapper.t) : M unit :=
  let messageType := Message.MessageType (MessageDBWrapper.Message message) in
  (if isEmpty (MessageType.MessageType messageType)
   then Log_Fatal "Message type not getting to DB"
   else ret tt) ;;
  ' (messageType_ID, _) <- FirstOrCreate message_types_tbl
      (fun r => cond_str (MessageType.MessageType messageType) (MessageType.MessageType r))
      messageType ;;
  let msg := MessageOnly.mk txOnly_ID messageType_ID
               (Message.MessageIndex (MessageDBWrapper.Message message)) in
  ' (msg_ID, _) <- FirstOrCreate messages_tbl
      (fun r => cond_nat (MessageOnly.TxID msg) (MessageOnly.TxID r)
                && cond_nat (MessageOnly.MessageTypeID msg) (MessageOnly.MessageTypeID r)
                && cond_Z (MessageOnly.MessageIndex msg) (MessageOnly.MessageIndex r))
      msg ;;
  forM_ (MessageDBWrapper.TaxableTxs message) (indexTaxableTx msg_ID).

(** Body of [for _, transaction := range txs]. *)
Definition indexTx (block_ID : nat) (transaction : TxDBWrapper.t) : M unit :=
  let txOnly := TxOnly.mk (Tx.Hash (TxDBWrapper.Tx transaction))
                          (Tx.Code (TxDBWrapper.Tx transaction)) block_ID None in
  txOnly <-
    (if negb (isEmpty (Address.Address (TxDBWrapper.SignerAddress transaction))) then
       ' (signer_ID, _) <- FirstOrCreate addresses_tbl
                             (whereAddress (TxDBWrapper.SignerAddress transaction))
                             (TxDBWrapper.SignerAddress transaction) ;;
       ret (TxOnly.mk (TxOnly.Hash txOnly) (TxOnly.Code txOnly) (TxOnly.BlockID txOnly)
                      (Some signer_ID))
     else ret txOnly) ;;
  ' (txOnly_ID, _) <- FirstOrCreate txes_tbl
      (fun r => cond_str (TxOnly.Hash txOnly) (TxOnly.Hash r)) txOnly ;;
  forM_ (Tx.Fees (TxDBWrapper.Tx transaction)) (indexFee txOnly_ID) ;;
  forM_ (TxDBWrapper.Messages transaction) (indexMessage txOnly_ID).

(** [Assign(Block{Indexed: true, TimeStamp: blockTime})]: the time stamp is
    written unless it is the zero time, written 0 here. *)
Definition assignIndexed (blockTime : Z) (r : BlockOnly.t) : BlockOnly.t :=
  BlockOnly.mk (BlockOnly.Height r)
               (if (blockTime =? 0)%Z then BlockOnly.TimeStamp r else blockTime)
               true (BlockOnly.BlockchainID r).

Definition whereFailedBlock (blockHeight : Z) (dbChainID : nat) (r : FailedBlock.t) : bool :=
  (FailedBlock.Height r =? blockHeight)%Z && (FailedBlock.BlockchainID r =? dbChainID).

(** The callback handed to [db.Transaction]. *)
Definition indexNewBlockTx (blockHeight blockTime : Z) (txs : list TxDBWrapper.t)
    (dbChainID : nat) : M unit :=
  Delete failed_blocks_tbl (whereFailedBlock blockHeight dbChainID) ;;
  let block := BlockOnly.mk blockHeight blockTime true dbChainID in
  ' (block_ID, _) <- FirstOrCreateAssign blocks_tbl
      (fun r => cond_Z (BlockOnly.Height block) (BlockOnly.Height r)
                && cond_nat (BlockOnly.BlockchainID block) (BlockOnly.BlockchainID r))
      (assignIndexed blockTime) block ;;
  forM_ txs (indexTx block_ID).

Definition IndexNewBlock (db : Store) (blockHeight blockTime : Z)
    (txs : list TxDBWrapper.t) (dbChainID : nat) : outcome * Store :=
  Transaction (indexNewBlockTx blockHeight blockTime txs dbChainID) db.

(** ** Gap detection (db/db.go) *)

(** A value cast with [::int] in a query: PostgreSQL's 32-bit integer, an
    error outside its range. *)
Definition sql_int (z : Z) : option Z :=
  if ((- 2 ^ 31 <=? z) && (z <=? 2 ^ 31 - 1))%Z then Some z else None.

Definition zeroBlock : Block.t := Block.mk 0 0 0 (Chain.mk "" "") false.

Definition scanBlock (r : BlockOnly.t) : Block.t :=
  Block.mk (BlockOnly.TimeStamp r) (BlockOnly.Height r) (BlockOnly.BlockchainID r)
           (Chain.mk "" "") (BlockOnly.Indexed r).

(** [Order("height desc").First(&block)] over the rows that satisfy [keep]:
    the greatest height wins, the lowest identifier among equals. *)
Fixpoint highestBlock (keep : BlockOnly.t -> bool) (best : option BlockOnly.t)
    (l : list BlockOnly.t) : option BlockOnly.t :=
  match l with
  | [] => best
  | r :: l' =>
      highestBlock keep
        (if keep r then
           match best with
           | Some b => if (BlockOnly.Height b <? BlockOnly.Height r)%Z then Some r else best
           | None => Some r
           end
         else best) l'
  end.

(** [blockchain_id = ?::int AND indexed = true]. *)
Definition indexedOnChain (chainID : nat) (r : BlockOnly.t) : bool :=
  (BlockOnly.BlockchainID r =? chainID) && BlockOnly.Indexed r.

(** The error of [First] is dropped by the source: a failed query, like an
    empty result, leaves the zero [Block]. *)
Definition GetHighestIndexedBlock (db : Store) (chainID : nat) : Block.t :=
  match sql_int (Z.of_nat chainID) with
  | None => zeroBlock
  | Some _ =>
      match highestBlock (indexedOnChain chainID) None (blocks db) with
      | Some r => scanBlock r
      | None => zeroBlock
      end
  end.

(** [generate_series(a, b)]. *)
Definition generate_series (a b : Z) : list Z :=
  map (fun k => (a + Z.of_nat k)%Z) (seq 0 (Z.to_nat (b - a + 1))).

(** [EXISTS (SELECT 1 FROM blocks WHERE height = i AND blockchain_id = c AND
    indexed = true)]. *)
Definition isIndexed (db : Store) (chainID : nat) (i : Z) : bool :=
  existsb (fun r => (BlockOnly.Height r =? i)%Z && indexedOnChain chainID r) (blocks db).

Inductive scanned : Type :=
| SqlError           (* the query failed *)
| NoRows             (* "no rows in result set" *)
| Scanned (v : Z).

(** The raw query of [GetFirstMissingBlockInRange]. *)
Definition firstMissingQuery (db : Store) (start end_ : Z) (chainID : nat) : scanned :=
  match sql_int start, sql_int end_, sql_int (Z.of_nat chainID) with
  | Some a, Some b, Some _ =>
      match find (fun i => negb (isIndexed db chainID i)) (generate_series a b) with
      | Some i => Scanned i
      | None => NoRows
      end
  | _, _, _ => SqlError
  end.

(** The upper bound the query is run with. *)
Definition effectiveEnd (db : Store) (start end_ : Z) (chainID : nat) : Z :=
  let currMax := GetHighestIndexedBlock db chainID in
  if (Block.Height currMax >? start)%Z then wrap64 (Block.Height currMax + 1) else end_.

Definition GetFirstMissingBlockInRange (db : Store) (start end_ : Z) (chainID : nat)
    : call Z :=
  let end_ := effectiveEnd db start end_ chainID in
  match firstMissingQuery db start end_ chainID with
  | Scanned firstMissingBlock => Returns firstMissingBlock
  | NoRows => Returns start
  | SqlError => Exits   (* config.Log.Fatalf *)
  end.

(** ** Reward events (db/osmosis.go) *)

(** [Count] of the rows with this [event_hash] is positive. *)
Definition eventExists (db : Store) (event : TaxableEvent.t) : bool :=
  existsb (fun r => (TaxableEventRow.EventHash r =? TaxableEvent.EventHash event)%string)
          (taxable_event db).

Definition whereChain (c : Chain.t) (r : Chain.t) : bool :=
  cond_str (Chain.ChainID c) (Chain.ChainID r) && cond_str (Chain.Name c) (Chain.Name r).

(** [Where(&event.Block)]: the columns of the struct that are set.  The chain
    is an association of the struct, not a column. *)
Definition whereBlock (b : Block.t) (r : BlockOnly.t) : bool :=
  cond_Z (Block.TimeStamp b) (BlockOnly.TimeStamp r)
  && cond_Z (Block.Height b) (BlockOnly.Height r)
  && cond_nat (Block.BlockchainID b) (BlockOnly.BlockchainID r)
  && (negb (Block.Indexed b) || BlockOnly.Indexed r).

(** Body of [for _, event := range events].  A block that is created refers
    to the chain row fetched just before; the event row refers to the block
    and the address by the identifiers the fetches returned, to the
    denomination by the identifier it carries. *)
Definition createTaxableEvent (event : TaxableEvent.t) : M unit :=
  let block := TaxableEvent.Block event in
  ' (chain_ID, _) <- FirstOrCreate chains_tbl (whereChain (Block.Chain block))
                       (Block.Chain block) ;;
  ' (block_ID, _) <- FirstOrCreate blocks_tbl (whereBlock block)
                       (BlockOnly.mk (Block.Height block) (Block.TimeStamp block)
                                     (Block.Indexed block) chain_ID) ;;
  address_ID <-
    (if negb (isEmpty (Address.Address (TaxableEvent.EventAddress event))) then
       ' (id, _) <- FirstOrCreate addresses_tbl
                      (whereAddress (TaxableEvent.EventAddress event))
                      (TaxableEvent.EventAddress event) ;;
       ret id
     else ret 0) ;;
  (if isEmpty (Denom.Base (TaxableEvent.Denomination event))
      || isEmpty (Denom.Symbol (TaxableEvent.Denomination event))
   then fail (denomNotCached (TaxableEvent.Denomination event))
   else ret tt) ;;
  Create taxable_event_tbl
    (TaxableEventRow.mk (TaxableEvent.Source event) (TaxableEvent.Amount event)
       (TaxableEvent.EventHash event) (Denom.ID (TaxableEvent.Denomination event))
       block_ID address_ID) ;;
  ret tt.

Definition createTaxableEvents (db : Store) (events : list TaxableEvent.t)
    : outcome * Store :=
  Transaction (forM_ events createTaxableEvent) db.

Definition zeroTaxableEvent : TaxableEvent.t :=
  TaxableEvent.mk 0 0 "" (Denom.mk 0 "" "" "") zeroBlock (Address.mk "").

(** [s[i:j]]. *)
Definition slice {X} (s : list X) (i j : nat) : list X := firstn (j - i) (skipn i s).

Definition batchSize : nat := 500.

(** [batchEnd] of the turn that starts at index [i] of [len] events. *)
Definition batchEndAt (len i : nat) : nat :=
  let batchEnd := i + batchSize in
  if len <? batchEnd then len - 1 else batchEnd.

(** The insertion loop of [IndexOsmoRewards],
    [for i := 0; i < len(dbEvents); i += batchSize], from index [i] on.
    Every turn moves [i] forward, so [length dbEvents] turns are enough
    ([insertBatches_fuel]). *)
Fixpoint insertBatches (fuel : nat) (db : Store) (dbEvents : list TaxableEvent.t)
    (i : nat) : outcome * Store :=
  match fuel with
  | 0 => (Returns None, db)
  | S fuel' =>
      if i <? length dbEvents then
        let batchEnd := batchEndAt (length dbEvents) i in
        if eventExists db (nth i dbEvents zeroTaxableEvent) then
          insertBatches fuel' db dbEvents (i + batchSize)
        else
          match createTaxableEvents db (slice dbEvents i batchEnd) with
          | (Returns None, db') => insertBatches fuel' db' dbEvents (i + batchSize)
          | failed => failed
          end
      else (Returns None, db)
  end.

Module osmosis.
  (** Modelled from the spec: [sdk.Coin] and [osmosis.Rewards], a reward
      record with its address, epoch height and coin amounts. *)
Record Coin := mkCoin { Denom : string; Amount : Z }.
Record Rewards := mkRewards {
    Address : string; EpochBlockHeight : Z; Coins : list Coin }.
End osmosis.

(** Modelled from the spec: the [source] tag of the rewards subsystem, an
    enumeration constant of the models. *)
Definition OsmosisRewardDistribution : nat := 0.

(** [sort.SliceStable] with [dbEvents[i].EventHash < dbEvents[j].EventHash]:
    an event is put before the first one that is not smaller. *)
Fixpoint insertByHash (e : TaxableEvent.t) (l : list TaxableEvent.t) : list TaxableEvent.t :=
  match l with
  | [] => [e]
  | x :: l' =>
      if (TaxableEvent.EventHash x <? TaxableEvent.EventHash e)%string
      then x :: insertByHash e l'
      else e :: x :: l'
  end.

Definition sortByHash (l : list TaxableEvent.t) : list TaxableEvent.t :=
  fold_right insertByHash [] l.

Section IndexOsmoRewards.
  (** The denomination cache and the digest belong to other packages. *)
Variable GetDenomForBase : string -> Denom.t + error.
Variable AddUnknownDenom : string -> Store -> (Denom.t + error) * Store.
  (** [fmt.Sprintf("%x", md5.Sum([]byte(fmt.Sprint(address, height, coin))))]. *)
Variable md5Sprint : string -> Z -> osmosis.Coin -> string.

  (** The two nested loops that build [dbEvents]; [inr err] is the early
      [return err]. *)
Fixpoint coinEvents (chainID chainName : string) (curr : osmosis.Rewards)
      (coins : list osmosis.Coin) (db : Store) (dbEvents : list TaxableEvent.t)
      : (list TaxableEvent.t + error) * Store :=
    match coins with
    | [] => (inl dbEvents, db)
    | coin :: coins' =>
        let '(denom, db) :=
          match GetDenomForBase (osmosis.Denom coin) with
          | inl denom => (inl denom, db)
          | inr _ => AddUnknownDenom (osmosis.Denom coin) db
          end in
        match denom with
        | inr err => (inr err, db)
        | inl denom =>
            let evt :=
              TaxableEvent.mk OsmosisRewardDistribution (osmosis.Amount coin)
                (md5Sprint (osmosis.Address curr) (osmosis.EpochBlockHeight curr) coin)
                denom
                (Block.mk 0 (osmosis.EpochBlockHeight curr) 0
                          (Chain.mk chainID chainName) false)
                (Address.mk (osmosis.Address curr)) in
            coinEvents chainID chainName curr coins' db (dbEvents ++ [evt])
        end
    end.

Fixpoint rewardEvents (chainID chainName : string) (rewards : list osmosis.Rewards)
      (db : Store) (dbEvents : list TaxableEvent.t)
      : (list TaxableEvent.t + error) * Store :=
    match rewards with
    | [] => (inl dbEvents, db)
    | curr :: rewards' =>
        match coinEvents chainID chainName curr (osmosis.Coins curr) db dbEvents with
        | (inr err, db) => (inr err, db)
        | (inl dbEvents, db) => rewardEvents chainID chainName rewards' db dbEvents
        end
    end.

Definition IndexOsmoRewards (db : Store) (chainID chainName : string)
      (rewards : list osmosis.Rewards) : outcome * Store :=
    match rewardEvents chainID chainName rewards db [] with
    | (inr err, db) => (Returns (Some err), db)
    | (inl dbEvents, db) =>
        let dbEvents := sortByHash dbEvents in
        insertBatches (length dbEvents) db dbEvents 0
    end.
End IndexOsmoRewards.

(** ** The REST client *)

Module ChainClient.

  (** What [http.Get] hands back, with the outcome of reading the body. *)
Record Response := mkResponse {
    StatusCode : Z;
    Status : string;
    Body : string;
    ReadErr : option error }.

  (** [ioutil.ReadAll(resp.Body)]. *)
Definition ReadAll (resp : Response) : string * option error :=
    (Body resp, ReadErr resp).

  (** [fmt.Sprintf] of a [%d]. *)
Definition Sprintd (n : N) : string := NilZero.string_of_uint (N.to_uint n).

Definition blocks_endpoint (height : N) : string :=
    ("/cosmos/base/tendermint/v1beta1/blocks/" ++ Sprintd height)%string.
Definition latest_block_endpoint : string := "/blocks/latest".
Definition txs_by_block_height_endpoint (height : N) : string :=
    ("/cosmos/tx/v1beta1/txs?events=tx.height=" ++ Sprintd height
     ++ "&pagination.limit=100&order_by=ORDER_BY_UNSPECIFIED")%string.

Definition checkResponseErrorCode (requestEndpoint : string) (resp : Response)
      : option error :=
    if negb (StatusCode resp =? 200)%Z then
      let (body, _) := ReadAll resp in
      Some ("Error getting response for endpoint " ++ requestEndpoint
            ++ ": Status " ++ Status resp ++ " Body " ++ body)%string
    else None.

Section Requests.
    (** The network: the answer to a GET of a URL. *)
Variable http_Get : string -> Response + error.

    (** The three response shapes, their zero values and [json.Unmarshal]
        into them: the value decoded so far, and the error if any. *)
Variables GetBlockByHeightResponse GetTxByBlockHeightResponse GetLatestBlockResponse
      : Type.
Variable zeroBlockResponse : GetBlockByHeightResponse.
Variable zeroTxsResponse : GetTxByBlockHeightResponse.
Variable zeroLatestResponse : GetLatestBlockResponse.
Variable UnmarshalBlock :
      string -> GetBlockByHeightResponse -> GetBlockByHeightResponse * option error.
Variable UnmarshalTxs :
      string -> GetTxByBlockHeightResponse -> GetTxByBlockHeightResponse * option error.
Variable UnmarshalLatest :
      string -> GetLatestBlockResponse -> GetLatestBlockResponse * option error.

Definition GetBlockByHeight (host : string) (height : N)
        : GetBlockByHeightResponse * option error :=
      let result := zeroBlockResponse in
      let requestEndpoint := blocks_endpoint height in
      match http_Get (host ++ requestEndpoint)%string with
      | inr err => (result, Some err)
      | inl resp =>
          match checkResponseErrorCode requestEndpoint resp with
          | Some err => (result, Some err)
          | None =>
              match ReadAll resp with
              | (_, Some err) => (result, Some err)
              | (body, None) =>
                  (* the error of json.Unmarshal is not looked at *)
                  let (result, _) := UnmarshalBlock body result in
                  (result, None)
              end
          end
      end.

Definition GetTxsByBlockHeight (host : string) (height : N)
        : GetTxByBlockHeightResponse * option error :=
      let result := zeroTxsResponse in
      let requestEndpoint := txs_by_block_height_endpoint height in
      match http_Get (host ++ requestEndpoint)%string with
      | inr err => (result, Some err)
      | inl resp =>
          match checkResponseErrorCode requestEndpoint resp with
          | Some err => (result, Some err)
          | None =>
              match ReadAll resp with
              | (_, Some err) => (result, Some err)
              | (body, None) =>
                  match UnmarshalTxs body result with
                  | (result, Some err) => (result, Some err)
                  | (result, None) => (result, None)
                  end
              end
          end
      end.

Definition GetLatestBlock (host : string)
        : GetLatestBlockResponse * option error :=
      let result := zeroLatestResponse in
      let requestEndpoint := latest_block_endpoint in
      match http_Get (host ++ requestEndpoint)%string with
      | inr err => (result, Some err)
      | inl resp =>
          match checkResponseErrorCode requestEndpoint resp with
          | Some err => (result, Some err)
          | None =>
              match ReadAll resp with
              | (_, Some err) => (result, Some err)
              | (body, None) =>
                  match UnmarshalLatest body result with
                  | (result, Some err) => (result, Some err)
                  | (result, None) => (result, None)
                  end
              end
          end
      end.
End Requests.

End ChainClient.

(** ** Lookups and the retry worklist (db/db.go) *)

(** [Where("address IN ?", addressList).Find(&addresses)]. *)
Definition GetAddresses (addressList : list string) (db : Store)
    : list Address.t * option error :=
  (filter (fun r => existsb (String.eqb (Address.Address r)) addressList) (addresses db),
   None).

(** [Order("height asc")]: a row is put before the first one that is not
    lower. *)
Fixpoint insertByHeight (r : FailedBlock.t) (l : list FailedBlock.t) : list FailedBlock.t :=
  match l with
  | [] => [r]
  | x :: l' =>
      if (FailedBlock.Height x <? FailedBlock.Height r)%Z
      then x :: insertByHeight r l'
      else r :: x :: l'
  end.

(** The error of [Scan] is dropped: a failed query leaves the nil slice. *)
Definition GetFailedBlocks (db : Store) (chainID : nat) : list FailedBlock.t :=
  match sql_int (Z.of_nat chainID) with
  | None => []
  | Some _ =>
      fold_right insertByHeight []
        (filter (fun r => FailedBlock.BlockchainID r =? chainID) (failed_blocks db))
  end.

(** [db.Where(&chain).FirstOrCreate(&chain)]; the two other cases of the
    match are those of a statement that fails, which returns the identifier
    the struct had. *)
Definition GetDBChainID (db : Store) (chain : Chain.t) : (nat * option error) * Store :=
  match FirstOrCreate chains_tbl (whereChain chain) chain db with
  | Ok (chain_ID, _) db' => ((chain_ID, None), db')
  | Err err => ((0, Some err), db)
  | Fatal => ((0, None), db)
  end.

(** [Where(&failedBlock)]: the columns of the struct that are set. *)
Definition whereFailedBlockStruct (height : Z) (blockchainID : nat) (r : FailedBlock.t)
    : bool :=
  cond_Z height (FailedBlock.Height r) && cond_nat blockchainID (FailedBlock.BlockchainID r).

(** The struct is built with its height and its [Chain] association; its
    chain column is unset when the condition is read, and a row that is
    created refers to the chain row fetched just before. *)
Definition UpsertFailedBlock (db : Store) (blockHeight : Z) (chainID chainName : string)
    : outcome * Store :=
  Transaction
    (let chain := Chain.mk chainID chainName in
     ' (chain_ID, _) <- FirstOrCreate chains_tbl (whereChain chain) chain ;;
     FirstOrCreate failed_blocks_tbl (whereFailedBlockStruct blockHeight 0)
       (FailedBlock.mk blockHeight chain_ID) ;;
     ret tt) db.

(** ** The highest block with a reward event (db/osmosis.go) *)

(** The rows of a table with their identifiers. *)
Definition numbered {R} (l : list R) : list (nat * R) := combine (seq 1 (length l)) l.

(** [JOIN taxable_event ON blocks.id = taxable_event.block_id]. *)
Definition hasEvent (db : Store) (block_ID : nat) : bool :=
  existsb (fun e => TaxableEventRow.BlockID e =? block_ID) (taxable_event db).

(** [JOIN chains ON blocks.blockchain_id = chains.id AND chains.chain_id = ?]. *)
Definition onChain (db : Store) (chainID : string) (b : BlockOnly.t) : bool :=
  match BlockOnly.BlockchainID b with
  | 0 => false
  | S n =>
      match nth_error (chains db) n with
      | Some c => (Chain.ChainID c =? chainID)%string
      | None => false
      end
  end.

Definition eventBlocks (db : Store) (chainID : string) : list BlockOnly.t :=
  map snd
    (filter (fun ib => hasEvent db (fst ib) && onChain db chainID (snd ib))
            (numbered (blocks db))).

(** [gorm.ErrRecordNotFound]. *)
Definition ErrRecordNotFound : error := "record not found"%string.

Definition GetHighestTaxableEventBlock (db : Store) (chainID : string)
    : Block.t * option error :=
  match highestBlock (fun _ => true) None (eventBlocks db chainID) with
  | Some r => (scanBlock r, None)
  | None => (zeroBlock, Some ErrRecordNotFound)
  end.

(** ** Configuration (config.go) *)

Module database.
Record t := mk {
  Host : string; Port : string; Database : string; User : string; Password : string }.
End database.

Module api.
Record t := mk { Host : string }.
End api.

Module Config.
Record t := mk { Database : database.t; Api : api.t; ConfigFileLocation : string }.
End Config.

(** [mergo.Merge(&dst, src)] at a string field: the field is filled from
    [src] when it is empty. *)
Definition mergeString (dst src : string) : string :=
  if isEmpty dst then src else dst.

(** [mergo.Merge] goes through the fields of nested structs; its error is
    dropped. *)
Definition MergeConfigs (def overide : Config.t) : Config.t :=
  Config.mk
    (database.mk
       (mergeString (database.Host (Config.Database overide))
                    (database.Host (Config.Database def)))
       (mergeString (database.Port (Config.Database overide))
                    (database.Port (Config.Database def)))
       (mergeString (database.Database (Config.Database overide))
                    (database.Database (Config.Database def)))
       (mergeString (database.User (Config.Database overide))
                    (database.User (Config.Database def)))
       (mergeString (database.Password (Config.Database overide))
                    (database.Password (Config.Database def))))
    (api.mk (mergeString (api.Host (Config.Api overide)) (api.Host (Config.Api def))))
    (mergeString (Config.ConfigFileLocation overide) (Config.ConfigFileLocation def)).

(** ** Vocabulary of the properties *)

Definition succeeds {A} (r : result A) : bool :=
  match r with Ok _ _ => true | _ => false end.
Definition isErr {A} (r : result A) : bool :=
  match r with Err _ => true | _ => false end.
Definition isFatal {A} (r : result A) : bool :=
  match r with Fatal => true | _ => false end.

Definition emptyPayer (fee : Fee.t) : bool :=
  isEmpty (Address.Address (Fee.PayerAddress fee)).

Definition denomResolved (d : Denom.t) : bool :=
  negb (isEmpty (Denom.Base d) || isEmpty (Denom.Symbol d)).

(** A fee the loop stores: payer present, denomination resolved. *)
Definition validFee (fee : Fee.t) : bool :=
  negb (emptyPayer fee) && denomResolved (Fee.Denomination fee).

Definition emptyMessageType (m : MessageDBWrapper.t) : bool :=
  isEmpty (MessageType.MessageType (Message.MessageType (MessageDBWrapper.Message m))).

Definition hasEmptyPayer (tx : TxDBWrapper.t) : bool :=
  existsb emptyPayer (Tx.Fees (TxDBWrapper.Tx tx)).
Definition hasEmptyMessageType (tx : TxDBWrapper.t) : bool :=
  existsb emptyMessageType (TxDBWrapper.Messages tx).
Definition allFeesValid (tx : TxDBWrapper.t) : bool :=
  forallb validFee (Tx.Fees (TxDBWrapper.Tx tx)).

Definition eventDenomResolved (e : TaxableEvent.t) : bool :=
  denomResolved (TaxableEvent.Denomination e).

Definition emptyEventAddress (e : TaxableEvent.t) : bool :=
  isEmpty (Address.Address (TaxableEvent.EventAddress e)).

(** Row [r] has identifier [id] in table [T]. *)
Definition has_row {R} (T : Table R) (db : Store) (id : nat) (r : R) : Prop :=
  1 <= id /\ nth_error (rows T db) (id - 1) = Some r.

(** Row [r] is the row of event [e]: it carries the event's values, refers to
    a block row of the event's height and, when the event has an address, to
    the row of that address (identifier 0 otherwise); a row of the event's
    chain exists and its denomination is resolved. *)
Definition stored (db : Store) (e : TaxableEvent.t) (r : TaxableEventRow.t) : Prop :=
  TaxableEventRow.Source r = TaxableEvent.Source e
  /\ TaxableEventRow.Amount r = TaxableEvent.Amount e
  /\ TaxableEventRow.EventHash r = TaxableEvent.EventHash e
  /\ TaxableEventRow.DenominationID r = Denom.ID (TaxableEvent.Denomination e)
  /\ eventDenomResolved e = true
  /\ (exists id c, has_row chains_tbl db id c
                   /\ whereChain (Block.Chain (TaxableEvent.Block e)) c = true)
  /\ (exists b, has_row blocks_tbl db (TaxableEventRow.BlockID r) b
                /\ cond_Z (Block.Height (TaxableEvent.Block e)) (BlockOnly.Height b) = true)
  /\ (if emptyEventAddress e then TaxableEventRow.AddressID r = 0
      else has_row addresses_tbl db (TaxableEventRow.AddressID r)
                   (TaxableEvent.EventAddress e)).

(** The only address rows in [db'] that are not in [db] are the non-empty
    addresses of [events]. *)
Definition addressesFrom (db db' : Store) (events : list TaxableEvent.t) : Prop :=
  forall a, In a (addresses db') ->
    In a (addresses db)
    \/ exists e, In e events /\ a = TaxableEvent.EventAddress e
                 /\ emptyEventAddress e = false.

(** [l'] is [l] with rows added at the end. *)
Definition grown {R} (l l' : list R) : Prop := exists d, l' = l ++ d.

(** [db'] is [db] after fetch-or-create statements: every table has kept its
    rows and may have new ones; no failed block was touched. *)
Record ext (db db' : Store) : Prop := mkExt {
  ext_chains : grown (chains db) (chains db');
  ext_blocks : grown (blocks db) (blocks db');
  ext_failed_blocks : failed_blocks db' = failed_blocks db;
  ext_addresses : grown (addresses db) (addresses db');
  ext_txes : grown (txes db) (txes db');
  ext_fees : grown (fees db) (fees db');
  ext_message_types : grown (message_types db) (message_types db');
  ext_messages : grown (messages db) (messages db');
  ext_taxable_tx : grown (taxable_tx db) (taxable_tx db');
  ext_taxable_event : grown (taxable_event db) (taxable_event db') }.

(** A table that fetch-or-create statements only add rows to. *)
Record AppendOnly {R} (T : Table R) : Prop := mkAppendOnly {
  rows_with_rows : forall l db, rows T (with_rows T l db) = l;
  ext_with_rows : forall db d, ext db (with_rows T (rows T db ++ d) db);
  ext_rows : forall db db', ext db db' -> grown (rows T db) (rows T db') }.

(** A statement that only adds rows. *)
Definition Mono {A} (m : M A) : Prop :=
  forall db a db1, m db = Ok a db1 -> ext db db1.

(** A statement that, once it has gone through, goes through again with the
    same result and writes nothing, whatever rows were added in between. *)
Definition Stable {A} (m : M A) : Prop :=
  forall db a db1, m db = Ok a db1 ->
    ext db db1 /\ forall dbF, ext db1 dbF -> m dbF = Ok a dbF.

(** The range of PostgreSQL's [int]. *)
Definition in_sql_int (z : Z) : Prop := (- 2 ^ 31 <= z <= 2 ^ 31 - 1)%Z.

(** [h] is a height without an indexed row of the chain. *)
Definition isGap (db : Store) (chainID : nat) (h : Z) : Prop :=
  isIndexed db chainID h = false.

(** ** Vocabulary of the further properties *)

(** A transaction [IndexNewBlock] can store whole. *)
Definition storable (tx : TxDBWrapper.t) : bool :=
  allFeesValid tx && negb (hasEmptyMessageType tx).

(** The natural keys of the tables [IndexNewBlock] writes. *)
Definition blockKey (r : BlockOnly.t) : Z * nat :=
  (BlockOnly.Height r, BlockOnly.BlockchainID r).
Definition feeKey (r : FeeOnly.t) : nat * nat :=
  (FeeOnly.TxID r, FeeOnly.DenominationID r).
Definition messageKey (r : MessageOnly.t) : nat * nat * Z :=
  (MessageOnly.TxID r, MessageOnly.MessageTypeID r, MessageOnly.MessageIndex r).
Definition taxableTxKey (r : TaxableTransactionOnly.t) : nat * Z * Z :=
  (TaxableTransactionOnly.MessageID r, TaxableTransactionOnly.AmountSent r,
   TaxableTransactionOnly.AmountReceived r).

(** No two rows of a table share their natural key. *)
Record Unique (db : Store) : Prop := mkUnique {
  unique_blocks : NoDup (map blockKey (blocks db));
  unique_addresses : NoDup (map Address.Address (addresses db));
  unique_txes : NoDup (map TxOnly.Hash (txes db));
  unique_fees : NoDup (map feeKey (fees db));
  unique_message_types : NoDup (map MessageType.MessageType (message_types db));
  unique_messages : NoDup (map messageKey (messages db));
  unique_taxable_tx : NoDup (map taxableTxKey (taxable_tx db)) }.

(** [db] has kept what [db0] held: the rows of the append-only tables with
    their identifiers, the chains and the reward events untouched, the
    height and chain of every block row. *)
Record keepsRows (db0 db : Store) : Prop := mkKeepsRows {
  kept_chains : chains db = chains db0;
  kept_taxable_event : taxable_event db = taxable_event db0;
  kept_blocks : grown (map blockKey (blocks db0)) (map blockKey (blocks db));
  kept_addresses : grown (addresses db0) (addresses db);
  kept_txes : grown (txes db0) (txes db);
  kept_fees : grown (fees db0) (fees db);
  kept_message_types : grown (message_types db0) (message_types db);
  kept_messages : grown (messages db0) (messages db);
  kept_taxable_tx : grown (taxable_tx db0) (taxable_tx db) }.

(** A statement that keeps a property of the store. *)
Definition Keeps (P : Store -> Prop) {A} (m : M A) : Prop :=
  forall db a db1, P db -> m db = Ok a db1 -> P db1.

(** A statement after which a property of the store holds. *)
Definition Ensures {A} (m : M A) (Q : Store -> Prop) : Prop :=
  forall db a db1, m db = Ok a db1 -> Q db1.

(** The addresses a transaction refers to: its signer, the payers of its
    fees, the senders and receivers of its taxable transactions, where they
    are given. *)
Definition taxableTxAddresses (t : TaxableTxDBWrapper.t) : list Address.t :=
  [TaxableTxDBWrapper.SenderAddress t; TaxableTxDBWrapper.ReceiverAddress t].
Definition messageAddresses (m : MessageDBWrapper.t) : list Address.t :=
  flat_map taxableTxAddresses (MessageDBWrapper.TaxableTxs m).
Definition referencedAddresses (tx : TxDBWrapper.t) : list Address.t :=
  filter (fun a => negb (isEmpty (Address.Address a)))
    (TxDBWrapper.SignerAddress tx
     :: map Fee.PayerAddress (Tx.Fees (TxDBWrapper.Tx tx))
     ++ flat_map messageAddresses (TxDBWrapper.Messages tx)).

(** Ascending order of failed-block rows and of reward candidates. *)
Definition heightLe (a b : FailedBlock.t) : Prop :=
  (FailedBlock.Height a <= FailedBlock.Height b)%Z.
Definition hashLe (a b : TaxableEvent.t) : Prop :=
  (TaxableEvent.EventHash a <=? TaxableEvent.EventHash b)%string = true.

(** The hashes of the stored reward events. *)
Definition eventHashes (db : Store) : list string :=
  map TaxableEventRow.EventHash (taxable_event db).

(** The batch that starts at index [i] when the candidates are partitioned
    into consecutive batches of [batchSize] events, the final one possibly
    shorter: the batch of the specification, to be compared with the slice
    [slice dbEvents i (batchEndAt (length dbEvents) i)] the loop hands over. *)
Definition batchAt (dbEvents : list TaxableEvent.t) (i : nat) : list TaxableEvent.t :=
  firstn batchSize (skipn i dbEvents).

(** The candidates from index [i] on that lie in a batch handed to
    [createTaxableEvents]: all of them when their number is a multiple of
    [batchSize], all but the last one otherwise. *)
Definition batchesFrom (dbEvents : list TaxableEvent.t) (i : nat) : list TaxableEvent.t :=
  if (length dbEvents - i) mod batchSize =? 0 then skipn i dbEvents
  else removelast (skipn i dbEvents).

Definition zeroConfig : Config.t :=
  Config.mk (database.mk "" "" "" "" "") (api.mk "") "".

(** ** Stores and inputs of the scenarios *)

(** A store whose only rows are indexed blocks of chain 1 at these heights. *)
Definition indexedHeights (heights : list Z) : Store :=
  mkStore [Chain.mk "cosmoshub-4" "Cosmos Hub"]
    (map (fun h => BlockOnly.mk h 1700000000 true 1) heights)
    [] [] [] [] [] [] [] [].

(** The block of the specification's end-to-end scenario. *)
Definition uatom : Denom.t := Denom.mk 1 "uatom" "ATOM" "Atom".

Definition block100 : list TxDBWrapper.t :=
  [ TxDBWrapper.mk
      (Tx.mk "abc123" 0 [ Fee.mk 500 uatom (Address.mk "cosmos1foo") ])
      (Address.mk "cosmos1foo")
      [ MessageDBWrapper.mk
          (Message.mk (MessageType.mk "/cosmos.bank.v1beta1.MsgSend") 0)
          [ TaxableTxDBWrapper.mk (TaxableTransaction.mk 500 500 1 1)
              (Address.mk "cosmos1foo") (Address.mk "cosmos1bar") ] ] ].

(** A transaction whose only message has no type. *)
Definition txUntyped : TxDBWrapper.t :=
  TxDBWrapper.mk (Tx.mk "aa01" 0 []) (Address.mk "cosmos1foo")
    [ MessageDBWrapper.mk (Message.mk (MessageType.mk "") 0) [] ].

(** A transaction whose only fee has no payer. *)
Definition txUnpaid : TxDBWrapper.t :=
  TxDBWrapper.mk (Tx.mk "bb02" 0 [ Fee.mk 500 uatom (Address.mk "") ])
    (Address.mk "cosmos1foo") [].

(** A store with a failed-block row for height 100 of chain 1. *)
Definition failed100 : Store :=
  mkStore [Chain.mk "cosmoshub-4" "Cosmos Hub"] [] [FailedBlock.mk 100 1; FailedBlock.mk 7 1]
    [] [] [] [] [] [] [].

Definition uosmo : Denom.t := Denom.mk 2 "uosmo" "OSMO" "Osmosis".

(** A reward candidate as [IndexOsmoRewards] builds it. *)
Definition reward (hash address : string) (denom : Denom.t) : TaxableEvent.t :=
  TaxableEvent.mk OsmosisRewardDistribution 42 hash denom
    (Block.mk 0 1000 0 (Chain.mk "osmosis-1" "Osmosis") false)
    (Address.mk address).

(** One reward record with one coin, a denomination cache that knows every
    base, and a digest. *)
Definition oneReward : list osmosis.Rewards :=
  [ osmosis.mkRewards "osmo1abc" 1000 [ osmosis.mkCoin "uosmo" 42 ] ].
Definition cachedDenom (base : string) : Denom.t + error := inl uosmo.
Definition noUnknownDenom (base : string) (db : Store) : (Denom.t + error) * Store :=
  (inr "denom insert failed"%string, db).
Definition fixedDigest (address : string) (height : Z) (coin : osmosis.Coin) : string :=
  "5f4dcc3b5aa765d61d8327deb882cf99".

(** A node that answers every request with status 200 and a body that is
    not JSON, and a decoder that accepts only a body that opens a JSON
    object. *)
Definition htmlBody : string := "<html>502 Bad Gateway</html>".
Definition answersHtml (url : string) : ChainClient.Response + error :=
  inl (ChainClient.mkResponse 200 "200 OK" htmlBody None).
Definition unmarshalObject (body : string) (v : string) : string * option error :=
  if String.prefix "{" body then (body, None)
  else (v, Some "invalid character '<' looking for beginning of value"%string).

(** A node that does not have the block. *)
Definition answersNotFound (url : string) : ChainClient.Response + error :=
  inl (ChainClient.mkResponse 404 "404 Not Found" "{}" None).

(** * Properties *)

(** ** The statement monad *)

Lemma bind_Ok A B (m : M A) (k : A -> M B) db b db2 :
  bind m k db = Ok b db2 ->
  exists a db1, m db = Ok a db1 /\ k a db1 = Ok b db2.
Proof.
  unfold bind. destruct (m db) as [a db1 | e |]; try discriminate.
  intros H. exists a, db1. split; [reflexivity | exact H].
Qed.

Lemma forM__app X (l1 l2 : list X) (body : X -> M unit) db :
  forM_ (l1 ++ l2) body db =
  match forM_ l1 body db with
  | Ok _ db1 => forM_ l2 body db1
  | Err e => Err e
  | Fatal => Fatal
  end.
Proof.
  revert db. induction l1 as [| x l1 IH]; intros db; simpl.
  - reflexivity.
  - unfold bind. destruct (body x db) as [[] db1 | e |]; auto.
Qed.

Lemma grown_refl R (l : list R) : grown l l.
Proof. exists []. now rewrite app_nil_r. Qed.

Lemma grown_trans R (l1 l2 l3 : list R) : grown l1 l2 -> grown l2 l3 -> grown l1 l3.
Proof. intros [d1 ->] [d2 ->]. exists (d1 ++ d2). now rewrite app_assoc. Qed.

Lemma grown_app R (l d : list R) : grown l (l ++ d).
Proof. now exists d. Qed.

Lemma ext_refl db : ext db db.
Proof. constructor; auto using grown_refl. Qed.

Lemma ext_trans db1 db2 db3 : ext db1 db2 -> ext db2 db3 -> ext db1 db3.
Proof.
  intros [] []. constructor; eauto using grown_trans. congruence.
Qed.

Create HintDb dbhints.
#[local] Hint Resolve grown_refl grown_app ext_refl : dbhints.

Ltac append_only :=
  constructor;
  [ intros l db; reflexivity
  | intros [] d; constructor; simpl; auto with dbhints
  | intros db db' []; assumption ].

Lemma chains_AppendOnly : AppendOnly chains_tbl.
Proof. append_only. Qed.
Lemma blocks_AppendOnly : AppendOnly blocks_tbl.
Proof. append_only. Qed.
Lemma addresses_AppendOnly : AppendOnly addresses_tbl.
Proof. append_only. Qed.
Lemma txes_AppendOnly : AppendOnly txes_tbl.
Proof. append_only. Qed.
Lemma fees_AppendOnly : AppendOnly fees_tbl.
Proof. append_only. Qed.
Lemma message_types_AppendOnly : AppendOnly message_types_tbl.
Proof. append_only. Qed.
Lemma messages_AppendOnly : AppendOnly messages_tbl.
Proof. append_only. Qed.
Lemma taxable_tx_AppendOnly : AppendOnly taxable_tx_tbl.
Proof. append_only. Qed.
Lemma taxable_event_AppendOnly : AppendOnly taxable_event_tbl.
Proof. append_only. Qed.

#[local] Hint Resolve chains_AppendOnly blocks_AppendOnly addresses_AppendOnly
  txes_AppendOnly fees_AppendOnly message_types_AppendOnly messages_AppendOnly
  taxable_tx_AppendOnly taxable_event_AppendOnly : dbhints.

(** ** Queries *)

Lemma cond_str_refl s : cond_str s s = true.
Proof. unfold cond_str. rewrite String.eqb_refl. apply orb_true_r. Qed.

Lemma cond_nat_refl n : cond_nat n n = true.
Proof. unfold cond_nat. rewrite Nat.eqb_refl. apply orb_true_r. Qed.

Lemma cond_Z_refl z : cond_Z z z = true.
Proof. unfold cond_Z. rewrite Z.eqb_refl. apply orb_true_r. Qed.

Lemma cond_str_eq c v : isEmpty c = false -> cond_str c v = true -> v = c.
Proof.
  unfold cond_str, isEmpty. intros ->. simpl. intros H.
  symmetry. now apply String.eqb_eq.
Qed.

Lemma first_from_app_Some R (cond : R -> bool) l d i x :
  first_from cond i l = Some x -> first_from cond i (l ++ d) = Some x.
Proof.
  revert i. induction l as [| r l IH]; intros i; simpl; [discriminate |].
  destruct (cond r); auto.
Qed.

Lemma first_from_app_None R (cond : R -> bool) l d i :
  first_from cond i l = None ->
  first_from cond i (l ++ d) = first_from cond (i + length l) d.
Proof.
  revert i. induction l as [| r l IH]; intros i; simpl.
  - now rewrite Nat.add_0_r.
  - destruct (cond r); [discriminate |]. intros H.
    rewrite IH by assumption. f_equal. lia.
Qed.

Lemma first_from_sound R (cond : R -> bool) l i id r :
  first_from cond i l = Some (id, r) ->
  i <= id /\ nth_error l (id - i) = Some r /\ cond r = true.
Proof.
  revert i. induction l as [| x l IH]; intros i; simpl; [discriminate |].
  destruct (cond x) eqn:Hc.
  - intros [= <- <-]. rewrite Nat.sub_diag. auto.
  - intros H. apply IH in H as (Hle & Hn & Hr). repeat split; [lia | | assumption].
    replace (id - i) with (S (id - S i)) by lia. exact Hn.
Qed.

Lemma First_sound R (cond : R -> bool) l id r :
  First cond l = Some (id, r) ->
  1 <= id /\ nth_error l (id - 1) = Some r /\ cond r = true.
Proof. apply first_from_sound. Qed.

Lemma nth_error_grown R (l l' : list R) n r :
  grown l l' -> nth_error l n = Some r -> nth_error l' n = Some r.
Proof.
  intros [d ->] H. rewrite nth_error_app1; [assumption |].
  apply nth_error_Some. congruence.
Qed.

(** ** Fetch-or-create goes through again *)

Lemma Stable_Mono A (m : M A) : Stable m -> Mono m.
Proof. intros H db a db1 E. now apply H in E. Qed.

Lemma Stable_ret A (a : A) : Stable (ret a).
Proof.
  intros db a' db1 [= <- <-]. split; [apply ext_refl | reflexivity].
Qed.

Lemma Stable_fail A (e : error) : Stable (@fail A e).
Proof. intros db a db1; discriminate. Qed.

Lemma Stable_Log_Fatal A msg : Stable (@Log_Fatal A msg).
Proof. intros db a db1; discriminate. Qed.

Lemma Stable_bind A B (m : M A) (k : A -> M B) :
  Stable m -> (forall a, Stable (k a)) -> Stable (bind m k).
Proof.
  intros Hm Hk db b db2 E.
  apply bind_Ok in E as (a & db1 & Em & Ek).
  destruct (Hm _ _ _ Em) as [X1 R1]. destruct (Hk _ _ _ _ Ek) as [X2 R2].
  split; [eapply ext_trans; eassumption |].
  intros dbF XF. unfold bind.
  rewrite R1 by (eapply ext_trans; eassumption). now apply R2.
Qed.

Lemma Stable_forM_ X (l : list X) (body : X -> M unit) :
  (forall x, Stable (body x)) -> Stable (forM_ l body).
Proof.
  intros Hb. induction l as [| x l IH]; simpl.
  - apply Stable_ret.
  - apply Stable_bind; auto.
Qed.

Lemma Stable_FirstOrCreate R (T : Table R) cond dest :
  AppendOnly T -> cond dest = true -> Stable (FirstOrCreate T cond dest).
Proof.
  intros HT Hd db a db1. unfold FirstOrCreate, First.
  destruct (first_from cond 1 (rows T db)) as [found |] eqn:E.
  - intros [= <- <-]. split; [apply ext_refl |].
    intros dbF XF. destruct (ext_rows HT XF) as [d ->].
    now rewrite (first_from_app_Some _ _ d _ E).
  - intros [= <- <-]. split; [apply (ext_with_rows HT) |].
    intros dbF XF. destruct (ext_rows HT XF) as [d Hrows].
    rewrite (rows_with_rows HT) in Hrows. rewrite Hrows, <- app_assoc.
    rewrite first_from_app_None by assumption. simpl. now rewrite Hd.
Qed.

Ltac stable :=
  repeat
    match goal with
    | |- Stable (let _ := _ in _) => cbv zeta
    | |- Stable (ret _) => apply Stable_ret
    | |- Stable (fail _) => apply Stable_fail
    | |- Stable (Log_Fatal _) => apply Stable_Log_Fatal
    | |- Stable (forM_ _ _) => apply Stable_forM_; intros ?
    | |- Stable (bind _ _) => apply Stable_bind; [| intros ?]
    | |- Stable (FirstOrCreate _ _ _) =>
        apply Stable_FirstOrCreate; [auto with dbhints | simpl]
    | |- Stable (if ?b then _ else _) => destruct b
    | |- Stable (match ?a with (_, _) => _ end) => destruct a
    end.

Lemma Stable_indexFee id fee : Stable (indexFee id fee).
Proof.
  unfold indexFee. stable.
  - apply cond_str_refl.
  - now rewrite !cond_nat_refl.
Qed.

Lemma Stable_indexTaxableTx id t : Stable (indexTaxableTx id t).
Proof.
  unfold indexTaxableTx. stable;
    try apply cond_str_refl;
    now rewrite cond_nat_refl, !Z.eqb_refl.
Qed.

Lemma Stable_indexMessage id m : Stable (indexMessage id m).
Proof.
  unfold indexMessage. stable;
    try apply cond_str_refl; try apply Stable_indexTaxableTx;
    now rewrite !cond_nat_refl, cond_Z_refl.
Qed.

Lemma Stable_indexTx id tx : Stable (indexTx id tx).
Proof.
  unfold indexTx. stable;
    try apply cond_str_refl; try apply Stable_indexFee; try apply Stable_indexMessage.
Qed.

(** ** The block row *)

Lemma update_row_tail R (f : R -> R) x l k :
  update_row (S (S k)) f (x :: l) = x :: update_row (S k) f l.
Proof. reflexivity. Qed.

Lemma first_from_update R (cond : R -> bool) (f : R -> R) l i id r :
  (forall x, cond (f x) = cond x) ->
  first_from cond (S i) l = Some (id, r) ->
  first_from cond (S i) (update_row (id - i) f l) = Some (id, f r).
Proof.
  intros Hf. revert i. induction l as [| x l IH]; intros i; simpl; [discriminate |].
  destruct (cond x) eqn:Hc.
  - intros [= <- <-]. replace (S i - i) with 1 by lia. simpl. now rewrite Hf, Hc.
  - intros H. pose proof (first_from_sound _ _ _ H) as (Hle & _ & _).
    replace (id - i) with (S (S (id - S (S i)))) by lia.
    rewrite update_row_tail. cbn [first_from]. rewrite Hc.
    replace (S (id - S (S i))) with (id - S i) by lia. now apply IH.
Qed.

Lemma update_row_fixed R (f : R -> R) l id r :
  nth_error l (id - 1) = Some r -> f r = r -> update_row id f l = l.
Proof.
  intros Hn Hf. revert id Hn. induction l as [| x l IH]; intros id.
  - now destruct id.
  - destruct id as [| [| id]]; [reflexivity | |].
    + simpl. intros [= ->]. now rewrite Hf.
    + rewrite update_row_tail. intros Hn. f_equal. apply IH.
      replace (S id - 1) with id by lia. exact Hn.
Qed.

Lemma with_rows_blocks_same db : with_rows blocks_tbl (blocks db) db = db.
Proof. now destruct db. Qed.

Lemma with_rows_failed_blocks_same db :
  with_rows failed_blocks_tbl (failed_blocks db) db = db.
Proof. now destruct db. Qed.

(** What the block upsert leaves behind: its row is the first match and
    already carries the assigned attributes. *)
Lemma FirstOrCreateAssign_first (cond : BlockOnly.t -> bool) f dest db id row db1 :
  (forall x, cond (f x) = cond x) -> (forall x, f (f x) = f x) -> cond dest = true ->
  FirstOrCreateAssign blocks_tbl cond f dest db = Ok (id, row) db1 ->
  First cond (blocks db1) = Some (id, row) /\ f row = row
  /\ failed_blocks db1 = failed_blocks db.
Proof.
  intros Hc Hf Hd. unfold FirstOrCreateAssign, First. simpl rows.
  destruct (first_from cond 1 (blocks db)) as [[id0 r0] |] eqn:E.
  - intros [= <- <- <-]. simpl. repeat split; auto.
    pose proof (@first_from_update _ cond f _ 0 _ _ Hc E) as H.
    now rewrite Nat.sub_0_r in H.
  - intros [= <- <- <-]. simpl. repeat split; auto.
    rewrite first_from_app_None by assumption. simpl. now rewrite Hc, Hd.
Qed.

Lemma FirstOrCreateAssign_again (cond : BlockOnly.t -> bool) f dest db id row :
  First cond (blocks db) = Some (id, row) -> f row = row ->
  FirstOrCreateAssign blocks_tbl cond f dest db = Ok (id, row) db.
Proof.
  intros E Hf. unfold FirstOrCreateAssign. simpl rows. rewrite E, Hf.
  apply First_sound in E as (_ & Hn & _).
  rewrite (@update_row_fixed _ f _ _ _ Hn Hf). now rewrite with_rows_blocks_same.
Qed.

Lemma assignIndexed_cond blockHeight dbChainID blockTime x :
  cond_Z blockHeight (BlockOnly.Height (assignIndexed blockTime x))
  && cond_nat dbChainID (BlockOnly.BlockchainID (assignIndexed blockTime x))
  = cond_Z blockHeight (BlockOnly.Height x)
    && cond_nat dbChainID (BlockOnly.BlockchainID x).
Proof. reflexivity. Qed.

Lemma assignIndexed_idem blockTime x :
  assignIndexed blockTime (assignIndexed blockTime x) = assignIndexed blockTime x.
Proof. unfold assignIndexed. simpl. now destruct (blockTime =? 0)%Z. Qed.

Lemma filter_idem R (p : R -> bool) l : filter p (filter p l) = filter p l.
Proof.
  induction l as [| x l IH]; simpl; [reflexivity |].
  destruct (p x) eqn:Hp; simpl; [rewrite Hp; now f_equal | assumption].
Qed.

Lemma existsb_filter_negb R (p : R -> bool) l :
  existsb p (filter (fun r => negb (p r)) l) = false.
Proof.
  induction l as [| x l IH]; simpl; [reflexivity |].
  destruct (p x) eqn:Hp; simpl; [assumption | now rewrite Hp].
Qed.

(** The three statements of the callback, when it goes through. *)
Lemma indexNewBlockTx_Ok blockHeight blockTime txs dbChainID db db1 :
  indexNewBlockTx blockHeight blockTime txs dbChainID db = Ok tt db1 ->
  exists block_ID row dbb,
    let cond := fun r => cond_Z blockHeight (BlockOnly.Height r)
                         && cond_nat dbChainID (BlockOnly.BlockchainID r) in
    First cond (blocks dbb) = Some (block_ID, row)
    /\ assignIndexed blockTime row = row
    /\ failed_blocks dbb =
       filter (fun r => negb (whereFailedBlock blockHeight dbChainID r)) (failed_blocks db)
    /\ forM_ txs (indexTx block_ID) dbb = Ok tt db1.
Proof.
  unfold indexNewBlockTx. intros E.
  apply bind_Ok in E as ([] & dba & Ed & E). injection Ed as <-.
  apply bind_Ok in E as ([block_ID row] & dbb & Eb & E).
  apply FirstOrCreateAssign_first in Eb as (Hfirst & Hrow & Hfailed).
  - exists block_ID, row, dbb. simpl. repeat split; assumption.
  - intros x. apply assignIndexed_cond.
  - apply assignIndexed_idem.
  - simpl. now rewrite cond_Z_refl, cond_nat_refl.
Qed.

(** C2. A call of [IndexNewBlock] that went through, repeated on the store
    it left with the same height, time, transactions and chain, goes through
    again and leaves that store as it is: every table keeps exactly its rows
    (no row is added to Block, Tx, Address, Fee, Message or TaxableTransaction,
    and none is changed). *)
Theorem IndexNewBlock_idempotent db blockHeight blockTime txs dbChainID db1 :
  IndexNewBlock db blockHeight blockTime txs dbChainID = (Returns None, db1) ->
  IndexNewBlock db1 blockHeight blockTime txs dbChainID = (Returns None, db1).
Proof.
  unfold IndexNewBlock, Transaction.
  destruct (indexNewBlockTx blockHeight blockTime txs dbChainID db)
    as [[] db1' | e |] eqn:E; try discriminate.
  intros [= <-].
  apply indexNewBlockTx_Ok in E as (block_ID & row & dbb & Hfirst & Hrow & Hfailed & Htxs).
  destruct (Stable_forM_ txs (indexTx block_ID) (Stable_indexTx block_ID) _ Htxs)
    as [X Again].
  assert (E1 : indexNewBlockTx blockHeight blockTime txs dbChainID db1' = Ok tt db1').
  { unfold indexNewBlockTx, bind, Delete. simpl rows.
    rewrite (ext_failed_blocks X), Hfailed, filter_idem, <- Hfailed,
      <- (ext_failed_blocks X), with_rows_failed_blocks_same.
    destruct (ext_blocks X) as [d Hd].
    rewrite (@FirstOrCreateAssign_again _ _ _ db1' block_ID row).
    - apply Again, ext_refl.
    - rewrite Hd. now apply first_from_app_Some.
    - assumption. }
  now rewrite E1.
Qed.

(** ** How the loops of [IndexNewBlock] end *)

Lemma FirstOrCreate_total R (T : Table R) cond dest db :
  exists found db', FirstOrCreate T cond dest db = Ok found db'.
Proof.
  unfold FirstOrCreate. destruct (First cond (rows T db)); eauto.
Qed.

Lemma FirstOrCreateAssign_total R (T : Table R) cond f dest db :
  exists found db', FirstOrCreateAssign T cond f dest db = Ok found db'.
Proof.
  unfold FirstOrCreateAssign. destruct (First cond (rows T db)) as [[] |]; eauto.
Qed.

Lemma forM__total X (l : list X) (body : X -> M unit) :
  (forall x, In x l -> forall db, exists db', body x db = Ok tt db') ->
  forall db, exists db', forM_ l body db = Ok tt db'.
Proof.
  induction l as [| x l IH]; intros Hb db; simpl.
  - now exists db.
  - unfold bind. destruct (Hb x (or_introl eq_refl) db) as [db1 ->].
    apply IH. intros y Hy. apply Hb. now right.
Qed.

Lemma forM__no_Fatal X (l : list X) (body : X -> M unit) :
  (forall x, In x l -> forall db, isFatal (body x db) = false) ->
  forall db, isFatal (forM_ l body db) = false.
Proof.
  induction l as [| x l IH]; intros Hb db; simpl; [reflexivity |].
  unfold bind. pose proof (Hb x (or_introl eq_refl) db) as Hx.
  destruct (body x db); try easy. apply IH. intros y Hy. apply Hb. now right.
Qed.

Lemma forM__no_Err X (l : list X) (body : X -> M unit) :
  (forall x, In x l -> forall db, isErr (body x db) = false) ->
  forall db, isErr (forM_ l body db) = false.
Proof.
  induction l as [| x l IH]; intros Hb db; simpl; [reflexivity |].
  unfold bind. pose proof (Hb x (or_introl eq_refl) db) as Hx.
  destruct (body x db); try easy. apply IH. intros y Hy. apply Hb. now right.
Qed.

(** The loop stops with an error at the first element that always fails,
    unless the process ended before. *)
Lemma forM__Err_at X (pre post : list X) x (body : X -> M unit) :
  (forall db, isFatal (forM_ pre body db) = false) ->
  (forall db, isErr (body x db) = true) ->
  forall db, isErr (forM_ (pre ++ x :: post) body db) = true.
Proof.
  intros Hpre Hx db. rewrite forM__app. specialize (Hpre db).
  destruct (forM_ pre body db) as [[] db1 | e |]; try easy.
  simpl. unfold bind. specialize (Hx db1). now destruct (body x db1).
Qed.

Lemma forM__Fatal_at X (pre post : list X) x (body : X -> M unit) :
  (forall db, isErr (forM_ pre body db) = false) ->
  (forall db, isFatal (body x db) = true) ->
  forall db, isFatal (forM_ (pre ++ x :: post) body db) = true.
Proof.
  intros Hpre Hx db. rewrite forM__app. specialize (Hpre db).
  destruct (forM_ pre body db) as [[] db1 | e |]; try easy.
  simpl. unfold bind. specialize (Hx db1). now destruct (body x db1).
Qed.

Lemma existsb_split X (p : X -> bool) l :
  existsb p l = true ->
  exists pre x post, l = pre ++ x :: post /\ p x = true /\ existsb p pre = false.
Proof.
  induction l as [| a l IH]; simpl; [discriminate |].
  destruct (p a) eqn:Ha.
  - intros _. now exists [], a, l.
  - intros H. destruct (IH H) as (pre & x & post & -> & Hx & Hpre).
    exists (a :: pre), x, post. simpl. now rewrite Ha.
Qed.

(** Statements that never end the process, never return an error, always go
    through. *)
Definition NoFatal {A} (m : M A) : Prop := forall db, isFatal (m db) = false.
Definition NoErr {A} (m : M A) : Prop := forall db, isErr (m db) = false.
Definition Total {A} (m : M A) : Prop := forall db, exists a db', m db = Ok a db'.

Lemma NoFatal_bind A B (m : M A) (k : A -> M B) :
  NoFatal m -> (forall a, NoFatal (k a)) -> NoFatal (bind m k).
Proof.
  intros Hm Hk db. unfold bind. specialize (Hm db).
  destruct (m db); try easy. apply Hk.
Qed.

Lemma NoErr_bind A B (m : M A) (k : A -> M B) :
  NoErr m -> (forall a, NoErr (k a)) -> NoErr (bind m k).
Proof.
  intros Hm Hk db. unfold bind. specialize (Hm db).
  destruct (m db); try easy. apply Hk.
Qed.

Lemma Total_bind A B (m : M A) (k : A -> M B) :
  Total m -> (forall a, Total (k a)) -> Total (bind m k).
Proof.
  intros Hm Hk db. unfold bind. destruct (Hm db) as (a & db' & ->). apply Hk.
Qed.

Lemma Total_forM_ X (l : list X) (body : X -> M unit) :
  (forall x, Total (body x)) -> Total (forM_ l body).
Proof.
  intros Hb. induction l as [| x l IH]; simpl.
  - intros db. now exists tt, db.
  - apply Total_bind; auto.
Qed.

Lemma Total_unit (m : M unit) db : Total m -> exists db', m db = Ok tt db'.
Proof. intros H. destruct (H db) as ([] & db' & E). eauto. Qed.

Ltac no_fatal :=
  repeat
    match goal with
    | |- NoFatal (let _ := _ in _) => cbv zeta
    | |- NoFatal (bind _ _) => apply NoFatal_bind; [| intros ?]
    | |- NoFatal (forM_ _ _) => intros ?; apply forM__no_Fatal; intros ? _
    | |- NoFatal (if ?b then _ else _) => destruct b
    | |- NoFatal (match ?a with (_, _) => _ end) => destruct a
    | |- NoFatal (FirstOrCreate ?T ?c ?d) =>
        let db := fresh "db" in
        intros db; destruct (FirstOrCreate_total T c d db) as (? & ? & ->); reflexivity
    | |- NoFatal (Create _ _) => intros ?; reflexivity
    | |- NoFatal (ret _) => intros ?; reflexivity
    | |- NoFatal (fail _) => intros ?; reflexivity
    end.

Ltac no_err :=
  repeat
    match goal with
    | |- NoErr (let _ := _ in _) => cbv zeta
    | |- NoErr (bind _ _) => apply NoErr_bind; [| intros ?]
    | |- NoErr (forM_ _ _) => intros ?; apply forM__no_Err; intros ? _
    | |- NoErr (if ?b then _ else _) => destruct b
    | |- NoErr (match ?a with (_, _) => _ end) => destruct a
    | |- NoErr (FirstOrCreate ?T ?c ?d) =>
        let db := fresh "db" in
        intros db; destruct (FirstOrCreate_total T c d db) as (? & ? & ->); reflexivity
    | |- NoErr (ret _) => intros ?; reflexivity
    | |- NoErr (Log_Fatal _) => intros ?; reflexivity
    end.

Ltac total :=
  repeat
    match goal with
    | |- Total (let _ := _ in _) => cbv zeta
    | |- Total (bind _ _) => apply Total_bind; [| intros ?]
    | |- Total (forM_ _ _) => apply Total_forM_; intros ?
    | |- Total (if ?b then _ else _) => destruct b
    | |- Total (match ?a with (_, _) => _ end) => destruct a
    | |- Total (FirstOrCreate ?T ?c ?d) => intros ?; apply FirstOrCreate_total
    | |- Total (Create _ _) => intros ?; unfold Create; eauto
    | |- Total (ret _) => intros ?; unfold ret; eauto
    end.

(** *** Fees *)

Lemma indexFee_empty_payer id fee db :
  emptyPayer fee = true ->
  indexFee id fee db = Err "fee cannot have empty payer address"%string.
Proof.
  unfold emptyPayer, indexFee. intros H. cbv zeta. unfold bind. now rewrite H.
Qed.

Lemma indexFee_valid id fee db :
  validFee fee = true -> exists db', indexFee id fee db = Ok tt db'.
Proof.
  unfold validFee, emptyPayer, denomResolved.
  intros H. apply andb_true_iff in H as [Hp Hd]. apply negb_true_iff in Hd.
  apply Total_unit. unfold indexFee. rewrite Hp, Hd. total.
Qed.

Lemma indexFee_no_Fatal id fee : NoFatal (indexFee id fee).
Proof. unfold indexFee. no_fatal. Qed.

Lemma fees_empty_payer id fees0 db :
  existsb emptyPayer fees0 = true -> isErr (forM_ fees0 (indexFee id) db) = true.
Proof.
  intros H. apply existsb_split in H as (pre & fee & post & -> & Hfee & _).
  apply forM__Err_at.
  - intros db0. apply forM__no_Fatal. intros; apply indexFee_no_Fatal.
  - intros db0. now rewrite indexFee_empty_payer.
Qed.

Lemma fees_valid id fees0 db :
  forallb validFee fees0 = true -> exists db', forM_ fees0 (indexFee id) db = Ok tt db'.
Proof.
  intros H. apply forM__total. intros fee Hin db0. apply indexFee_valid.
  rewrite forallb_forall in H. now apply H.
Qed.

(** *** Messages *)

Lemma indexTaxableTx_total id t : Total (indexTaxableTx id t).
Proof. unfold indexTaxableTx. total. Qed.

Lemma indexMessage_empty_type id m db :
  emptyMessageType m = true -> indexMessage id m db = Fatal.
Proof.
  unfold emptyMessageType, indexMessage. intros H. cbv zeta. unfold bind. now rewrite H.
Qed.

Lemma indexMessage_typed id m db :
  emptyMessageType m = false -> exists db', indexMessage id m db = Ok tt db'.
Proof.
  unfold emptyMessageType. intros H.
  apply Total_unit. unfold indexMessage. rewrite H. total.
  apply indexTaxableTx_total.
Qed.

Lemma indexMessage_no_Err id m : NoErr (indexMessage id m).
Proof.
  intros db. destruct (emptyMessageType m) eqn:H.
  - now rewrite indexMessage_empty_type.
  - destruct (indexMessage_typed id m db H) as [db' ->]. reflexivity.
Qed.

Lemma messages_empty_type id msgs db :
  existsb emptyMessageType msgs = true -> forM_ msgs (indexMessage id) db = Fatal.
Proof.
  intros H. apply existsb_split in H as (pre & m & post & -> & Hm & _).
  assert (F : isFatal (forM_ (pre ++ m :: post) (indexMessage id) db) = true).
  { apply forM__Fatal_at.
    - intros db0. apply forM__no_Err. intros; apply indexMessage_no_Err.
    - intros db0. now rewrite indexMessage_empty_type. }
  now destruct (forM_ (pre ++ m :: post) (indexMessage id) db).
Qed.

Lemma messages_typed id msgs db :
  existsb emptyMessageType msgs = false ->
  exists db', forM_ msgs (indexMessage id) db = Ok tt db'.
Proof.
  intros H. apply forM__total. intros m Hin db0. apply indexMessage_typed.
  destruct (emptyMessageType m) eqn:Hm; [| reflexivity].
  rewrite <- H. symmetry. apply existsb_exists. eauto.
Qed.

(** *** Transactions *)

Lemma forM__not_Ok_at X (pre post : list X) x (body : X -> M unit) :
  (forall db, succeeds (body x db) = false) ->
  forall db, succeeds (forM_ (pre ++ x :: post) body db) = false.
Proof.
  intros Hx db. rewrite forM__app.
  destruct (forM_ pre body db) as [[] db1 | e |]; try easy.
  simpl. unfold bind. specialize (Hx db1). now destruct (body x db1).
Qed.

(** The signer and the [Tx] row are always stored; what remains is the two
    inner loops. *)
Lemma indexTx_steps block_ID tx db :
  exists txOnly_ID db',
    indexTx block_ID tx db =
    (forM_ (Tx.Fees (TxDBWrapper.Tx tx)) (indexFee txOnly_ID) ;;
     forM_ (TxDBWrapper.Messages tx) (indexMessage txOnly_ID)) db'.
Proof.
  unfold indexTx. cbv zeta.
  destruct (negb (isEmpty (Address.Address (TxDBWrapper.SignerAddress tx)))).
  - unfold bind at 1. unfold bind at 1.
    destruct (FirstOrCreate_total addresses_tbl
                (whereAddress (TxDBWrapper.SignerAddress tx))
                (TxDBWrapper.SignerAddress tx) db) as ([sid ?] & db1 & ->).
    unfold ret at 1. unfold bind at 1.
    match goal with
    | |- context [FirstOrCreate txes_tbl ?c ?d db1] =>
        destruct (FirstOrCreate_total txes_tbl c d db1) as ([tid ?] & db2 & ->)
    end.
    now exists tid, db2.
  - unfold bind at 1. unfold ret at 1. unfold bind at 1.
    match goal with
    | |- context [FirstOrCreate txes_tbl ?c ?d db] =>
        destruct (FirstOrCreate_total txes_tbl c d db) as ([tid ?] & db2 & ->)
    end.
    now exists tid, db2.
Qed.

Lemma indexTx_empty_payer block_ID tx db :
  hasEmptyPayer tx = true -> isErr (indexTx block_ID tx db) = true.
Proof.
  intros H. destruct (indexTx_steps block_ID tx db) as (tid & db' & ->).
  unfold bind. pose proof (fees_empty_payer tid _ db' H) as E.
  now destruct (forM_ (Tx.Fees (TxDBWrapper.Tx tx)) (indexFee tid) db').
Qed.

Lemma indexTx_empty_type block_ID tx db :
  hasEmptyMessageType tx = true -> succeeds (indexTx block_ID tx db) = false.
Proof.
  intros H. destruct (indexTx_steps block_ID tx db) as (tid & db' & ->).
  unfold bind.
  destruct (forM_ (Tx.Fees (TxDBWrapper.Tx tx)) (indexFee tid) db'); try reflexivity.
  now rewrite messages_empty_type.
Qed.

Lemma indexTx_Fatal block_ID tx db :
  allFeesValid tx = true -> hasEmptyMessageType tx = true ->
  indexTx block_ID tx db = Fatal.
Proof.
  intros Hf H. destruct (indexTx_steps block_ID tx db) as (tid & db' & ->).
  unfold bind. destruct (fees_valid tid _ db' Hf) as [db1 ->].
  now apply messages_empty_type.
Qed.

Lemma indexTx_no_Err block_ID tx db :
  allFeesValid tx = true -> isErr (indexTx block_ID tx db) = false.
Proof.
  intros Hf. destruct (indexTx_steps block_ID tx db) as (tid & db' & ->).
  unfold bind. destruct (fees_valid tid _ db' Hf) as [db1 ->].
  apply forM__no_Err. intros; apply indexMessage_no_Err.
Qed.

Lemma indexTx_no_Fatal block_ID tx db :
  hasEmptyMessageType tx = false -> isFatal (indexTx block_ID tx db) = false.
Proof.
  intros H. destruct (indexTx_steps block_ID tx db) as (tid & db' & ->).
  unfold bind.
  pose proof (forM__no_Fatal (Tx.Fees (TxDBWrapper.Tx tx)) (indexFee tid)
                (fun fee _ => indexFee_no_Fatal tid fee) db') as Hfees.
  destruct (forM_ (Tx.Fees (TxDBWrapper.Tx tx)) (indexFee tid) db'); try easy.
  destruct (messages_typed tid _ db0 H) as [db1 ->]. reflexivity.
Qed.

(** The failed-block row and the block row are always written; what remains
    is the loop over the transactions. *)
Lemma indexNewBlockTx_steps blockHeight blockTime txs dbChainID db :
  exists block_ID db',
    indexNewBlockTx blockHeight blockTime txs dbChainID db =
    forM_ txs (indexTx block_ID) db'.
Proof.
  unfold indexNewBlockTx. cbv zeta. unfold bind at 1. unfold Delete at 1.
  unfold bind at 1.
  match goal with
  | |- context [FirstOrCreateAssign blocks_tbl ?c ?f ?d ?s] =>
      destruct (FirstOrCreateAssign_total blocks_tbl c f d s) as ([bid ?] & db1 & ->)
  end.
  now exists bid, db1.
Qed.

(** A transaction that did not go through leaves the store as it was, and
    the caller sees what ended it. *)
Lemma Transaction_rolls_back fc db :
  succeeds (fc db) = false ->
  snd (Transaction fc db) = db
  /\ (fst (Transaction fc db) = Exits
      \/ exists e, fst (Transaction fc db) = Returns (Some e)).
Proof.
  unfold Transaction. destruct (fc db) as [a db' | e |]; try discriminate; simpl; eauto.
Qed.

Lemma Transaction_Err fc db :
  isErr (fc db) = true -> exists e, fst (Transaction fc db) = Returns (Some e).
Proof.
  unfold Transaction. destruct (fc db) as [a db' | e |]; try discriminate; simpl; eauto.
Qed.

Lemma Transaction_Fatal fc db :
  isFatal (fc db) = true -> fst (Transaction fc db) = Exits.
Proof.
  unfold Transaction. destruct (fc db) as [a db' | e |]; try discriminate; simpl; eauto.
Qed.

Lemma isErr_not_Ok A (r : result A) : isErr r = true -> succeeds r = false.
Proof. now destruct r. Qed.

(** C1 (as amended). When a transaction of the block has a fee with an empty
    payer address, [IndexNewBlock] never commits: the store after the call is
    the store before it, so no row of the block persists, and the call either
    returns an error or ends the process.  It returns an error whenever no
    transaction before that one has a message with an empty type. *)
Theorem IndexNewBlock_empty_payer db blockHeight blockTime dbChainID pre tx post :
  hasEmptyPayer tx = true ->
  let r := IndexNewBlock db blockHeight blockTime (pre ++ tx :: post) dbChainID in
  snd r = db
  /\ (fst r = Exits \/ exists e, fst r = Returns (Some e))
  /\ (existsb hasEmptyMessageType pre = false -> exists e, fst r = Returns (Some e)).
Proof.
  intros H. cbv zeta. unfold IndexNewBlock.
  destruct (indexNewBlockTx_steps blockHeight blockTime (pre ++ tx :: post) dbChainID db)
    as (bid & db' & E).
  assert (N : succeeds (indexNewBlockTx blockHeight blockTime (pre ++ tx :: post)
                          dbChainID db) = false).
  { rewrite E. apply forM__not_Ok_at. intros db0.
    now apply isErr_not_Ok, indexTx_empty_payer. }
  destruct (Transaction_rolls_back _ _ N) as [Hs Ho].
  repeat split; try assumption.
  intros Hpre. apply Transaction_Err. rewrite E. apply forM__Err_at.
  - intros db0. apply forM__no_Fatal. intros x Hx db1. apply indexTx_no_Fatal.
    destruct (hasEmptyMessageType x) eqn:Hm; [| reflexivity].
    rewrite <- Hpre. symmetry. apply existsb_exists. eauto.
  - intros db0. now apply indexTx_empty_payer.
Qed.

(** C5 (as amended). When a transaction of the block has a message with an
    empty type, [IndexNewBlock] never commits: the store is left as it was
    and the call either ends the process or returns an error.  When the fees
    of that transaction and of those before it are all valid, the call ends
    the process ([config.Log.Fatal]): no error reaches the caller. *)
Theorem IndexNewBlock_empty_message_type db blockHeight blockTime dbChainID pre tx post :
  hasEmptyMessageType tx = true ->
  let r := IndexNewBlock db blockHeight blockTime (pre ++ tx :: post) dbChainID in
  snd r = db
  /\ (fst r = Exits \/ exists e, fst r = Returns (Some e))
  /\ (forallb allFeesValid (pre ++ [tx]) = true -> fst r = Exits).
Proof.
  intros H. cbv zeta. unfold IndexNewBlock.
  destruct (indexNewBlockTx_steps blockHeight blockTime (pre ++ tx :: post) dbChainID db)
    as (bid & db' & E).
  assert (N : succeeds (indexNewBlockTx blockHeight blockTime (pre ++ tx :: post)
                          dbChainID db) = false).
  { rewrite E. apply forM__not_Ok_at. intros db0. now apply indexTx_empty_type. }
  destruct (Transaction_rolls_back _ _ N) as [Hs Ho].
  repeat split; try assumption.
  intros Hv. rewrite forallb_app in Hv. apply andb_true_iff in Hv as [Hpre Htx].
  simpl in Htx. rewrite andb_true_r in Htx.
  apply Transaction_Fatal. rewrite E. apply forM__Fatal_at.
  - intros db0. apply forM__no_Err. intros x Hx db1. apply indexTx_no_Err.
    rewrite forallb_forall in Hpre. now apply Hpre.
  - intros db0. now rewrite indexTx_Fatal.
Qed.

(** C9. After a call of [IndexNewBlock] that went through, the failed-block
    table is what it was without the rows of this height and chain, so no
    such row exists; the rows are deleted by the first statement of the
    transaction of the block write, and a call that does not go through
    leaves them, like everything else, as they were. *)
Theorem IndexNewBlock_clears_failed_block db blockHeight blockTime txs dbChainID :
  (forall db1,
     IndexNewBlock db blockHeight blockTime txs dbChainID = (Returns None, db1) ->
     failed_blocks db1 =
       filter (fun r => negb (whereFailedBlock blockHeight dbChainID r)) (failed_blocks db)
     /\ existsb (whereFailedBlock blockHeight dbChainID) (failed_blocks db1) = false)
  /\ (forall e db1,
        IndexNewBlock db blockHeight blockTime txs dbChainID = (Returns (Some e), db1) ->
        db1 = db)
  /\ (forall db1,
        IndexNewBlock db blockHeight blockTime txs dbChainID = (Exits, db1) -> db1 = db).
Proof.
  unfold IndexNewBlock, Transaction.
  destruct (indexNewBlockTx blockHeight blockTime txs dbChainID db)
    as [[] db' | e |] eqn:E; repeat split; intros; try discriminate; try congruence.
  - apply indexNewBlockTx_Ok in E as (bid & row & dbb & _ & _ & Hfailed & Htxs).
    pose proof (Stable_Mono (Stable_forM_ txs (indexTx bid) (Stable_indexTx bid))
                  _ Htxs) as X.
    injection H as <-. now rewrite (ext_failed_blocks X).
  - apply indexNewBlockTx_Ok in E as (bid & row & dbb & _ & _ & Hfailed & Htxs).
    pose proof (Stable_Mono (Stable_forM_ txs (indexTx bid) (Stable_indexTx bid))
                  _ Htxs) as X.
    injection H as <-. rewrite (ext_failed_blocks X), Hfailed.
    apply existsb_filter_negb.
Qed.

(** ** Scenarios of [IndexNewBlock] *)

(** The end-to-end scenario of the specification: one block row, two
    addresses, one transaction, one fee, one message, one taxable transfer. *)
Example IndexNewBlock_block100 :
  IndexNewBlock empty_store 100 1700000000 block100 1 =
  (Returns None,
   mkStore []
     [BlockOnly.mk 100 1700000000 true 1]
     []
     [Address.mk "cosmos1foo"; Address.mk "cosmos1bar"]
     [TxOnly.mk "abc123" 0 1 (Some 1)]
     [FeeOnly.mk 1 500 1 1]
     [MessageType.mk "/cosmos.bank.v1beta1.MsgSend"]
     [MessageOnly.mk 1 1 0]
     [TaxableTransactionOnly.mk 1 500 500 1 1 (Some 1) (Some 2)]
     []).
Proof. vm_compute. reflexivity. Qed.

(** C2 on the block of the end-to-end scenario. *)
Lemma IndexNewBlock_idempotent_block100 :
  let db1 := snd (IndexNewBlock empty_store 100 1700000000 block100 1) in
  IndexNewBlock db1 100 1700000000 block100 1 = (Returns None, db1).
Proof.
  cbv zeta. apply (@IndexNewBlock_idempotent empty_store). vm_compute. reflexivity.
Defined.

(** C1 as stated fails: the transaction before the one with the unpaid fee
    has a message without a type, and the call ends the process instead of
    returning an error. *)
Lemma IndexNewBlock_empty_payer_after_untyped :
  hasEmptyPayer txUnpaid = true
  /\ IndexNewBlock empty_store 100 1700000000 [txUntyped; txUnpaid] 1
     = (Exits, empty_store).
Proof. split; vm_compute; reflexivity. Qed.

(** C1 (as amended) on a block whose only transaction has the unpaid fee. *)
Lemma IndexNewBlock_empty_payer_unpaid :
  let r := IndexNewBlock empty_store 100 1700000000 ([] ++ txUnpaid :: []) 1 in
  snd r = empty_store
  /\ (fst r = Exits \/ exists e, fst r = Returns (Some e))
  /\ (existsb hasEmptyMessageType [] = false -> exists e, fst r = Returns (Some e)).
Proof.
  apply (@IndexNewBlock_empty_payer empty_store 100 1700000000 1 [] txUnpaid []).
  vm_compute. reflexivity.
Defined.

(** C5 as stated fails: a message without a type ends the process; no
    error is returned for the block. *)
Lemma IndexNewBlock_untyped_exits :
  hasEmptyMessageType txUntyped = true
  /\ IndexNewBlock empty_store 100 1700000000 [txUntyped] 1 = (Exits, empty_store).
Proof. split; vm_compute; reflexivity. Qed.

(** C5 (as amended) on a block whose only transaction has the untyped
    message. *)
Lemma IndexNewBlock_empty_message_type_untyped :
  let r := IndexNewBlock empty_store 100 1700000000 ([] ++ txUntyped :: []) 1 in
  snd r = empty_store
  /\ (fst r = Exits \/ exists e, fst r = Returns (Some e))
  /\ (forallb allFeesValid ([] ++ [txUntyped]) = true -> fst r = Exits).
Proof.
  apply (@IndexNewBlock_empty_message_type empty_store 100 1700000000 1 [] txUntyped []).
  vm_compute. reflexivity.
Defined.

(** The failed-block row of height 100 is gone after the block is written,
    the row of height 7 stays. *)
Example IndexNewBlock_failed100 :
  failed_blocks (snd (IndexNewBlock failed100 100 1700000000 block100 1))
  = [FailedBlock.mk 7 1].
Proof. vm_compute. reflexivity. Qed.

(** ** Gap detection *)

Lemma sql_int_Some z : in_sql_int z -> sql_int z = Some z.
Proof.
  unfold in_sql_int, sql_int. intros [H1 H2].
  apply Z.leb_le in H1, H2. now rewrite H1, H2.
Qed.

(** The first element of a series that satisfies [p] is the least one. *)
Lemma find_map_seq (p : Z -> bool) a s n :
  match find p (map (fun k => (a + Z.of_nat k)%Z) (seq s n)) with
  | Some i =>
      (a + Z.of_nat s <= i < a + Z.of_nat s + Z.of_nat n)%Z /\ p i = true
      /\ forall k, (a + Z.of_nat s <= k < i)%Z -> p k = false
  | None => forall k, (a + Z.of_nat s <= k < a + Z.of_nat s + Z.of_nat n)%Z -> p k = false
  end.
Proof.
  revert s. induction n as [| n IH]; intros s; simpl seq; simpl map; cbn [find].
  - intros k Hk. lia.
  - destruct (p (a + Z.of_nat s)%Z) eqn:Hp.
    + repeat split; try lia; assumption.
    + specialize (IH (S s)).
      destruct (find p (map (fun k => (a + Z.of_nat k)%Z) (seq (S s) n))) as [i |].
      * destruct IH as (Hb & Hi & Hl). repeat split; try lia; try assumption.
        intros k Hk. destruct (Z.eq_dec k (a + Z.of_nat s)) as [-> | Hne];
          [assumption | apply Hl; lia].
      * intros k Hk. destruct (Z.eq_dec k (a + Z.of_nat s)) as [-> | Hne];
          [assumption | apply IH; lia].
Qed.

Lemma find_generate_series (p : Z -> bool) a b :
  match find p (generate_series a b) with
  | Some i => (a <= i <= b)%Z /\ p i = true /\ forall k, (a <= k < i)%Z -> p k = false
  | None => forall k, (a <= k <= b)%Z -> p k = false
  end.
Proof.
  unfold generate_series. pose proof (find_map_seq p a 0 (Z.to_nat (b - a + 1))) as H.
  destruct (find p (map (fun k => (a + Z.of_nat k)%Z) (seq 0 (Z.to_nat (b - a + 1)))))
    as [i |].
  - destruct H as (Hb & Hi & Hl). repeat split; try lia; try assumption.
    intros k Hk. apply Hl. lia.
  - intros k Hk. apply H. lia.
Qed.

(** [highestBlock] returns a kept row of greatest height, or the running
    best. *)
Lemma highestBlock_max keep l : forall best,
  match highestBlock keep best l with
  | Some r =>
      ((In r l /\ keep r = true) \/ best = Some r)
      /\ (forall x, In x l -> keep x = true ->
                    (BlockOnly.Height x <= BlockOnly.Height r)%Z)
      /\ (forall b, best = Some b -> (BlockOnly.Height b <= BlockOnly.Height r)%Z)
  | None => best = None /\ forall x, In x l -> keep x = false
  end.
Proof.
  induction l as [| a l IH]; intros best; simpl.
  - destruct best as [b |].
    + repeat split; auto; try easy. intros b' [= ->]. lia.
    + split; [reflexivity | easy].
  - match goal with |- context [highestBlock keep ?b l] => specialize (IH b) end.
    destruct (keep a) eqn:Hk.
    + destruct best as [b |].
      * destruct (BlockOnly.Height b <? BlockOnly.Height a)%Z eqn:Hlt.
        -- destruct (highestBlock keep (Some a) l) as [r |].
           ++ destruct IH as (Hin & Hmax & Hbest). apply Z.ltb_lt in Hlt.
              pose proof (Hbest a eq_refl) as Ha.
              repeat split.
              ** destruct Hin as [[Hin Hr] | [= ->]]; left; auto.
              ** intros x [<- | Hx] Hkx; auto.
              ** intros b' [= ->]. lia.
           ++ destruct IH as [[=] _].
        -- destruct (highestBlock keep (Some b) l) as [r |].
           ++ destruct IH as (Hin & Hmax & Hbest). apply Z.ltb_ge in Hlt.
              pose proof (Hbest b eq_refl) as Hb.
              repeat split.
              ** destruct Hin as [[Hin Hr] | Hin]; auto.
              ** intros x [<- | Hx] Hkx; auto. lia.
              ** intros b' [= ->]. assumption.
           ++ destruct IH as [[=] _].
      * destruct (highestBlock keep (Some a) l) as [r |].
        -- destruct IH as (Hin & Hmax & Hbest). pose proof (Hbest a eq_refl) as Ha.
           repeat split.
           ++ destruct Hin as [[Hin Hr] | [= ->]]; left; auto.
           ++ intros x [<- | Hx] Hkx; auto.
           ++ intros b' [=].
        -- destruct IH as [[=] _].
    + destruct (highestBlock keep best l) as [r |].
      * destruct IH as (Hin & Hmax & Hbest). repeat split; auto.
        -- destruct Hin as [[Hin Hr] | Hin]; auto.
        -- intros x [<- | Hx] Hkx; [congruence | auto].
      * destruct IH as [-> Hall]. split; [reflexivity |].
        intros x [<- | Hx]; auto.
Qed.

(** [GetHighestIndexedBlock] carries the greatest indexed height of the
    chain. *)
Lemma GetHighestIndexedBlock_height db chainID highest :
  in_sql_int (Z.of_nat chainID) ->
  (exists r, In r (blocks db) /\ indexedOnChain chainID r = true
             /\ BlockOnly.Height r = highest) ->
  (forall r, In r (blocks db) -> indexedOnChain chainID r = true ->
             (BlockOnly.Height r <= highest)%Z) ->
  Block.Height (GetHighestIndexedBlock db chainID) = highest.
Proof.
  intros Hc (r0 & Hin0 & Hk0 & Hh0) Hmax. unfold GetHighestIndexedBlock.
  rewrite (sql_int_Some Hc).
  pose proof (highestBlock_max (indexedOnChain chainID) (blocks db) None) as H.
  destruct (highestBlock (indexedOnChain chainID) None (blocks db)) as [r |].
  - destruct H as ([[Hin Hk] | [=]] & Hle & _). simpl.
    specialize (Hle r0 Hin0 Hk0). specialize (Hmax r Hin Hk). lia.
  - destruct H as [_ Hnone]. specialize (Hnone r0 Hin0). congruence.
Qed.

(** C3 (as amended). With bounds and a chain identifier in the range of the
    query's [int] casts, [GetFirstMissingBlockInRange] returns the smallest
    height of the effective range [start .. effectiveEnd] that has no indexed
    row for the chain when there is one, and [start] when every height of
    that range is indexed. *)
Theorem GetFirstMissingBlockInRange_first_gap db start end_ chainID :
  in_sql_int start ->
  in_sql_int (effectiveEnd db start end_ chainID) ->
  in_sql_int (Z.of_nat chainID) ->
  exists h,
    GetFirstMissingBlockInRange db start end_ chainID = Returns h
    /\ (((start <= h <= effectiveEnd db start end_ chainID)%Z
         /\ isGap db chainID h
         /\ forall k, (start <= k < h)%Z -> isIndexed db chainID k = true)
        \/ (h = start
            /\ forall k, (start <= k <= effectiveEnd db start end_ chainID)%Z ->
                         isIndexed db chainID k = true)).
Proof.
  intros Hs He Hc. unfold GetFirstMissingBlockInRange, firstMissingQuery, isGap.
  rewrite (sql_int_Some Hs), (sql_int_Some He), (sql_int_Some Hc).
  pose proof (find_generate_series (fun i => negb (isIndexed db chainID i)) start
                (effectiveEnd db start end_ chainID)) as H.
  destruct (find (fun i => negb (isIndexed db chainID i))
              (generate_series start (effectiveEnd db start end_ chainID))) as [i |].
  - destruct H as (Hb & Hi & Hl). exists i. split; [reflexivity |]. left.
    repeat split; try lia.
    + now apply negb_true_iff.
    + intros k Hk. apply negb_false_iff. now apply Hl.
  - exists start. split; [reflexivity |]. right. split; [reflexivity |].
    intros k Hk. apply negb_false_iff. now apply H.
Qed.

(** C3 as stated fails: height 3 is the only indexed height and the range is
    [3 .. 3]; no height of the range lacks a row, and the height returned has
    one. *)
Lemma GetFirstMissingBlockInRange_full_range :
  effectiveEnd (indexedHeights [3%Z]) 3 3 1 = 3%Z
  /\ isIndexed (indexedHeights [3%Z]) 1 3 = true
  /\ GetFirstMissingBlockInRange (indexedHeights [3%Z]) 3 3 1 = Returns 3%Z.
Proof. repeat split; vm_compute; reflexivity. Qed.

(** C3 (as amended) on the scenario of the specification: heights 1, 2, 4
    and 5 are indexed, the range is [1 .. 5], and 3 is returned. *)
Lemma GetFirstMissingBlockInRange_1245 :
  GetFirstMissingBlockInRange (indexedHeights [1; 2; 4; 5]%Z) 1 5 1 = Returns 3%Z.
Proof.
  destruct (@GetFirstMissingBlockInRange_first_gap (indexedHeights [1; 2; 4; 5]%Z) 1 5 1)
    as (h & E & H).
  - unfold in_sql_int. simpl. lia.
  - unfold in_sql_int. vm_compute. split; discriminate.
  - unfold in_sql_int. simpl. lia.
  - assert (G : isIndexed (indexedHeights [1; 2; 4; 5]%Z) 1 3 = false) by reflexivity.
    assert (h = 3%Z) as ->; [| exact E].
    destruct H as [(Hb & Hg & Hl) | (_ & Hall)].
    + assert (Hle : (h <= 3)%Z).
      { destruct (Z_le_gt_dec h 3) as [| Hgt]; [assumption |].
        rewrite Hl in G by lia. discriminate. }
      assert (Hcases : h = 1%Z \/ h = 2%Z \/ h = 3%Z) by lia.
      destruct Hcases as [-> | [-> | ->]]; [discriminate Hg | discriminate Hg | reflexivity].
    + rewrite Hall in G; [discriminate |]. vm_compute. split; discriminate.
Defined.

(** C4 (as amended). When the greatest indexed height of the chain is
    greater than [start], the query runs up to that height plus one
    (in [int64]), whatever [end_] was passed; when it is [start] or less, the
    query runs up to [end_]. *)
Theorem GetFirstMissingBlockInRange_effective_end db start end_ chainID highest :
  in_sql_int (Z.of_nat chainID) ->
  (exists r, In r (blocks db) /\ indexedOnChain chainID r = true
             /\ BlockOnly.Height r = highest) ->
  (forall r, In r (blocks db) -> indexedOnChain chainID r = true ->
             (BlockOnly.Height r <= highest)%Z) ->
  ((start < highest)%Z ->
     effectiveEnd db start end_ chainID = wrap64 (highest + 1)
     /\ forall end', GetFirstMissingBlockInRange db start end' chainID
                     = GetFirstMissingBlockInRange db start end_ chainID)
  /\ ((highest <= start)%Z -> effectiveEnd db start end_ chainID = end_).
Proof.
  intros Hc Hex Hmax.
  pose proof (@GetHighestIndexedBlock_height db chainID highest Hc Hex Hmax) as Hh.
  unfold GetFirstMissingBlockInRange, effectiveEnd. rewrite Hh. split.
  - intros Hlt. apply Z.gtb_lt in Hlt. now rewrite Hlt.
  - intros Hle. destruct (highest >? start)%Z eqn:Hgt; [| reflexivity].
    apply Z.gtb_lt in Hgt. lia.
Qed.

(** C4 as stated fails: height 5 is the only indexed height and the range is
    [5 .. 5]; the bound stays 5 and 5 is returned, not 6. *)
Lemma GetFirstMissingBlockInRange_highest_is_start :
  Block.Height (GetHighestIndexedBlock (indexedHeights [5%Z]) 1) = 5%Z
  /\ effectiveEnd (indexedHeights [5%Z]) 5 5 1 = 5%Z
  /\ GetFirstMissingBlockInRange (indexedHeights [5%Z]) 5 5 1 = Returns 5%Z.
Proof. repeat split; vm_compute; reflexivity. Qed.

(** C4 (as amended) with height 5 indexed and the range [4 .. 5]: the bound
    is 6. *)
Lemma GetFirstMissingBlockInRange_effective_end_5 :
  ((4 < 5)%Z ->
     effectiveEnd (indexedHeights [5%Z]) 4 5 1 = wrap64 (5 + 1)
     /\ forall end', GetFirstMissingBlockInRange (indexedHeights [5%Z]) 4 end' 1
                     = GetFirstMissingBlockInRange (indexedHeights [5%Z]) 4 5 1)
  /\ ((5 <= 4)%Z -> effectiveEnd (indexedHeights [5%Z]) 4 5 1 = 5%Z).
Proof.
  apply (@GetFirstMissingBlockInRange_effective_end (indexedHeights [5%Z]) 4 5 1 5).
  - unfold in_sql_int. simpl. lia.
  - exists (BlockOnly.mk 5 1700000000 true 1). simpl. auto.
  - simpl. intros r [<- | []] _. simpl. lia.
Defined.

(** ** Reward events *)

Lemma has_row_ext R (T : Table R) db db' id r :
  AppendOnly T -> ext db db' -> has_row T db id r -> has_row T db' id r.
Proof.
  intros HT X [H1 H2]. split; [assumption |].
  eapply nth_error_grown; [apply (ext_rows HT X) | exact H2].
Qed.

(** The row a fetch-or-create returns is in the table afterwards, under the
    identifier returned; it was found by the condition or is the row passed. *)
Lemma FirstOrCreate_row R (T : Table R) cond dest db id r db1 :
  AppendOnly T -> FirstOrCreate T cond dest db = Ok (id, r) db1 ->
  ext db db1 /\ has_row T db1 id r /\ (cond r = true \/ r = dest)
  /\ (db1 = db \/ (db1 = with_rows T (rows T db ++ [dest]) db /\ r = dest)).
Proof.
  intros HT. unfold FirstOrCreate.
  destruct (First cond (rows T db)) as [[id0 r0] |] eqn:E.
  - intros [= <- <- <-]. apply First_sound in E as (H1 & H2 & H3).
    split; [apply ext_refl |]. repeat split; auto.
  - intros [= <- <- <-]. split; [apply (ext_with_rows HT) |].
    repeat split; auto.
    + lia.
    + rewrite (rows_with_rows HT). simpl. rewrite Nat.sub_0_r.
      rewrite nth_error_app2, Nat.sub_diag; auto.
Qed.

Lemma whereChain_refl c : whereChain c c = true.
Proof. unfold whereChain. now rewrite !cond_str_refl. Qed.

Lemma whereAddress_eq a r :
  isEmpty (Address.Address a) = false -> whereAddress a r = true -> r = a.
Proof.
  unfold whereAddress. intros Hne H. apply cond_str_eq in H; [| assumption].
  destruct a, r. simpl in H. now subst.
Qed.

Lemma whereBlock_height b r :
  whereBlock b r = true -> cond_Z (Block.Height b) (BlockOnly.Height r) = true.
Proof.
  unfold whereBlock. intros H.
  apply andb_true_iff in H as [H _]. apply andb_true_iff in H as [H _].
  now apply andb_true_iff in H as [_ H].
Qed.

Lemma stored_ext db db' e r : ext db db' -> stored db e r -> stored db' e r.
Proof.
  intros X (H1 & H2 & H3 & H4 & H5 & (cid & c & Hc & Hwc) & (b & Hb & Hwb) & Ha).
  unfold stored. do 5 (split; [assumption |]). split; [| split].
  - exists cid, c. split; [| assumption].
    eapply has_row_ext; eauto with dbhints.
  - exists b. split; [| assumption]. eapply has_row_ext; eauto with dbhints.
  - destruct (emptyEventAddress e); [assumption |].
    eapply has_row_ext; eauto with dbhints.
Qed.

(** What one turn of the loop of [createTaxableEvents] writes. *)
Lemma createTaxableEvent_Ok e db db1 :
  createTaxableEvent e db = Ok tt db1 ->
  ext db db1
  /\ (exists r, taxable_event db1 = taxable_event db ++ [r] /\ stored db1 e r)
  /\ (addresses db1 = addresses db
      \/ (emptyEventAddress e = false
          /\ addresses db1 = addresses db ++ [TaxableEvent.EventAddress e])).
Proof.
  unfold createTaxableEvent. cbv zeta. intros E.
  apply bind_Ok in E as ([cid c] & d1 & E1 & E).
  apply bind_Ok in E as ([bid b] & d2 & E2 & E).
  apply bind_Ok in E as (aid & d3 & E3 & E).
  apply bind_Ok in E as ([] & d4 & E4 & E).
  apply bind_Ok in E as (eid & d5 & E5 & E).
  injection E as <-.
  apply FirstOrCreate_row in E1 as (X1 & R1 & C1 & F1); [| auto with dbhints].
  apply FirstOrCreate_row in E2 as (X2 & R2 & C2 & F2); [| auto with dbhints].
  assert (Hd : eventDenomResolved e = true /\ d4 = d3).
  { unfold eventDenomResolved, denomResolved.
    destruct (isEmpty (Denom.Base (TaxableEvent.Denomination e))
              || isEmpty (Denom.Symbol (TaxableEvent.Denomination e)));
      [discriminate E4 | injection E4 as <-; auto]. }
  destruct Hd as [Hd ->].
  injection E5 as <- <-.
  assert (Ha : ext d2 d3
               /\ (taxable_event d3 = taxable_event d2)
               /\ (if emptyEventAddress e then aid = 0
                   else has_row addresses_tbl d3 aid (TaxableEvent.EventAddress e))
               /\ (addresses d3 = addresses d2
                   \/ (emptyEventAddress e = false
                       /\ addresses d3 = addresses d2 ++ [TaxableEvent.EventAddress e]))).
  { unfold emptyEventAddress in *.
    destruct (isEmpty (Address.Address (TaxableEvent.EventAddress e))) eqn:Hempty;
      simpl in E3.
    - injection E3 as <- <-. split; [apply ext_refl | auto].
    - apply bind_Ok in E3 as ([id r] & d & E3 & E). injection E as <- <-.
      apply FirstOrCreate_row in E3 as (X3 & R3 & C3 & F3); [| auto with dbhints].
      assert (r = TaxableEvent.EventAddress e) as ->.
      { destruct C3 as [C3 | C3]; [now apply whereAddress_eq in C3 | assumption]. }
      split; [assumption |]. split; [| split; [exact R3 |]].
      + destruct F3 as [-> | [-> _]]; reflexivity.
      + destruct F3 as [-> | [-> _]]; [left | right]; auto. }
  destruct Ha as (X3 & Tev & Haid & Haddr).
  assert (X5 : ext d3 (with_rows taxable_event_tbl
                         (rows taxable_event_tbl d3 ++
                            [TaxableEventRow.mk (TaxableEvent.Source e)
                               (TaxableEvent.Amount e) (TaxableEvent.EventHash e)
                               (Denom.ID (TaxableEvent.Denomination e)) bid aid]) d3))
    by apply (ext_with_rows taxable_event_AppendOnly).
  assert (T1 : taxable_event d1 = taxable_event db)
    by (destruct F1 as [-> | [-> _]]; reflexivity).
  assert (T2 : taxable_event d2 = taxable_event d1)
    by (destruct F2 as [-> | [-> _]]; reflexivity).
  assert (A1 : addresses d1 = addresses db)
    by (destruct F1 as [-> | [-> _]]; reflexivity).
  assert (A2 : addresses d2 = addresses d1)
    by (destruct F2 as [-> | [-> _]]; reflexivity).
  split; [| split].
  - eauto using ext_trans.
  - eexists. split.
    + simpl. rewrite Tev, T2, T1. reflexivity.
    + apply stored_ext with (db := d3); [assumption |].
      unfold stored. simpl. do 5 (split; [first [reflexivity | assumption] |]).
      split; [| split; [| exact Haid]].
      * exists cid, c. split.
        -- eapply has_row_ext; [auto with dbhints | | exact R1].
           eauto using ext_trans.
        -- destruct C1 as [C1 | ->]; [assumption | apply whereChain_refl].
      * exists b. split.
        -- eapply has_row_ext; [auto with dbhints | exact X3 | exact R2].
        -- destruct C2 as [C2 | ->]; [now apply whereBlock_height | apply cond_Z_refl].
  - simpl. rewrite <- A1, <- A2. exact Haddr.
Qed.

Lemma createTaxableEvents_rows events : forall db db1,
  forM_ events createTaxableEvent db = Ok tt db1 ->
  ext db db1
  /\ (exists rows, taxable_event db1 = taxable_event db ++ rows
                   /\ Forall2 (stored db1) events rows)
  /\ addressesFrom db db1 events.
Proof.
  induction events as [| e es IH]; intros db db1 E.
  - injection E as <-. split; [apply ext_refl |]. split.
    + exists []. split; [now rewrite app_nil_r | constructor].
    + intros a Ha. now left.
  - simpl in E. apply bind_Ok in E as ([] & d1 & E1 & E).
    apply createTaxableEvent_Ok in E1 as (X1 & (r & T1 & S1) & A1).
    apply IH in E as (X & (rs & T & S) & A).
    split; [eauto using ext_trans |]. split.
    + exists (r :: rs). split.
      * rewrite T, T1, <- app_assoc. reflexivity.
      * constructor; [now apply stored_ext with (db := d1) | assumption].
    + intros a Ha. destruct (A a Ha) as [Hin | (e' & He' & Hae & Hne)].
      * destruct A1 as [A1 | [Hne A1]]; rewrite A1 in Hin.
        -- now left.
        -- apply in_app_or in Hin as [Hin | [<- | []]]; [now left |].
           right. exists e. simpl. auto.
      * right. exists e'. simpl. auto.
Qed.

Lemma createTaxableEvent_resolved e :
  eventDenomResolved e = true -> Total (createTaxableEvent e).
Proof.
  unfold eventDenomResolved, denomResolved. intros H. apply negb_true_iff in H.
  unfold createTaxableEvent. rewrite H. total.
Qed.

Lemma createTaxableEvent_no_Fatal e : NoFatal (createTaxableEvent e).
Proof. unfold createTaxableEvent. no_fatal. Qed.

Lemma createTaxableEvent_unresolved e db :
  eventDenomResolved e = false ->
  createTaxableEvent e db = Err (denomNotCached (TaxableEvent.Denomination e)).
Proof.
  unfold eventDenomResolved, denomResolved. intros H. apply negb_false_iff in H.
  unfold createTaxableEvent. cbv zeta. unfold bind at 1.
  match goal with
  | |- context [FirstOrCreate chains_tbl ?c ?d db] =>
      destruct (FirstOrCreate_total chains_tbl c d db) as ([cid ?] & d1 & ->)
  end.
  unfold bind at 1.
  match goal with
  | |- context [FirstOrCreate blocks_tbl ?c ?d d1] =>
      destruct (FirstOrCreate_total blocks_tbl c d d1) as ([bid ?] & d2 & ->)
  end.
  unfold bind at 1.
  assert (Ha : Total (if negb (isEmpty (Address.Address (TaxableEvent.EventAddress e)))
                      then
                        ' (id, _) <- FirstOrCreate addresses_tbl
                                       (whereAddress (TaxableEvent.EventAddress e))
                                       (TaxableEvent.EventAddress e) ;;
                        ret id
                      else ret 0)) by total.
  destruct (Ha d2) as (aid & d3 & ->).
  unfold bind at 1. now rewrite H.
Qed.

Lemma forallb_split X (p : X -> bool) l :
  forallb p l = false -> exists pre x post, l = pre ++ x :: post /\ p x = false.
Proof.
  induction l as [| a l IH]; simpl; [discriminate |].
  destruct (p a) eqn:Ha.
  - intros H. destruct (IH H) as (pre & x & post & -> & Hx).
    now exists (a :: pre), x, post.
  - intros _. now exists [], a, l.
Qed.

(** [createTaxableEvents] is all or nothing, and it goes through exactly
    when every event of the batch has a resolved denomination. *)
Lemma createTaxableEvents_resolved db events :
  forallb eventDenomResolved events = true ->
  exists db' rows,
    createTaxableEvents db events = (Returns None, db')
    /\ taxable_event db' = taxable_event db ++ rows
    /\ Forall2 (stored db') events rows
    /\ addressesFrom db db' events.
Proof.
  intros H. unfold createTaxableEvents, Transaction.
  assert (T : exists db', forM_ events createTaxableEvent db = Ok tt db').
  { apply forM__total. intros e He db0. apply Total_unit.
    apply createTaxableEvent_resolved. rewrite forallb_forall in H. now apply H. }
  destruct T as [db' E]. rewrite E.
  apply createTaxableEvents_rows in E as (_ & (rows & T & S) & A).
  now exists db', rows.
Qed.

Lemma createTaxableEvents_unresolved db events :
  forallb eventDenomResolved events = false ->
  exists err, createTaxableEvents db events = (Returns (Some err), db).
Proof.
  intros H. apply forallb_split in H as (pre & e & post & -> & He).
  unfold createTaxableEvents, Transaction.
  assert (F : isErr (forM_ (pre ++ e :: post) createTaxableEvent db) = true).
  { apply forM__Err_at.
    - intros db0. apply forM__no_Fatal. intros; apply createTaxableEvent_no_Fatal.
    - intros db0. now rewrite createTaxableEvent_unresolved. }
  destruct (forM_ (pre ++ e :: post) createTaxableEvent db) as [| err |];
    try discriminate. now exists err.
Qed.

(** ** The insertion loop of [IndexOsmoRewards] *)

Lemma batchSize_pos : 0 < batchSize.
Proof. unfold batchSize. lia. Qed.

(** The loop ends within [length dbEvents - i] turns: more fuel changes
    nothing. *)
Lemma insertBatches_fuel dbEvents : forall fuel1 fuel2 db i,
  length dbEvents - i <= fuel1 -> length dbEvents - i <= fuel2 ->
  insertBatches fuel1 db dbEvents i = insertBatches fuel2 db dbEvents i.
Proof.
  pose proof batchSize_pos as Hpos.
  induction fuel1 as [| fuel1 IH]; intros fuel2 db i H1 H2.
  - destruct fuel2 as [| fuel2]; [reflexivity |]. simpl.
    destruct (Nat.ltb_spec i (length dbEvents)); [lia | reflexivity].
  - destruct fuel2 as [| fuel2]; simpl.
    + destruct (Nat.ltb_spec i (length dbEvents)); [lia | reflexivity].
    + destruct (Nat.ltb_spec i (length dbEvents)); [| reflexivity].
      destruct (eventExists db (nth i dbEvents zeroTaxableEvent)).
      * apply IH; lia.
      * destruct (createTaxableEvents db
                    (slice dbEvents i (batchEndAt (length dbEvents) i)))
          as [[[e |] |] db']; try reflexivity.
        apply IH; lia.
Qed.

Lemma skipn_last X (d : X) (l : list X) : forall k,
  S k = length l -> skipn k l = [nth k l d].
Proof.
  induction l as [| x l IH]; intros k Hk; [discriminate |].
  destruct k as [| k]; simpl in *.
  - destruct l; [reflexivity | discriminate].
  - apply IH. lia.
Qed.

Lemma slice_full_batch (dbEvents : list TaxableEvent.t) i :
  i + batchSize <= length dbEvents ->
  slice dbEvents i (batchEndAt (length dbEvents) i) = batchAt dbEvents i.
Proof.
  intros H. unfold slice, batchEndAt, batchAt. cbv zeta.
  apply Nat.ltb_ge in H. rewrite H. f_equal. lia.
Qed.

Lemma slice_short_batch (dbEvents : list TaxableEvent.t) i :
  i < length dbEvents -> length dbEvents < i + batchSize ->
  batchAt dbEvents i
  = slice dbEvents i (batchEndAt (length dbEvents) i)
    ++ [nth (length dbEvents - 1) dbEvents zeroTaxableEvent].
Proof.
  intros Hi H. unfold slice, batchEndAt, batchAt. cbv zeta.
  apply Nat.ltb_lt in H as Hb. rewrite Hb.
  rewrite (firstn_all2 (n := batchSize)) by (rewrite length_skipn; lia).
  rewrite <- (firstn_skipn (length dbEvents - 1 - i) (skipn i dbEvents)) at 1.
  f_equal. rewrite skipn_skipn.
  replace (length dbEvents - 1 - i + i) with (length dbEvents - 1) by lia.
  apply skipn_last. lia.
Qed.

(** C7. One turn of the loop, at a batch start [i].  When the hash of the
    first event of the batch is in storage, the turn writes nothing and the
    loop goes on with the next batch.  Otherwise the events the loop hands
    over go to [createTaxableEvents], one transaction: when each of them has
    a resolved denomination it commits one row per event, in order, each with
    its chain, block and address rows in place, and the loop goes on; when
    one of them has an unresolved denomination nothing is written and the
    error is returned.  The events handed over are the whole batch when the
    batch is full ([batchSize] events); of a shorter final batch they are
    all but its last event, which is not inserted: the claim's "the whole
    batch is inserted" fails there. *)
Theorem insertBatches_batch fuel db dbEvents i :
  i < length dbEvents ->
  let first := nth i dbEvents zeroTaxableEvent in
  let batch := batchAt dbEvents i in
  let handed := slice dbEvents i (batchEndAt (length dbEvents) i) in
  (eventExists db first = true ->
     insertBatches (S fuel) db dbEvents i
     = insertBatches fuel db dbEvents (i + batchSize))
  /\ (eventExists db first = false ->
        (forallb eventDenomResolved handed = true ->
           exists db' rows,
             createTaxableEvents db handed = (Returns None, db')
             /\ taxable_event db' = taxable_event db ++ rows
             /\ Forall2 (stored db') handed rows
             /\ insertBatches (S fuel) db dbEvents i
                = insertBatches fuel db' dbEvents (i + batchSize))
        /\ (forallb eventDenomResolved handed = false ->
              exists err,
                createTaxableEvents db handed = (Returns (Some err), db)
                /\ insertBatches (S fuel) db dbEvents i = (Returns (Some err), db)))
  /\ (i + batchSize <= length dbEvents -> handed = batch)
  /\ (length dbEvents < i + batchSize ->
      batch = handed ++ [nth (length dbEvents - 1) dbEvents zeroTaxableEvent]).
Proof.
  intros Hi. cbv zeta. split; [| split; [| split]].
  - apply Nat.ltb_lt in Hi. simpl. rewrite Hi. now intros ->.
  - apply Nat.ltb_lt in Hi. simpl. rewrite Hi. intros ->. split; intros Hr.
    + destruct (createTaxableEvents_resolved db _ Hr) as (db' & rows & E & T & S & _).
      exists db', rows. rewrite E. auto.
    + destruct (createTaxableEvents_unresolved db _ Hr) as (err & E).
      exists err. rewrite E. auto.
  - apply slice_full_batch.
  - now apply slice_short_batch.
Qed.

(** C7 on one candidate and an empty store: the batch is that candidate,
    and nothing is handed over. *)
Lemma insertBatches_batch_one :
  let dbEvents := [reward "0a" "osmo1abc" uosmo] in
  let first := nth 0 dbEvents zeroTaxableEvent in
  let batch := batchAt dbEvents 0 in
  let handed := @nil TaxableEvent.t in
  (eventExists empty_store first = true ->
     insertBatches 1 empty_store dbEvents 0
     = insertBatches 0 empty_store dbEvents (0 + batchSize))
  /\ (eventExists empty_store first = false ->
        (forallb eventDenomResolved handed = true ->
           exists db' rows,
             createTaxableEvents empty_store handed = (Returns None, db')
             /\ taxable_event db' = taxable_event empty_store ++ rows
             /\ Forall2 (stored db') handed rows
             /\ insertBatches 1 empty_store dbEvents 0
                = insertBatches 0 db' dbEvents (0 + batchSize))
        /\ (forallb eventDenomResolved handed = false ->
              exists err,
                createTaxableEvents empty_store handed = (Returns (Some err), empty_store)
                /\ insertBatches 1 empty_store dbEvents 0
                   = (Returns (Some err), empty_store)))
  /\ (0 + batchSize <= length dbEvents -> handed = batch)
  /\ (length dbEvents < 0 + batchSize -> batch = handed ++ [reward "0a" "osmo1abc" uosmo]).
Proof.
  apply (@insertBatches_batch 0 empty_store [reward "0a" "osmo1abc" uosmo] 0).
  simpl. lia.
Defined.

(** C10. A batch whose denominations are all resolved is committed whatever
    the event addresses are: an event whose address is empty gets its row,
    with address identifier 0, and the only address rows added are those of
    the events that have an address.  In [IndexNewBlock], by contrast, a fee
    with an empty payer is an error. *)
Theorem createTaxableEvents_empty_address db events :
  forallb eventDenomResolved events = true ->
  (exists db' rows,
     createTaxableEvents db events = (Returns None, db')
     /\ taxable_event db' = taxable_event db ++ rows
     /\ Forall2 (fun e r =>
                   TaxableEventRow.EventHash r = TaxableEvent.EventHash e
                   /\ (emptyEventAddress e = true -> TaxableEventRow.AddressID r = 0))
                events rows
     /\ addressesFrom db db' events)
  /\ (forall txOnly_ID fee db0,
        emptyPayer fee = true ->
        indexFee txOnly_ID fee db0 = Err "fee cannot have empty payer address"%string).
Proof.
  intros H. split; [| intros; now apply indexFee_empty_payer].
  destruct (createTaxableEvents_resolved db _ H) as (db' & rows & E & T & S & A).
  exists db', rows. repeat split; try assumption.
  clear - S. induction S as [| e r es rs Hs _ IH]; constructor; [| assumption].
  destruct Hs as (_ & _ & Hh & _ & _ & _ & _ & Ha). split; [assumption |].
  intros He. now rewrite He in Ha.
Qed.

(** C10 on one candidate without an address: its row is written, no address
    row is. *)
Lemma createTaxableEvents_empty_address_one :
  (exists db' rows,
     createTaxableEvents empty_store [reward "0a" "" uosmo] = (Returns None, db')
     /\ taxable_event db' = taxable_event empty_store ++ rows
     /\ Forall2 (fun e r =>
                   TaxableEventRow.EventHash r = TaxableEvent.EventHash e
                   /\ (emptyEventAddress e = true -> TaxableEventRow.AddressID r = 0))
                [reward "0a" "" uosmo] rows
     /\ addressesFrom empty_store db' [reward "0a" "" uosmo])
  /\ (forall txOnly_ID fee db0,
        emptyPayer fee = true ->
        indexFee txOnly_ID fee db0 = Err "fee cannot have empty payer address"%string).
Proof.
  apply (@createTaxableEvents_empty_address empty_store [reward "0a" "" uosmo]).
  reflexivity.
Defined.

Example createTaxableEvents_no_address :
  createTaxableEvents empty_store [reward "0a" "" uosmo] =
  (Returns None,
   mkStore [Chain.mk "osmosis-1" "Osmosis"] [BlockOnly.mk 1000 0 false 1] [] [] [] [] [] [] []
     [TaxableEventRow.mk OsmosisRewardDistribution 42 "0a" 2 1 0]).
Proof. vm_compute. reflexivity. Qed.

(** C6: the code at one candidate.  The only batch is [dbEvents[0:0]], empty:
    the call returns nil and the candidate is not stored. *)
Theorem IndexOsmoRewards_one_reward_not_stored :
  batchEndAt 1 0 = 0
  /\ IndexOsmoRewards cachedDenom noUnknownDenom fixedDigest
       empty_store "osmosis-1" "Osmosis" oneReward
     = (Returns None, empty_store).
Proof. split; vm_compute; reflexivity. Qed.

(** The last batch, when it is shorter than [batchSize], is one event short
    of the events that remain. *)
Lemma insertBatches_last_batch_length X (dbEvents : list X) i :
  i < length dbEvents -> length dbEvents < i + batchSize ->
  length (slice dbEvents i (batchEndAt (length dbEvents) i)) = length dbEvents - i - 1.
Proof.
  intros Hi Hlast. unfold batchEndAt, slice. cbv zeta.
  apply Nat.ltb_lt in Hlast. rewrite Hlast.
  rewrite length_firstn, length_skipn. lia.
Qed.

(** ** The REST client *)

Lemma checkResponseErrorCode_200 requestEndpoint resp :
  ChainClient.StatusCode resp = 200%Z ->
  ChainClient.checkResponseErrorCode requestEndpoint resp = None.
Proof. unfold ChainClient.checkResponseErrorCode. now intros ->. Qed.

(** C8: the code at a body that does not decode.  With status 200 and a body
    [json.Unmarshal] rejects, [GetBlockByHeight] returns no error: the error
    of [json.Unmarshal] is dropped. *)
Theorem GetBlockByHeight_drops_decode_error
    (http_Get : string -> ChainClient.Response + error)
    (Response : Type) (zero : Response)
    (Unmarshal : string -> Response -> Response * option error)
    host height resp result err :
  http_Get (host ++ ChainClient.blocks_endpoint height)%string = inl resp ->
  ChainClient.StatusCode resp = 200%Z ->
  ChainClient.ReadErr resp = None ->
  Unmarshal (ChainClient.Body resp) zero = (result, Some err) ->
  ChainClient.GetBlockByHeight http_Get zero Unmarshal host height = (result, None).
Proof.
  intros Hget Hstatus Hread Hjson. unfold ChainClient.GetBlockByHeight. cbv zeta.
  rewrite Hget, (checkResponseErrorCode_200 _ _ Hstatus).
  unfold ChainClient.ReadAll. now rewrite Hread, Hjson.
Qed.

Lemma GetBlockByHeight_html :
  ChainClient.GetBlockByHeight answersHtml ""%string unmarshalObject
    "https://rest.cosmos.directory/cosmoshub" 100
  = (""%string, None).
Proof.
  apply (@GetBlockByHeight_drops_decode_error answersHtml string ""%string unmarshalObject
           "https://rest.cosmos.directory/cosmoshub"%string 100%N
           (ChainClient.mkResponse 200 "200 OK" htmlBody None) ""%string
           "invalid character '<' looking for beginning of value"%string);
    reflexivity.
Defined.

(** The two sibling requests return the error of [json.Unmarshal]. *)
Lemma GetTxsByBlockHeight_decode_error
    (http_Get : string -> ChainClient.Response + error)
    (Response : Type) (zero : Response)
    (Unmarshal : string -> Response -> Response * option error)
    host height resp result err :
  http_Get (host ++ ChainClient.txs_by_block_height_endpoint height)%string = inl resp ->
  ChainClient.StatusCode resp = 200%Z ->
  ChainClient.ReadErr resp = None ->
  Unmarshal (ChainClient.Body resp) zero = (result, Some err) ->
  ChainClient.GetTxsByBlockHeight http_Get zero Unmarshal host height
  = (result, Some err).
Proof.
  intros Hget Hstatus Hread Hjson. unfold ChainClient.GetTxsByBlockHeight. cbv zeta.
  rewrite Hget, (checkResponseErrorCode_200 _ _ Hstatus).
  unfold ChainClient.ReadAll. now rewrite Hread, Hjson.
Qed.

Lemma GetLatestBlock_decode_error
    (http_Get : string -> ChainClient.Response + error)
    (Response : Type) (zero : Response)
    (Unmarshal : string -> Response -> Response * option error)
    host resp result err :
  http_Get (host ++ ChainClient.latest_block_endpoint)%string = inl resp ->
  ChainClient.StatusCode resp = 200%Z ->
  ChainClient.ReadErr resp = None ->
  Unmarshal (ChainClient.Body resp) zero = (result, Some err) ->
  ChainClient.GetLatestBlock http_Get zero Unmarshal host = (result, Some err).
Proof.
  intros Hget Hstatus Hread Hjson. unfold ChainClient.GetLatestBlock. cbv zeta.
  rewrite Hget, (checkResponseErrorCode_200 _ _ Hstatus).
  unfold ChainClient.ReadAll. now rewrite Hread, Hjson.
Qed.

Example GetTxsByBlockHeight_html :
  ChainClient.GetTxsByBlockHeight answersHtml ""%string unmarshalObject
    "https://rest.cosmos.directory/cosmoshub" 100
  = (""%string, Some "invalid character '<' looking for beginning of value"%string).
Proof. vm_compute. reflexivity. Qed.

(** * Further properties *)

(** ** When [IndexNewBlock] goes through *)

Lemma indexFee_invalid id fee db :
  validFee fee = false -> succeeds (indexFee id fee db) = false.
Proof.
  unfold validFee. intros H. destruct (emptyPayer fee) eqn:Hp.
  - now rewrite indexFee_empty_payer.
  - simpl in H. unfold denomResolved in H. apply negb_false_iff in H.
    unfold emptyPayer in Hp. unfold indexFee. cbv zeta. rewrite Hp, H. simpl negb.
    unfold bind at 1. unfold bind at 1.
    destruct (FirstOrCreate_total addresses_tbl (whereAddress (Fee.PayerAddress fee))
                (Fee.PayerAddress fee) db) as ([pid ?] & d1 & ->).
    reflexivity.
Qed.

Lemma indexTx_invalid_fee block_ID tx db :
  allFeesValid tx = false -> succeeds (indexTx block_ID tx db) = false.
Proof.
  intros H. destruct (indexTx_steps block_ID tx db) as (tid & db' & ->).
  apply forallb_split in H as (pre & fee & post & E & Hfee).
  unfold bind. rewrite E.
  pose proof (forM__not_Ok_at pre post fee (indexFee tid)
                (fun db0 => indexFee_invalid tid fee db0 Hfee) db') as N.
  now destruct (forM_ (pre ++ fee :: post) (indexFee tid) db').
Qed.

Lemma indexTx_storable block_ID tx db :
  storable tx = true -> exists db', indexTx block_ID tx db = Ok tt db'.
Proof.
  unfold storable. intros H. apply andb_true_iff in H as [Hf Hm].
  apply negb_true_iff in Hm.
  destruct (indexTx_steps block_ID tx db) as (tid & db' & ->).
  unfold bind. destruct (fees_valid tid _ db' Hf) as [d1 ->].
  now apply messages_typed.
Qed.

Lemma indexTx_not_storable block_ID tx db :
  storable tx = false -> succeeds (indexTx block_ID tx db) = false.
Proof.
  unfold storable. intros H. apply andb_false_iff in H as [H | H].
  - now apply indexTx_invalid_fee.
  - apply negb_false_iff in H. now apply indexTx_empty_type.
Qed.

(** [IndexNewBlock] returns nil exactly when every fee of the block has a
    payer and a resolved denomination and every message has a type. *)
Theorem IndexNewBlock_returns_nil_iff db blockHeight blockTime txs dbChainID :
  fst (IndexNewBlock db blockHeight blockTime txs dbChainID) = Returns None
  <-> forallb storable txs = true.
Proof.
  unfold IndexNewBlock.
  destruct (indexNewBlockTx_steps blockHeight blockTime txs dbChainID db)
    as (bid & db' & E).
  unfold Transaction. rewrite E. split.
  - intros H. destruct (forallb storable txs) eqn:F; [reflexivity |].
    apply forallb_split in F as (pre & tx & post & -> & Htx).
    pose proof (forM__not_Ok_at pre post tx (indexTx bid)
                  (fun db0 => indexTx_not_storable bid tx db0 Htx) db') as N.
    destruct (forM_ (pre ++ tx :: post) (indexTx bid) db'); simpl in *; discriminate.
  - intros F.
    assert (T : exists db1, forM_ txs (indexTx bid) db' = Ok tt db1).
    { apply forM__total. intros tx Hin db0. apply indexTx_storable.
      rewrite forallb_forall in F. now apply F. }
    destruct T as [db1 ->]. reflexivity.
Qed.

Lemma cond_Z_eq c v : c <> 0%Z -> cond_Z c v = true -> v = c.
Proof.
  unfold cond_Z. intros Hc H. apply Z.eqb_neq in Hc. rewrite Hc in H.
  symmetry. now apply Z.eqb_eq.
Qed.

Lemma cond_nat_eq c v : c <> 0 -> cond_nat c v = true -> v = c.
Proof.
  unfold cond_nat. intros Hc H. apply Nat.eqb_neq in Hc. rewrite Hc in H.
  symmetry. now apply Nat.eqb_eq.
Qed.

Lemma In_grown R (l l' : list R) x : grown l l' -> In x l -> In x l'.
Proof. intros [d ->] H. apply in_or_app. now left. Qed.

(** A height the query reports is the range start or a height without an
    indexed row. *)
Lemma GetFirstMissingBlockInRange_reports db start end_ chainID k :
  GetFirstMissingBlockInRange db start end_ chainID = Returns k ->
  k = start \/ isIndexed db chainID k = false.
Proof.
  unfold GetFirstMissingBlockInRange, firstMissingQuery.
  destruct (sql_int start); [| discriminate].
  destruct (sql_int (effectiveEnd db start end_ chainID)); [| discriminate].
  destruct (sql_int (Z.of_nat chainID)); [| discriminate].
  destruct (find _ _) as [i |] eqn:F.
  - intros [= <-]. right. apply find_some in F as [_ F]. now apply negb_true_iff.
  - intros [= <-]. now left.
Qed.

(** After [IndexNewBlock] went through for a height and a chain (neither the
    zero value), the height has an indexed row of the chain, and gap
    detection reports it no more, unless it is the range start itself. *)
Theorem IndexNewBlock_marks_indexed db blockHeight blockTime txs dbChainID db1 :
  blockHeight <> 0%Z -> dbChainID <> 0 ->
  IndexNewBlock db blockHeight blockTime txs dbChainID = (Returns None, db1) ->
  isIndexed db1 dbChainID blockHeight = true
  /\ forall start end_,
       start <> blockHeight ->
       GetFirstMissingBlockInRange db1 start end_ dbChainID <> Returns blockHeight.
Proof.
  intros Hh Hc. unfold IndexNewBlock, Transaction.
  destruct (indexNewBlockTx blockHeight blockTime txs dbChainID db)
    as [[] db1' | e |] eqn:E; try discriminate.
  intros [= <-].
  apply indexNewBlockTx_Ok in E as (bid & row & dbb & Hfirst & Hrow & _ & Htxs).
  pose proof (Stable_Mono (Stable_forM_ txs (indexTx bid) (Stable_indexTx bid))
                _ Htxs) as X.
  apply First_sound in Hfirst as (_ & Hn & Hcond).
  apply andb_true_iff in Hcond as [H1 H2].
  apply cond_Z_eq in H1; [| assumption]. apply cond_nat_eq in H2; [| assumption].
  assert (Hi : isIndexed db1' dbChainID blockHeight = true).
  { unfold isIndexed. apply existsb_exists. exists row. split.
    - eapply In_grown; [apply (ext_blocks X) |]. eapply nth_error_In. exact Hn.
    - unfold indexedOnChain. rewrite H1, H2, Z.eqb_refl, Nat.eqb_refl.
      rewrite <- Hrow. reflexivity. }
  split; [exact Hi |].
  intros start end_ Hs Hr. apply GetFirstMissingBlockInRange_reports in Hr as [-> | Hr].
  - now apply Hs.
  - congruence.
Qed.

Lemma IndexNewBlock_marks_indexed_block100 :
  let db1 := snd (IndexNewBlock empty_store 100 1700000000 block100 1) in
  isIndexed db1 1 100 = true
  /\ forall start end_,
       start <> 100%Z ->
       GetFirstMissingBlockInRange db1 start end_ 1 <> Returns 100%Z.
Proof.
  cbv zeta.
  apply (@IndexNewBlock_marks_indexed empty_store 100 1700000000 block100 1).
  - discriminate.
  - discriminate.
  - vm_compute. reflexivity.
Defined.

(** ** What [IndexNewBlock] keeps *)

Lemma Keeps_ret P A (a : A) : Keeps P (ret a).
Proof. intros db a' db1 H [= <- <-]. exact H. Qed.

Lemma Keeps_fail P A (e : error) : Keeps P (@fail A e).
Proof. intros db a db1 _; discriminate. Qed.

Lemma Keeps_Log_Fatal P A msg : Keeps P (@Log_Fatal A msg).
Proof. intros db a db1 _; discriminate. Qed.

Lemma Keeps_bind P A B (m : M A) (k : A -> M B) :
  Keeps P m -> (forall a, Keeps P (k a)) -> Keeps P (bind m k).
Proof.
  intros Hm Hk db b db2 H E. apply bind_Ok in E as (a & db1 & Em & Ek).
  eapply Hk; [| exact Ek]. eapply Hm; eassumption.
Qed.

Lemma Keeps_forM_ P X (l : list X) (body : X -> M unit) :
  (forall x, Keeps P (body x)) -> Keeps P (forM_ l body).
Proof.
  intros Hb. induction l as [| x l IH]; simpl.
  - apply Keeps_ret.
  - apply Keeps_bind; auto.
Qed.

(** A property that holds again whenever rows are added to a table is kept
    by a fetch-or-create on that table. *)
Lemma Keeps_FirstOrCreate_append (P : Store -> Prop) R (T : Table R) cond dest :
  (forall db d, P db -> P (with_rows T (rows T db ++ d) db)) ->
  Keeps P (FirstOrCreate T cond dest).
Proof.
  intros HP db a db1 H. unfold FirstOrCreate.
  destruct (First cond (rows T db)); intros [= <- <-]; auto.
Qed.

Ltac keeps leaf :=
  repeat
    match goal with
    | |- Keeps _ (let _ := _ in _) => cbv zeta
    | |- Keeps _ (ret _) => apply Keeps_ret
    | |- Keeps _ (fail _) => apply Keeps_fail
    | |- Keeps _ (Log_Fatal _) => apply Keeps_Log_Fatal
    | |- Keeps _ (forM_ _ _) => apply Keeps_forM_; intros ?
    | |- Keeps _ (bind _ _) => apply Keeps_bind; [| intros ?]
    | |- Keeps _ (if ?b then _ else _) => destruct b
    | |- Keeps _ (match ?a with (_, _) => _ end) => destruct a
    | |- Keeps _ (FirstOrCreate _ _ _) => leaf
    end.

Lemma keepsRows_refl db : keepsRows db db.
Proof. constructor; auto using grown_refl. Qed.

Ltac keeps_rows_leaf :=
  apply Keeps_FirstOrCreate_append;
  let s := fresh "s" in
  let d := fresh "d" in
  let H := fresh "H" in
  intros s d H; destruct s; destruct H; constructor; simpl in *;
  try assumption; eapply grown_trans; try eassumption; apply grown_app.

Lemma Keeps_rows_indexTx db0 id tx : Keeps (keepsRows db0) (indexTx id tx).
Proof.
  unfold indexTx, indexFee, indexMessage, indexTaxableTx. keeps keeps_rows_leaf.
Qed.

Lemma map_update_row R K (key : R -> K) (f : R -> R) id l :
  (forall r, key (f r) = key r) -> map key (update_row id f l) = map key l.
Proof.
  intros Hf. revert id. induction l as [| x l IH]; intros id; [now destruct id |].
  destruct id as [| [| id]]; [reflexivity | |].
  - simpl. now rewrite Hf.
  - rewrite update_row_tail. cbn [map]. f_equal. apply IH.
Qed.

Lemma Keeps_rows_indexNewBlockTx db0 blockHeight blockTime txs dbChainID :
  Keeps (keepsRows db0) (indexNewBlockTx blockHeight blockTime txs dbChainID).
Proof.
  unfold indexNewBlockTx. apply Keeps_bind; [| intros _; cbv zeta; apply Keeps_bind].
  - intros s a s1 H [= <- <-]. destruct s, H. constructor; assumption.
  - intros s a s1 H. unfold FirstOrCreateAssign. simpl rows.
    destruct (First _ (blocks s)) as [[id row] |]; intros [= <- <-];
      destruct s, H; constructor; simpl in *; try assumption.
    + now rewrite map_update_row.
    + rewrite map_app. eapply grown_trans; [eassumption | apply grown_app].
  - intros [bid row]. apply Keeps_forM_. intros tx. apply Keeps_rows_indexTx.
Qed.

(** [IndexNewBlock] never deletes or rewrites a stored address, transaction,
    fee, message type, message or taxable transaction: whatever the outcome,
    these tables keep their rows under their identifiers and may only have
    new rows at the end.  It never touches the chains or the reward events,
    and every block row keeps its height and chain. *)
Theorem IndexNewBlock_keeps_rows db blockHeight blockTime txs dbChainID :
  keepsRows db (snd (IndexNewBlock db blockHeight blockTime txs dbChainID)).
Proof.
  unfold IndexNewBlock, Transaction.
  destruct (indexNewBlockTx blockHeight blockTime txs dbChainID db)
    as [[] db1 | e |] eqn:E; simpl; try apply keepsRows_refl.
  eapply Keeps_rows_indexNewBlockTx; [apply keepsRows_refl | exact E].
Qed.

(** ** Natural keys stay unique *)

Lemma first_from_None_all R (cond : R -> bool) l i :
  first_from cond i l = None -> forall r, In r l -> cond r = false.
Proof.
  revert i. induction l as [| x l IH]; intros i; simpl; [easy |].
  destruct (cond x) eqn:Hx; [discriminate |].
  intros H r [<- | Hr]; [assumption | eauto].
Qed.

(** A row created by a fetch-or-create has a key no stored row has, when
    every row with its key satisfies the condition. *)
Lemma NoDup_created R K (key : R -> K) (cond : R -> bool) dest l :
  NoDup (map key l) -> First cond l = None ->
  (forall r, key r = key dest -> cond r = true) ->
  NoDup (map key (l ++ [dest])).
Proof.
  intros Hl Hnone Hkey. rewrite map_app. apply NoDup_app; [assumption | |].
  - simpl. constructor; [easy | constructor].
  - intros k Hk [<- | []]. apply in_map_iff in Hk as (r & Hr & Hin).
    pose proof (first_from_None_all _ _ _ Hnone r Hin) as Hc.
    rewrite (Hkey r Hr) in Hc. discriminate.
Qed.

Lemma Keeps_Unique_FirstOrCreate R K (T : Table R) (key : R -> K) cond dest :
  (forall db, Unique db -> NoDup (map key (rows T db))) ->
  (forall db l, Unique db -> NoDup (map key l) -> Unique (with_rows T l db)) ->
  (forall r, key r = key dest -> cond r = true) ->
  Keeps Unique (FirstOrCreate T cond dest).
Proof.
  intros Hget Hset Hkey db a db1 U. unfold FirstOrCreate.
  destruct (First cond (rows T db)) eqn:E; intros [= <- <-]; [assumption |].
  apply Hset; [assumption |]. eapply NoDup_created; eauto.
Qed.

Ltac unique_table :=
  [> intros ? []; assumption
   | intros [] ? [] ?; constructor; simpl in *; assumption
   | ].

Lemma Keeps_Unique_address a :
  Keeps Unique (FirstOrCreate addresses_tbl (whereAddress a) a).
Proof.
  apply Keeps_Unique_FirstOrCreate with (key := Address.Address); unique_table.
  intros r H. unfold whereAddress. rewrite H. apply cond_str_refl.
Qed.

Lemma Keeps_Unique_indexFee id fee : Keeps Unique (indexFee id fee).
Proof.
  unfold indexFee. keeps idtac.
  - apply Keeps_Unique_address.
  - apply Keeps_Unique_FirstOrCreate with (key := feeKey); unique_table.
    intros r [= H1 H2]. simpl. now rewrite H1, H2, !cond_nat_refl.
Qed.

Lemma Keeps_Unique_indexTaxableTx id t : Keeps Unique (indexTaxableTx id t).
Proof.
  unfold indexTaxableTx. keeps idtac; try apply Keeps_Unique_address;
    (apply Keeps_Unique_FirstOrCreate with (key := taxableTxKey); unique_table;
     intros r [= H1 H2 H3]; simpl; now rewrite H1, H2, H3, cond_nat_refl, !Z.eqb_refl).
Qed.

Lemma Keeps_Unique_indexMessage id m : Keeps Unique (indexMessage id m).
Proof.
  unfold indexMessage. keeps idtac; try apply Keeps_Unique_indexTaxableTx.
  - apply Keeps_Unique_FirstOrCreate with (key := MessageType.MessageType); unique_table.
    intros r H. rewrite H. apply cond_str_refl.
  - apply Keeps_Unique_FirstOrCreate with (key := messageKey); unique_table.
    intros r [= H1 H2 H3]. simpl. now rewrite H1, H2, H3, !cond_nat_refl, cond_Z_refl.
Qed.

Lemma Keeps_Unique_indexTx id tx : Keeps Unique (indexTx id tx).
Proof.
  unfold indexTx. keeps idtac;
    try apply Keeps_Unique_address; try apply Keeps_Unique_indexFee;
    try apply Keeps_Unique_indexMessage;
    (apply Keeps_Unique_FirstOrCreate with (key := TxOnly.Hash); unique_table;
     intros r H; simpl in *; rewrite H; apply cond_str_refl).
Qed.

Lemma Keeps_Unique_indexNewBlockTx blockHeight blockTime txs dbChainID :
  Keeps Unique (indexNewBlockTx blockHeight blockTime txs dbChainID).
Proof.
  unfold indexNewBlockTx. apply Keeps_bind; [| intros _; cbv zeta; apply Keeps_bind].
  - intros s a s1 U [= <- <-]. destruct s, U. constructor; assumption.
  - intros s a s1 U. unfold FirstOrCreateAssign. simpl rows.
    destruct (First _ (blocks s)) as [[id row] |] eqn:E; intros [= <- <-].
    + destruct s, U. constructor; simpl in *; try assumption.
      now rewrite map_update_row.
    + assert (N : NoDup (map blockKey
                           (blocks s ++ [assignIndexed blockTime
                                           (BlockOnly.mk blockHeight blockTime true
                                              dbChainID)]))).
      { eapply NoDup_created; [apply (unique_blocks U) | exact E |].
        intros r [= H1 H2]. simpl. now rewrite H1, H2, cond_Z_refl, cond_nat_refl. }
      destruct s, U. constructor; simpl in *; assumption.
  - intros [bid row]. apply Keeps_forM_. intros tx. apply Keeps_Unique_indexTx.
Qed.

(** When no two rows of a table share their natural key (block height and
    chain, address, transaction hash, fee transaction and denomination,
    message type, message position, taxable amounts of a message),
    [IndexNewBlock] leaves it so, whatever its outcome. *)
Theorem IndexNewBlock_keeps_unique db blockHeight blockTime txs dbChainID :
  Unique db -> Unique (snd (IndexNewBlock db blockHeight blockTime txs dbChainID)).
Proof.
  intros U. unfold IndexNewBlock, Transaction.
  destruct (indexNewBlockTx blockHeight blockTime txs dbChainID db)
    as [[] db1 | e |] eqn:E; simpl; try assumption.
  eapply Keeps_Unique_indexNewBlockTx; eassumption.
Qed.

Lemma IndexNewBlock_keeps_unique_block100 :
  Unique (snd (IndexNewBlock empty_store 100 1700000000 block100 1)).
Proof.
  apply (@IndexNewBlock_keeps_unique empty_store 100 1700000000 block100 1).
  constructor; simpl; constructor.
Defined.

(** ** What a block leaves in the store *)

Ltac keeps_in_leaf :=
  apply Keeps_FirstOrCreate_append;
  let s := fresh "s" in
  let d := fresh "d" in
  let H := fresh "H" in
  intros s d H; destruct s; simpl in *; try assumption;
  rewrite ?map_app; apply in_or_app; now left.

Ltac keeps_in :=
  unfold indexTx, indexFee, indexMessage, indexTaxableTx; keeps keeps_in_leaf.

Lemma Keeps_all I (C : I -> Prop) (P : I -> Store -> Prop) A (m : M A) :
  (forall i, Keeps (P i) m) -> Keeps (fun s => forall i, C i -> P i s) m.
Proof. intros H db a db1 HP E i Hi. eapply H; eauto. Qed.

Lemma FirstOrCreate_address_stored a found db db' :
  isEmpty (Address.Address a) = false ->
  FirstOrCreate addresses_tbl (whereAddress a) a db = Ok found db' ->
  In a (addresses db').
Proof.
  intros Hne E. destruct found as [id r].
  apply FirstOrCreate_row in E as (_ & [_ Hn] & C & _); [| auto with dbhints].
  assert (r = a) as ->.
  { destruct C as [C | C]; [now apply whereAddress_eq in C | assumption]. }
  eapply nth_error_In. exact Hn.
Qed.

Lemma Ensures_fail A (e : error) Q : Ensures (@fail A e) Q.
Proof. intros db a db1; discriminate. Qed.

Lemma Ensures_Log_Fatal A msg Q : Ensures (@Log_Fatal A msg) Q.
Proof. intros db a db1; discriminate. Qed.

(** Established by the first statement and kept by the rest. *)
Lemma Ensures_bind_l A B (m : M A) (k : A -> M B) Q :
  Ensures m Q -> (forall a, Keeps Q (k a)) -> Ensures (bind m k) Q.
Proof.
  intros Hm Hk db b db2 E. apply bind_Ok in E as (a & db1 & Em & Ek).
  eapply Hk; [| exact Ek]. eapply Hm. exact Em.
Qed.

(** Established by the rest. *)
Lemma Ensures_bind_r A B (m : M A) (k : A -> M B) Q :
  (forall a, Ensures (k a) Q) -> Ensures (bind m k) Q.
Proof.
  intros Hk db b db2 E. apply bind_Ok in E as (a & db1 & Em & Ek).
  eapply Hk. exact Ek.
Qed.

(** Established by the turn of an element and kept by the other turns. *)
Lemma Ensures_forM_ X (l : list X) (body : X -> M unit) Q x :
  In x l -> Ensures (body x) Q -> (forall y, Keeps Q (body y)) ->
  Ensures (forM_ l body) Q.
Proof.
  intros Hx He Hk. induction l as [| y l IH]; [easy |]. simpl.
  destruct Hx as [-> | Hx].
  - apply Ensures_bind_l; [assumption |]. intros _. now apply Keeps_forM_.
  - apply Ensures_bind_r. intros _. now apply IH.
Qed.

Lemma Ensures_address a :
  isEmpty (Address.Address a) = false ->
  Ensures (FirstOrCreate addresses_tbl (whereAddress a) a) (fun s => In a (addresses s)).
Proof. intros Hne db found db1 E. eapply FirstOrCreate_address_stored; eassumption. Qed.

Lemma indexFee_stores_payer id fee :
  Ensures (indexFee id fee) (fun s => In (Fee.PayerAddress fee) (addresses s)).
Proof.
  unfold indexFee. cbv zeta. apply Ensures_bind_l; [| intros ?; keeps keeps_in_leaf].
  destruct (isEmpty (Address.Address (Fee.PayerAddress fee))) eqn:Hne; simpl.
  - apply Ensures_fail.
  - apply Ensures_bind_l; [now apply Ensures_address | intros []; apply Keeps_ret].
Qed.

Lemma indexTaxableTx_stores id t a :
  In a (taxableTxAddresses t) -> isEmpty (Address.Address a) = false ->
  Ensures (indexTaxableTx id t) (fun s => In a (addresses s)).
Proof.
  intros [<- | [<- | []]] Hne; unfold indexTaxableTx; cbv zeta.
  - apply Ensures_bind_l; [| intros ?; keeps keeps_in_leaf].
    rewrite Hne. simpl.
    apply Ensures_bind_l; [now apply Ensures_address | intros []; apply Keeps_ret].
  - apply Ensures_bind_r. intros ?.
    apply Ensures_bind_l; [| intros ?; keeps keeps_in_leaf].
    rewrite Hne. simpl.
    apply Ensures_bind_l; [now apply Ensures_address | intros []; apply Keeps_ret].
Qed.

Lemma Keeps_In_address a id :
  (forall fee, Keeps (fun s => In a (addresses s)) (indexFee id fee))
  /\ (forall t, Keeps (fun s => In a (addresses s)) (indexTaxableTx id t))
  /\ (forall m, Keeps (fun s => In a (addresses s)) (indexMessage id m))
  /\ (forall tx, Keeps (fun s => In a (addresses s)) (indexTx id tx)).
Proof. repeat split; intros ?; keeps_in. Qed.

Lemma indexMessage_stores id m a :
  In a (messageAddresses m) -> isEmpty (Address.Address a) = false ->
  Ensures (indexMessage id m) (fun s => In a (addresses s)).
Proof.
  unfold messageAddresses. intros Ha Hne. apply in_flat_map in Ha as (t & Ht & Ha).
  unfold indexMessage. cbv zeta.
  apply Ensures_bind_r. intros _. apply Ensures_bind_r. intros [mt ?].
  apply Ensures_bind_r. intros [mid ?].
  apply Ensures_forM_ with (x := t); [assumption | now apply indexTaxableTx_stores |].
  intros y. apply Keeps_In_address.
Qed.

Lemma indexTx_stores id tx a :
  In a (referencedAddresses tx) ->
  Ensures (indexTx id tx) (fun s => In a (addresses s)).
Proof.
  unfold referencedAddresses. intros Ha. apply filter_In in Ha as [Ha Hne].
  apply negb_true_iff in Hne. unfold indexTx. cbv zeta.
  destruct Ha as [<- | Ha].
  - apply Ensures_bind_l; [| intros ?; keeps_in].
    rewrite Hne. simpl.
    apply Ensures_bind_l; [now apply Ensures_address | intros []; apply Keeps_ret].
  - apply Ensures_bind_r. intros txOnly. apply Ensures_bind_r. intros [tid ?].
    apply in_app_or in Ha as [Ha | Ha].
    + apply in_map_iff in Ha as (fee & <- & Hfee).
      apply Ensures_bind_l.
      * apply Ensures_forM_ with (x := fee);
          [assumption | apply indexFee_stores_payer | intros y; apply Keeps_In_address].
      * intros _. apply Keeps_forM_. intros y. apply Keeps_In_address.
    + apply in_flat_map in Ha as (m & Hm & Ha).
      apply Ensures_bind_r. intros _.
      apply Ensures_forM_ with (x := m);
        [assumption | now apply indexMessage_stores | intros y; apply Keeps_In_address].
Qed.

(** After [IndexNewBlock] went through, every address the block refers to
    (signers, fee payers, senders and receivers, where given) is a row of
    the address table, and [GetAddresses] finds it. *)
Theorem IndexNewBlock_stores_addresses db blockHeight blockTime txs dbChainID db1 tx a :
  IndexNewBlock db blockHeight blockTime txs dbChainID = (Returns None, db1) ->
  In tx txs -> In a (referencedAddresses tx) ->
  In a (fst (GetAddresses [Address.Address a] db1)).
Proof.
  unfold IndexNewBlock, Transaction. intros E Htx Ha.
  destruct (indexNewBlockTx_steps blockHeight blockTime txs dbChainID db)
    as (bid & db' & E').
  rewrite E' in E.
  destruct (forM_ txs (indexTx bid) db') as [[] db1' | e |] eqn:F; try discriminate.
  injection E as <-.
  unfold GetAddresses. simpl. apply filter_In. split.
  - eapply (@Ensures_forM_ _ txs (indexTx bid) (fun s => In a (addresses s)) tx);
      [assumption | now apply indexTx_stores | | exact F].
    intros y. apply Keeps_In_address.
  - now rewrite String.eqb_refl.
Qed.

Lemma IndexNewBlock_stores_addresses_bar :
  In (Address.mk "cosmos1bar")
     (fst (GetAddresses [Address.Address (Address.mk "cosmos1bar")]
             (snd (IndexNewBlock empty_store 100 1700000000 block100 1)))).
Proof.
  apply (@IndexNewBlock_stores_addresses empty_store 100 1700000000 block100 1
           (snd (IndexNewBlock empty_store 100 1700000000 block100 1))
           (hd txUnpaid block100) (Address.mk "cosmos1bar")).
  - vm_compute. reflexivity.
  - simpl. now left.
  - vm_compute. auto.
Defined.

Lemma Ensures_FirstOrCreate R (T : Table R) cond dest :
  AppendOnly T ->
  Ensures (FirstOrCreate T cond dest)
          (fun s => exists r, In r (rows T s) /\ (cond r = true \/ r = dest)).
Proof.
  intros HT db [id r] db1 E.
  apply FirstOrCreate_row in E as (_ & [_ Hn] & C & _); [| assumption].
  exists r. split; [eapply nth_error_In; exact Hn | assumption].
Qed.

Lemma Ensures_weaken A (m : M A) (Q Q' : Store -> Prop) :
  Ensures m Q -> (forall s, Q s -> Q' s) -> Ensures m Q'.
Proof. intros H HQ db a db1 E. apply HQ. eapply H. exact E. Qed.

Lemma Ensures_bind_assoc A B C (m : M A) (k1 : A -> M B) (k : B -> M C) Q :
  Ensures (bind m (fun a => bind (k1 a) k)) Q -> Ensures (bind (bind m k1) k) Q.
Proof.
  intros H db c db1 E. apply (H db c db1). revert E. unfold bind.
  now destruct (m db).
Qed.

Lemma Ensures_bind_ret A B (a : A) (k : A -> M B) Q :
  Ensures (k a) Q -> Ensures (bind (ret a) k) Q.
Proof. intros H db b db1 E. apply (H db b db1). exact E. Qed.

Lemma Ensures_tx_row hash code block_ID signer :
  isEmpty hash = false ->
  Ensures (FirstOrCreate txes_tbl (fun r => cond_str hash (TxOnly.Hash r))
             (TxOnly.mk hash code block_ID signer))
          (fun s => In hash (map TxOnly.Hash (txes s))).
Proof.
  intros Hne. eapply Ensures_weaken; [apply Ensures_FirstOrCreate; auto with dbhints |].
  intros s (r & Hin & C). apply in_map_iff. exists r. split; [| assumption].
  destruct C as [C | ->]; [now apply cond_str_eq in C | reflexivity].
Qed.

Lemma indexTx_stores_tx id tx :
  isEmpty (Tx.Hash (TxDBWrapper.Tx tx)) = false ->
  Ensures (indexTx id tx)
          (fun s => In (Tx.Hash (TxDBWrapper.Tx tx)) (map TxOnly.Hash (txes s))).
Proof.
  intros Hne. unfold indexTx. cbv zeta.
  destruct (negb (isEmpty (Address.Address (TxDBWrapper.SignerAddress tx)))).
  - apply Ensures_bind_assoc. apply Ensures_bind_r. intros [sid ?].
    apply Ensures_bind_ret. simpl.
    apply Ensures_bind_l; [now apply Ensures_tx_row | intros []; keeps_in].
  - apply Ensures_bind_ret. simpl.
    apply Ensures_bind_l; [now apply Ensures_tx_row | intros []; keeps_in].
Qed.

Lemma indexMessage_stores_type id m :
  Ensures (indexMessage id m)
          (fun s => In (Message.MessageType (MessageDBWrapper.Message m))
                       (message_types s)).
Proof.
  unfold indexMessage. cbv zeta.
  destruct (isEmpty (MessageType.MessageType
                       (Message.MessageType (MessageDBWrapper.Message m)))) eqn:Hne.
  - apply Ensures_bind_l; [apply Ensures_Log_Fatal | intros ?; keeps_in].
  - apply Ensures_bind_r. intros _.
    apply Ensures_bind_l; [| intros []; keeps_in].
    eapply Ensures_weaken; [apply Ensures_FirstOrCreate; auto with dbhints |].
    intros s (r & Hin & C). simpl in C.
    assert (r = Message.MessageType (MessageDBWrapper.Message m)) as <-; [| assumption].
    destruct C as [C | C]; [| assumption].
    apply cond_str_eq in C; [| assumption].
    destruct r, (Message.MessageType (MessageDBWrapper.Message m)). simpl in C.
    now subst.
Qed.

Lemma Keeps_In_rows id :
  (forall h y, Keeps (fun s => In h (map TxOnly.Hash (txes s))) (indexTx id y))
  /\ (forall t y, Keeps (fun s => In t (message_types s)) (indexMessage id y))
  /\ (forall t y, Keeps (fun s => In t (message_types s)) (indexTx id y)).
Proof. repeat split; intros ? ?; keeps_in. Qed.

(** After [IndexNewBlock] went through, every transaction of the block that
    has a hash has a row under that hash, and the type of every message has
    its row. *)
Theorem IndexNewBlock_stores_txs db blockHeight blockTime txs dbChainID db1 tx :
  IndexNewBlock db blockHeight blockTime txs dbChainID = (Returns None, db1) ->
  In tx txs ->
  (isEmpty (Tx.Hash (TxDBWrapper.Tx tx)) = false ->
     In (Tx.Hash (TxDBWrapper.Tx tx)) (map TxOnly.Hash (txes db1)))
  /\ (forall m, In m (TxDBWrapper.Messages tx) ->
        In (Message.MessageType (MessageDBWrapper.Message m)) (message_types db1)).
Proof.
  unfold IndexNewBlock, Transaction. intros E Htx.
  destruct (indexNewBlockTx_steps blockHeight blockTime txs dbChainID db)
    as (bid & db' & E').
  rewrite E' in E.
  destruct (forM_ txs (indexTx bid) db') as [[] db1' | e |] eqn:F; try discriminate.
  injection E as <-. split.
  - intros Hne.
    eapply (@Ensures_forM_ _ txs (indexTx bid)
              (fun s => In (Tx.Hash (TxDBWrapper.Tx tx)) (map TxOnly.Hash (txes s))) tx);
      [assumption | now apply indexTx_stores_tx | | exact F].
    intros y. apply Keeps_In_rows.
  - intros m Hm.
    eapply (@Ensures_forM_ _ txs (indexTx bid)
              (fun s => In (Message.MessageType (MessageDBWrapper.Message m))
                           (message_types s)) tx); [assumption | | | exact F].
    + unfold indexTx. cbv zeta. apply Ensures_bind_r. intros ?.
      apply Ensures_bind_r. intros [tid ?]. apply Ensures_bind_r. intros _.
      apply Ensures_forM_ with (x := m);
        [assumption | apply indexMessage_stores_type | intros y; apply Keeps_In_rows].
    + intros y. apply Keeps_In_rows.
Qed.

Lemma IndexNewBlock_stores_txs_block100 :
  (isEmpty (Tx.Hash (TxDBWrapper.Tx (hd txUnpaid block100))) = false ->
     In (Tx.Hash (TxDBWrapper.Tx (hd txUnpaid block100)))
        (map TxOnly.Hash
           (txes (snd (IndexNewBlock empty_store 100 1700000000 block100 1)))))
  /\ (forall m, In m (TxDBWrapper.Messages (hd txUnpaid block100)) ->
        In (Message.MessageType (MessageDBWrapper.Message m))
           (message_types (snd (IndexNewBlock empty_store 100 1700000000 block100 1)))).
Proof.
  apply (@IndexNewBlock_stores_txs empty_store 100 1700000000 block100 1
           (snd (IndexNewBlock empty_store 100 1700000000 block100 1))
           (hd txUnpaid block100)).
  - vm_compute. reflexivity.
  - simpl. now left.
Defined.

(** ** More on gap detection *)

Lemma sql_int_spec z :
  (in_sql_int z /\ sql_int z = Some z) \/ (~ in_sql_int z /\ sql_int z = None).
Proof.
  unfold in_sql_int, sql_int.
  destruct (Z.leb_spec (- 2 ^ 31) z), (Z.leb_spec z (2 ^ 31 - 1)); simpl;
    [left | right | right | right]; split; try reflexivity; lia.
Qed.

(** [GetFirstMissingBlockInRange] ends the process exactly when the start,
    the effective end or the chain identifier is outside the range of the
    [int] the query casts them to; otherwise it returns a height. *)
Theorem GetFirstMissingBlockInRange_exits_iff db start end_ chainID :
  GetFirstMissingBlockInRange db start end_ chainID = Exits
  <-> ~ (in_sql_int start /\ in_sql_int (effectiveEnd db start end_ chainID)
         /\ in_sql_int (Z.of_nat chainID)).
Proof.
  unfold GetFirstMissingBlockInRange, firstMissingQuery.
  destruct (sql_int_spec start) as [[H1 ->] | [H1 ->]];
    [| split; [intros _ (H & _); now apply H1 | reflexivity]].
  destruct (sql_int_spec (effectiveEnd db start end_ chainID)) as [[H2 ->] | [H2 ->]];
    [| split; [intros _ (_ & H & _); now apply H2 | reflexivity]].
  destruct (sql_int_spec (Z.of_nat chainID)) as [[H3 ->] | [H3 ->]];
    [| split; [intros _ (_ & _ & H); now apply H3 | reflexivity]].
  split.
  - destruct (find _ _); discriminate.
  - intros H. exfalso. apply H. auto.
Qed.

(** When the start of the range has no indexed row itself, it is the height
    returned. *)
Theorem GetFirstMissingBlockInRange_start_missing db start end_ chainID :
  in_sql_int start ->
  in_sql_int (effectiveEnd db start end_ chainID) ->
  in_sql_int (Z.of_nat chainID) ->
  isIndexed db chainID start = false ->
  GetFirstMissingBlockInRange db start end_ chainID = Returns start.
Proof.
  intros Hs He Hc Hgap. unfold GetFirstMissingBlockInRange, firstMissingQuery.
  rewrite (sql_int_Some Hs), (sql_int_Some He), (sql_int_Some Hc).
  pose proof (find_generate_series (fun i => negb (isIndexed db chainID i)) start
                (effectiveEnd db start end_ chainID)) as H.
  destruct (find _ _) as [i |]; [| reflexivity].
  destruct H as (Hb & Hi & Hl). f_equal.
  destruct (Z.eq_dec i start) as [-> | Hne]; [reflexivity |].
  assert (Hlt : (start <= start < i)%Z) by lia.
  apply Hl in Hlt. simpl in Hlt. rewrite Hgap in Hlt. discriminate.
Qed.

(** On a store without blocks, every start is returned as it is. *)
Lemma GetFirstMissingBlockInRange_start_missing_fresh :
  GetFirstMissingBlockInRange empty_store 1 1000 1 = Returns 1%Z.
Proof.
  apply (@GetFirstMissingBlockInRange_start_missing empty_store 1 1000 1).
  - unfold in_sql_int. simpl. lia.
  - unfold in_sql_int. vm_compute. split; discriminate.
  - unfold in_sql_int. simpl. lia.
  - reflexivity.
Defined.

(** [GetHighestIndexedBlock]: the zero block when the chain has no indexed
    row (or its identifier does not fit the query); otherwise an indexed row
    of the chain whose height no indexed row of the chain exceeds. *)
Theorem GetHighestIndexedBlock_greatest db chainID :
  (~ in_sql_int (Z.of_nat chainID) -> GetHighestIndexedBlock db chainID = zeroBlock)
  /\ ((forall r, In r (blocks db) -> indexedOnChain chainID r = false) ->
      GetHighestIndexedBlock db chainID = zeroBlock)
  /\ (in_sql_int (Z.of_nat chainID) ->
      (exists r, In r (blocks db) /\ indexedOnChain chainID r = true) ->
      let b := GetHighestIndexedBlock db chainID in
      Block.Indexed b = true
      /\ Block.BlockchainID b = chainID
      /\ isIndexed db chainID (Block.Height b) = true
      /\ forall r, In r (blocks db) -> indexedOnChain chainID r = true ->
                   (BlockOnly.Height r <= Block.Height b)%Z).
Proof.
  unfold GetHighestIndexedBlock.
  pose proof (highestBlock_max (indexedOnChain chainID) (blocks db) None) as H.
  split; [| split].
  - intros Hc. destruct (sql_int_spec (Z.of_nat chainID)) as [[H1 _] | [_ ->]];
      [now elim Hc | reflexivity].
  - intros Hnone. destruct (sql_int (Z.of_nat chainID)); [| reflexivity].
    destruct (highestBlock (indexedOnChain chainID) None (blocks db)) as [r |];
      [| reflexivity].
    destruct H as ([[Hin Hk] | [=]] & _). rewrite (Hnone r Hin) in Hk. discriminate.
  - intros Hc (r0 & Hin0 & Hk0). rewrite (sql_int_Some Hc). cbv zeta.
    destruct (highestBlock (indexedOnChain chainID) None (blocks db)) as [r |].
    + destruct H as ([[Hin Hk] | [=]] & Hle & _). simpl.
      pose proof Hk as Hk'. unfold indexedOnChain in Hk'.
      apply andb_true_iff in Hk' as [Hchain Hidx]. apply Nat.eqb_eq in Hchain.
      repeat split; try assumption.
      unfold isIndexed. apply existsb_exists. exists r. split; [assumption |].
      now rewrite Z.eqb_refl, Hk.
    + destruct H as [_ Hnone]. rewrite (Hnone r0 Hin0) in Hk0. discriminate.
Qed.

(** ** The chain row and the retry worklist *)

Lemma bind_run A B (m : M A) (k : A -> M B) db a db1 :
  m db = Ok a db1 -> bind m k db = k a db1.
Proof. unfold bind. now intros ->. Qed.


Lemma FirstOrCreate_cases R (T : Table R) cond dest db :
  (exists found, First cond (rows T db) = Some found
                 /\ FirstOrCreate T cond dest db = Ok found db)
  \/ (First cond (rows T db) = None
      /\ FirstOrCreate T cond dest db
         = Ok (S (length (rows T db)), dest) (with_rows T (rows T db ++ [dest]) db)).
Proof.
  unfold FirstOrCreate. destruct (First cond (rows T db)) as [found |]; eauto.
Qed.




(** *** [GetFailedBlocks] *)

Lemma insertByHeight_perm r l : Permutation (r :: l) (insertByHeight r l).
Proof.
  induction l as [| x l IH]; simpl; [reflexivity |].
  destruct (FailedBlock.Height x <? FailedBlock.Height r)%Z; [| reflexivity].
  rewrite perm_swap. now constructor.
Qed.

Lemma insertByHeight_HdRel x r l :
  HdRel heightLe x l -> heightLe x r -> HdRel heightLe x (insertByHeight r l).
Proof.
  intros Hl Hr. destruct l as [| y l]; simpl; [now constructor |].
  destruct (FailedBlock.Height y <? FailedBlock.Height r)%Z; constructor;
    [now inversion Hl | assumption].
Qed.

Lemma insertByHeight_sorted r l :
  Sorted heightLe l -> Sorted heightLe (insertByHeight r l).
Proof.
  induction 1 as [| x l Hs IH Hd]; simpl; [repeat constructor |].
  destruct (Z.ltb_spec (FailedBlock.Height x) (FailedBlock.Height r)).
  - constructor; [assumption |]. apply insertByHeight_HdRel; [assumption |].
    unfold heightLe. lia.
  - constructor; [now constructor |]. constructor. unfold heightLe. lia.
Qed.

Lemma sortByHeight_perm l : Permutation l (fold_right insertByHeight [] l).
Proof.
  induction l as [| x l IH]; simpl; [constructor |].
  eapply perm_trans; [apply perm_skip; exact IH | apply insertByHeight_perm].
Qed.

Lemma sortByHeight_sorted l : Sorted heightLe (fold_right insertByHeight [] l).
Proof.
  induction l as [| x l IH]; simpl; [constructor |].
  now apply insertByHeight_sorted.
Qed.

Lemma GetFailedBlocks_out_of_range db chainID :
  ~ in_sql_int (Z.of_nat chainID) -> GetFailedBlocks db chainID = [].
Proof.
  unfold GetFailedBlocks. intros Hc.
  destruct (sql_int_spec (Z.of_nat chainID)) as [[H _] | [_ ->]];
    [now elim Hc | reflexivity].
Qed.

Lemma GetFailedBlocks_In db chainID r :
  in_sql_int (Z.of_nat chainID) ->
  In r (GetFailedBlocks db chainID) <->
  In r (failed_blocks db) /\ FailedBlock.BlockchainID r = chainID.
Proof.
  unfold GetFailedBlocks. intros Hc. rewrite (sql_int_Some Hc).
  pose proof (sortByHeight_perm
                (filter (fun r => FailedBlock.BlockchainID r =? chainID)
                        (failed_blocks db))) as P.
  split.
  - intros Hr. apply (Permutation_in r (Permutation_sym P)) in Hr.
    apply filter_In in Hr as [Hin Hr]. now apply Nat.eqb_eq in Hr.
  - intros [Hin Hr]. apply (Permutation_in r P). apply filter_In.
    split; [assumption | now apply Nat.eqb_eq].
Qed.

(** [GetFailedBlocks] returns the failed-block rows of the chain, each
    once, in ascending order of height; with a chain identifier that does
    not fit the query it returns none. *)
Theorem GetFailedBlocks_sorted db chainID :
  (~ in_sql_int (Z.of_nat chainID) -> GetFailedBlocks db chainID = [])
  /\ (in_sql_int (Z.of_nat chainID) ->
      Permutation
        (filter (fun r => FailedBlock.BlockchainID r =? chainID) (failed_blocks db))
        (GetFailedBlocks db chainID)
      /\ Sorted heightLe (GetFailedBlocks db chainID)).
Proof.
  split; [apply GetFailedBlocks_out_of_range |].
  intros Hc. unfold GetFailedBlocks. rewrite (sql_int_Some Hc).
  split; [apply sortByHeight_perm | apply sortByHeight_sorted].
Qed.

Lemma IndexNewBlock_failed_blocks db blockHeight blockTime txs dbChainID db1 :
  IndexNewBlock db blockHeight blockTime txs dbChainID = (Returns None, db1) ->
  failed_blocks db1 =
  filter (fun r => negb (whereFailedBlock blockHeight dbChainID r)) (failed_blocks db).
Proof.
  unfold IndexNewBlock, Transaction.
  destruct (indexNewBlockTx blockHeight blockTime txs dbChainID db)
    as [[] db1' | e |] eqn:E; try discriminate.
  intros [= <-].
  apply indexNewBlockTx_Ok in E as (bid & row & dbb & _ & _ & Hfailed & Htxs).
  pose proof (Stable_Mono (Stable_forM_ txs (indexTx bid) (Stable_indexTx bid))
                _ Htxs) as X.
  now rewrite (ext_failed_blocks X).
Qed.

Lemma filter_filter_implied R (p q : R -> bool) l :
  (forall x, p x = true -> q x = true) -> filter p (filter q l) = filter p l.
Proof.
  intros H. induction l as [| x l IH]; simpl; [reflexivity |].
  destruct (q x) eqn:Hq; simpl.
  - destruct (p x); [now f_equal | assumption].
  - destruct (p x) eqn:Hp; [| assumption]. rewrite (H x Hp) in Hq. discriminate.
Qed.

(** The retry worklist after a block was written: the height is off the list
    of its chain, the other heights of the chain stay on it, and the lists
    of the other chains are what they were. *)
Theorem IndexNewBlock_updates_worklist db blockHeight blockTime txs dbChainID db1 :
  IndexNewBlock db blockHeight blockTime txs dbChainID = (Returns None, db1) ->
  (forall r, In r (GetFailedBlocks db1 dbChainID) ->
             In r (GetFailedBlocks db dbChainID)
             /\ FailedBlock.Height r <> blockHeight)
  /\ (forall r, In r (GetFailedBlocks db dbChainID) ->
                FailedBlock.Height r <> blockHeight ->
                In r (GetFailedBlocks db1 dbChainID))
  /\ (forall chainID, chainID <> dbChainID ->
                      GetFailedBlocks db1 chainID = GetFailedBlocks db chainID).
Proof.
  intros E. apply IndexNewBlock_failed_blocks in E.
  split; [| split].
  - intros r Hr. destruct (sql_int_spec (Z.of_nat dbChainID)) as [[Hc _] | [Hc _]].
    + apply (@GetFailedBlocks_In db1 dbChainID r Hc) in Hr as [Hin Hchain].
      rewrite E in Hin. apply filter_In in Hin as [Hin Hw]. split.
      * apply (@GetFailedBlocks_In db dbChainID r Hc). auto.
      * intros Hh. unfold whereFailedBlock in Hw.
        rewrite Hh, Hchain, Z.eqb_refl, Nat.eqb_refl in Hw. discriminate.
    + rewrite (@GetFailedBlocks_out_of_range db1 dbChainID Hc) in Hr. easy.
  - intros r Hr Hh. destruct (sql_int_spec (Z.of_nat dbChainID)) as [[Hc _] | [Hc _]].
    + apply (@GetFailedBlocks_In db dbChainID r Hc) in Hr as [Hin Hchain].
      apply (@GetFailedBlocks_In db1 dbChainID r Hc). split; [| assumption].
      rewrite E. apply filter_In. split; [assumption |].
      unfold whereFailedBlock. apply Z.eqb_neq in Hh. now rewrite Hh.
    + rewrite (@GetFailedBlocks_out_of_range db dbChainID Hc) in Hr. easy.
  - intros chainID Hne. unfold GetFailedBlocks.
    destruct (sql_int (Z.of_nat chainID)); [| reflexivity].
    rewrite E. rewrite filter_filter_implied; [reflexivity |].
    intros x Hx. apply Nat.eqb_eq in Hx. unfold whereFailedBlock.
    apply Nat.eqb_neq in Hne. rewrite Hx, Hne. now rewrite andb_false_r.
Qed.

Lemma IndexNewBlock_updates_worklist_failed100 :
  let db1 := snd (IndexNewBlock failed100 100 1700000000 block100 1) in
  (forall r, In r (GetFailedBlocks db1 1) ->
             In r (GetFailedBlocks failed100 1) /\ FailedBlock.Height r <> 100%Z)
  /\ (forall r, In r (GetFailedBlocks failed100 1) ->
                FailedBlock.Height r <> 100%Z -> In r (GetFailedBlocks db1 1))
  /\ (forall chainID, chainID <> 1 ->
                      GetFailedBlocks db1 chainID = GetFailedBlocks failed100 chainID).
Proof.
  cbv zeta.
  apply (@IndexNewBlock_updates_worklist failed100 100 1700000000 block100 1).
  vm_compute. reflexivity.
Defined.

(** ** More on reward events *)

Lemma ltb_leb a b : (a <? b)%string = true -> (a <=? b)%string = true.
Proof. unfold String.ltb, String.leb. now destruct (String.compare a b). Qed.

Lemma not_ltb_leb a b : (a <? b)%string = false -> (b <=? a)%string = true.
Proof.
  unfold String.ltb, String.leb. rewrite (String.compare_antisym b a).
  now destruct (String.compare a b).
Qed.

Lemma insertByHash_perm e l : Permutation (e :: l) (insertByHash e l).
Proof.
  induction l as [| x l IH]; simpl; [reflexivity |].
  destruct (TaxableEvent.EventHash x <? TaxableEvent.EventHash e)%string; [| reflexivity].
  rewrite perm_swap. now constructor.
Qed.

Lemma insertByHash_HdRel x e l :
  HdRel hashLe x l -> hashLe x e -> HdRel hashLe x (insertByHash e l).
Proof.
  intros Hl He. destruct l as [| y l]; simpl; [now constructor |].
  destruct (TaxableEvent.EventHash y <? TaxableEvent.EventHash e)%string; constructor;
    [now inversion Hl | assumption].
Qed.

Lemma insertByHash_sorted e l : Sorted hashLe l -> Sorted hashLe (insertByHash e l).
Proof.
  induction 1 as [| x l Hs IH Hd]; simpl; [repeat constructor |].
  destruct (TaxableEvent.EventHash x <? TaxableEvent.EventHash e)%string eqn:Hlt.
  - constructor; [assumption |]. apply insertByHash_HdRel; [assumption |].
    now apply ltb_leb.
  - constructor; [now constructor |]. constructor. now apply not_ltb_leb.
Qed.

(** The candidates after [sort.SliceStable]: the same candidates, each as
    often as before, in ascending order of hash. *)
Theorem sortByHash_sorted l : Permutation l (sortByHash l) /\ Sorted hashLe (sortByHash l).
Proof.
  unfold sortByHash. split.
  - induction l as [| x l IH]; simpl; [constructor |].
    eapply perm_trans; [apply perm_skip; exact IH | apply insertByHash_perm].
  - induction l as [| x l IH]; simpl; [constructor |].
    now apply insertByHash_sorted.
Qed.

(** With [length dbEvents] turns or more, the insertion loop gives the same
    result: it has ended by then. *)
Theorem insertBatches_ends fuel db dbEvents :
  length dbEvents <= fuel ->
  insertBatches fuel db dbEvents 0 = insertBatches (length dbEvents) db dbEvents 0.
Proof. intros H. apply insertBatches_fuel; lia. Qed.

Lemma insertBatches_ends_two :
  insertBatches 7 empty_store [reward "0a" "osmo1abc" uosmo; reward "0b" "osmo1def" uosmo] 0
  = insertBatches 2 empty_store
      [reward "0a" "osmo1abc" uosmo; reward "0b" "osmo1def" uosmo] 0.
Proof.
  apply (@insertBatches_ends 7 empty_store
           [reward "0a" "osmo1abc" uosmo; reward "0b" "osmo1def" uosmo]).
  simpl. lia.
Defined.

Lemma Forall2_In_l X Y (R : X -> Y -> Prop) l l' x :
  Forall2 R l l' -> In x l -> exists y, In y l' /\ R x y.
Proof.
  induction 1 as [| a b l l' Hab _ IH]; [easy |].
  intros [<- | Hx].
  - exists b. split; [now left | assumption].
  - destruct (IH Hx) as (y & Hy & Hr). exists y. split; [now right | assumption].
Qed.

Lemma createTaxableEvents_Ok db events db1 :
  createTaxableEvents db events = (Returns None, db1) ->
  forM_ events createTaxableEvent db = Ok tt db1.
Proof.
  unfold createTaxableEvents, Transaction.
  destruct (forM_ events createTaxableEvent db) as [[] d | e |]; try discriminate.
  now intros [= <-].
Qed.

Lemma eventExists_app db db1 rows e :
  taxable_event db1 = taxable_event db ++ rows ->
  eventExists db1 e
  = eventExists db e
    || existsb (fun r => (TaxableEventRow.EventHash r =? TaxableEvent.EventHash e)%string)
               rows.
Proof. unfold eventExists. intros ->. apply existsb_app. Qed.

(** After [createTaxableEvents] committed a batch, [eventExists] holds for
    every event of the batch and for every event it held for before; so the
    loop of the next run skips a batch whose first event is among them. *)
Theorem createTaxableEvents_then_exists db events db1 :
  createTaxableEvents db events = (Returns None, db1) ->
  (forall e, In e events -> eventExists db1 e = true)
  /\ (forall e, eventExists db e = true -> eventExists db1 e = true)
  /\ (forall fuel dbEvents i,
        i < length dbEvents -> In (nth i dbEvents zeroTaxableEvent) events ->
        insertBatches (S fuel) db1 dbEvents i
        = insertBatches fuel db1 dbEvents (i + batchSize)).
Proof.
  intros E. apply createTaxableEvents_Ok in E.
  apply createTaxableEvents_rows in E as (_ & (rows & T & S) & _).
  assert (H1 : forall e, In e events -> eventExists db1 e = true).
  { intros e He. rewrite (eventExists_app db db1 rows e T).
    destruct (@Forall2_In_l _ _ _ _ _ e S He) as (r & Hr & Hs).
    apply orb_true_iff. right. apply existsb_exists. exists r. split; [assumption |].
    destruct Hs as (_ & _ & Hh & _). rewrite Hh. apply String.eqb_refl. }
  split; [exact H1 |]. split.
  - intros e He. rewrite (eventExists_app db db1 rows e T). now rewrite He.
  - intros fuel dbEvents i Hi Hin. simpl. apply Nat.ltb_lt in Hi. rewrite Hi.
    now rewrite (H1 _ Hin).
Qed.

Lemma createTaxableEvents_then_exists_one :
  let db1 := snd (createTaxableEvents empty_store [reward "0a" "osmo1abc" uosmo]) in
  (forall e, In e [reward "0a" "osmo1abc" uosmo] -> eventExists db1 e = true)
  /\ (forall e, eventExists empty_store e = true -> eventExists db1 e = true)
  /\ (forall fuel dbEvents i,
        i < length dbEvents ->
        In (nth i dbEvents zeroTaxableEvent) [reward "0a" "osmo1abc" uosmo] ->
        insertBatches (S fuel) db1 dbEvents i
        = insertBatches fuel db1 dbEvents (i + batchSize)).
Proof.
  cbv zeta.
  apply (@createTaxableEvents_then_exists empty_store [reward "0a" "osmo1abc" uosmo]).
  vm_compute. reflexivity.
Defined.

Lemma In_slice X (l : list X) i j d x :
  In x (slice l i j) -> exists m, i <= m /\ m < j /\ m < length l /\ nth m l d = x.
Proof.
  unfold slice. intros H. apply (In_nth _ _ d) in H as (m & Hm & Hx).
  rewrite length_firstn, length_skipn in Hm.
  rewrite nth_firstn in Hx.
  assert (Hlt : m < j - i) by lia. apply Nat.ltb_lt in Hlt as Hb. rewrite Hb in Hx.
  rewrite nth_skipn in Hx. exists (i + m). repeat split; try lia. assumption.
Qed.

Lemma stored_hashes db events rows :
  Forall2 (stored db) events rows ->
  map TaxableEventRow.EventHash rows = map TaxableEvent.EventHash events.
Proof.
  induction 1 as [| e r es rs S _ IH]; [reflexivity |].
  simpl. destruct S as (_ & _ & -> & _). now rewrite IH.
Qed.

Lemma eventExists_hashes db e :
  eventExists db e = true <-> In (TaxableEvent.EventHash e) (eventHashes db).
Proof.
  unfold eventExists, eventHashes. rewrite existsb_exists, in_map_iff. split.
  - intros (r & Hr & Hh). apply String.eqb_eq in Hh. now exists r.
  - intros (r & Hh & Hr). exists r. split; [assumption |]. now apply String.eqb_eq.
Qed.

Lemma batches_split (dbEvents : list TaxableEvent.t) i :
  i < length dbEvents ->
  slice dbEvents i (batchEndAt (length dbEvents) i) ++ batchesFrom dbEvents (i + batchSize)
  = batchesFrom dbEvents i.
Proof.
  intros Hi. pose proof batchSize_pos as Hb. unfold batchEndAt, slice, batchesFrom.
  cbv zeta. destruct (length dbEvents <? i + batchSize) eqn:Hlast.
  - apply Nat.ltb_lt in Hlast.
    replace (length dbEvents - (i + batchSize)) with 0 by lia.
    rewrite Nat.Div0.mod_0_l, Nat.eqb_refl.
    rewrite (@skipn_all2 _ (i + batchSize) dbEvents) by lia. rewrite app_nil_r.
    rewrite (Nat.mod_small (length dbEvents - i) batchSize) by lia.
    assert (Hne : (length dbEvents - i =? 0) = false) by (apply Nat.eqb_neq; lia).
    rewrite Hne, removelast_firstn_len, length_skipn. f_equal. lia.
  - apply Nat.ltb_ge in Hlast.
    replace (i + batchSize - i) with batchSize by lia.
    replace (length dbEvents - i)
      with (length dbEvents - (i + batchSize) + 1 * batchSize) by lia.
    rewrite Nat.Div0.mod_add.
    replace (length dbEvents - (i + batchSize) + 1 * batchSize)
      with (length dbEvents - i) by lia.
    assert (Hs : skipn i dbEvents
                 = firstn batchSize (skipn i dbEvents) ++ skipn (i + batchSize) dbEvents).
    { rewrite (Nat.add_comm i batchSize), <- skipn_skipn. symmetry. apply firstn_skipn. }
    destruct ((length dbEvents - (i + batchSize)) mod batchSize =? 0) eqn:Hm.
    + now rewrite <- Hs.
    + rewrite Hs at 2. rewrite removelast_app; [reflexivity |].
      intros Hnil. apply (f_equal (@length _)) in Hnil. rewrite length_skipn in Hnil.
      simpl in Hnil. rewrite Hnil, Nat.Div0.mod_0_l in Hm. discriminate.
Qed.

Lemma insertBatches_fresh_from dbEvents :
  NoDup (map TaxableEvent.EventHash dbEvents) ->
  forallb eventDenomResolved dbEvents = true ->
  forall fuel i db,
    length dbEvents - i <= fuel ->
    (forall k, i <= k -> k < length dbEvents ->
               eventExists db (nth k dbEvents zeroTaxableEvent) = false) ->
    exists db',
      insertBatches fuel db dbEvents i = (Returns None, db')
      /\ eventHashes db'
         = eventHashes db ++ map TaxableEvent.EventHash (batchesFrom dbEvents i).
Proof.
  intros Hnd Hres. pose proof batchSize_pos as Hb.
  assert (Hend : forall i db, length dbEvents <= i ->
            eventHashes db
            = eventHashes db ++ map TaxableEvent.EventHash (batchesFrom dbEvents i)).
  { intros i db Hi. unfold batchesFrom.
    replace (length dbEvents - i) with 0 by lia.
    rewrite Nat.Div0.mod_0_l, Nat.eqb_refl, skipn_all2 by lia.
    simpl. now rewrite app_nil_r. }
  induction fuel as [| fuel IH]; intros i db Hfuel Hnew.
  - exists db. split; [reflexivity |]. apply Hend. lia.
  - cbn [insertBatches]. destruct (i <? length dbEvents) eqn:Hi.
    2:{ apply Nat.ltb_ge in Hi. exists db. split; [reflexivity | now apply Hend]. }
    apply Nat.ltb_lt in Hi. rewrite (Hnew i) by lia. cbv zeta.
    set (batch := slice dbEvents i (batchEndAt (length dbEvents) i)).
    assert (Hbatch : forallb eventDenomResolved batch = true).
    { apply forallb_forall. intros e He.
      apply (In_slice _ _ _ zeroTaxableEvent) in He as (m & _ & _ & Hm & <-).
      rewrite forallb_forall in Hres. apply Hres. now apply nth_In. }
    destruct (@createTaxableEvents_resolved db batch Hbatch) as (db1 & rows & E & T & S & _).
    rewrite E.
    assert (Hh : eventHashes db1 = eventHashes db ++ map TaxableEvent.EventHash batch).
    { unfold eventHashes. rewrite T, map_app. f_equal. now apply stored_hashes with db1. }
    destruct (IH (i + batchSize) db1) as (db' & E' & H').
    + lia.
    + intros k Hk Hkn. destruct (eventExists db1 (nth k dbEvents zeroTaxableEvent)) eqn:Hex;
        [| reflexivity].
      apply eventExists_hashes in Hex. rewrite Hh in Hex. apply in_app_or in Hex as [Hex | Hex].
      * apply eventExists_hashes in Hex. rewrite Hnew in Hex by lia. discriminate.
      * apply in_map_iff in Hex as (e & Heq & He).
        apply (In_slice _ _ _ zeroTaxableEvent) in He as (m & _ & Hmj & Hm & <-).
        assert (Hmk : m < i + batchSize).
        { unfold batchEndAt in Hmj. cbv zeta in Hmj.
          destruct (length dbEvents <? i + batchSize) eqn:Hlast; [| lia].
          apply Nat.ltb_lt in Hlast. lia. }
        rewrite <- (map_nth TaxableEvent.EventHash dbEvents zeroTaxableEvent m),
          <- (map_nth TaxableEvent.EventHash dbEvents zeroTaxableEvent k) in Heq.
        apply (proj1 (NoDup_nth _ (TaxableEvent.EventHash zeroTaxableEvent)) Hnd) in Heq;
          rewrite ?length_map; try assumption.
        lia.
    + exists db'. split; [exact E' |]. rewrite H', Hh, <- app_assoc, <- map_app.
      unfold batch. now rewrite batches_split.
Qed.

(** A run of the insertion loop over candidates that are all new: when the
    hashes are distinct, every denomination is resolved and no hash is
    stored yet, the loop returns nil and has stored, in order, every
    candidate if their number is a multiple of [batchSize], and every
    candidate but the last one otherwise. *)
Theorem insertBatches_new_events db dbEvents :
  NoDup (map TaxableEvent.EventHash dbEvents) ->
  forallb eventDenomResolved dbEvents = true ->
  (forall e, In e dbEvents -> eventExists db e = false) ->
  exists db',
    insertBatches (length dbEvents) db dbEvents 0 = (Returns None, db')
    /\ eventHashes db'
       = eventHashes db
         ++ map TaxableEvent.EventHash
              (if length dbEvents mod batchSize =? 0 then dbEvents
               else removelast dbEvents).
Proof.
  intros Hnd Hres Hnew.
  destruct (@insertBatches_fresh_from dbEvents Hnd Hres (length dbEvents) 0 db)
    as (db' & E & H).
  - lia.
  - intros k _ Hk. apply Hnew. now apply nth_In.
  - exists db'. split; [exact E |]. rewrite H. unfold batchesFrom.
    now rewrite Nat.sub_0_r, skipn_O.
Qed.

Lemma insertBatches_new_events_two :
  exists db',
    insertBatches 2 empty_store
      [reward "0a" "osmo1abc" uosmo; reward "0b" "osmo1def" uosmo] 0
    = (Returns None, db')
    /\ eventHashes db' = ["0a"%string].
Proof.
  destruct (@insertBatches_new_events empty_store
              [reward "0a" "osmo1abc" uosmo; reward "0b" "osmo1def" uosmo])
    as (db' & E & H).
  - repeat constructor; simpl; intuition discriminate.
  - reflexivity.
  - intros e _. reflexivity.
  - exists db'. split; [exact E | exact H].
Defined.

Lemma In_numbered_from R (l : list R) : forall s id r,
  In (id, r) (combine (seq s (length l)) l) <-> s <= id /\ nth_error l (id - s) = Some r.
Proof.
  induction l as [| a l IH]; intros s id r; simpl.
  - split; [easy |]. intros [_ H]. now destruct (id - s).
  - rewrite IH. split.
    + intros [[= <- <-] | [Hs Hn]].
      * split; [lia |]. now rewrite Nat.sub_diag.
      * split; [lia |]. replace (id - s) with (S (id - S s)) by lia. exact Hn.
    + intros [Hs Hn]. destruct (id - s) as [| k] eqn:Hk.
      * left. injection Hn as ->. f_equal. lia.
      * right. split; [lia |]. replace (id - S s) with k by lia. exact Hn.
Qed.

Lemma In_eventBlocks db chainID r :
  In r (eventBlocks db chainID)
  <-> exists id, has_row blocks_tbl db id r
                 /\ hasEvent db id = true /\ onChain db chainID r = true.
Proof.
  unfold eventBlocks, numbered, has_row. rewrite in_map_iff. split.
  - intros ([id b] & <- & H). apply filter_In in H as [H Hf].
    apply In_numbered_from in H. apply andb_true_iff in Hf. now exists id.
  - intros (id & H & He & Hc). exists (id, r). split; [reflexivity |].
    apply filter_In. split; [now apply In_numbered_from |].
    simpl. now rewrite He, Hc.
Qed.

(** [GetHighestTaxableEventBlock] returns "record not found" with the zero
    block when no block of the chain has a reward event, and otherwise,
    without error, a block of the chain that has one and whose height no
    other such block exceeds. *)
Theorem GetHighestTaxableEventBlock_greatest db chainID :
  (GetHighestTaxableEventBlock db chainID = (zeroBlock, Some ErrRecordNotFound)
   /\ forall id b, has_row blocks_tbl db id b -> hasEvent db id = true ->
                   onChain db chainID b = false)
  \/ (exists id r,
        GetHighestTaxableEventBlock db chainID = (scanBlock r, None)
        /\ has_row blocks_tbl db id r
        /\ hasEvent db id = true /\ onChain db chainID r = true
        /\ forall id' b, has_row blocks_tbl db id' b -> hasEvent db id' = true ->
                         onChain db chainID b = true ->
                         (BlockOnly.Height b <= BlockOnly.Height r)%Z).
Proof.
  unfold GetHighestTaxableEventBlock.
  pose proof (highestBlock_max (fun _ => true) (eventBlocks db chainID) None) as H.
  destruct (highestBlock (fun _ => true) None (eventBlocks db chainID)) as [r |].
  - right. destruct H as ([[Hin _] | [=]] & Hmax & _).
    apply In_eventBlocks in Hin as (id & Hr & He & Hc).
    exists id, r. repeat split; try assumption; try apply Hr.
    intros id' b Hb He' Hc'. apply Hmax; [| reflexivity].
    apply In_eventBlocks. now exists id'.
  - left. split; [reflexivity |]. destruct H as [_ H].
    intros id b Hb He. destruct (onChain db chainID b) eqn:Hc; [| reflexivity].
    assert (Hin : In b (eventBlocks db chainID)) by (apply In_eventBlocks; now exists id).
    now apply H in Hin.
Qed.

(** ** More on the REST client *)

Lemma checkResponseErrorCode_None requestEndpoint resp :
  ChainClient.checkResponseErrorCode requestEndpoint resp = None
  <-> ChainClient.StatusCode resp = 200%Z.
Proof.
  unfold ChainClient.checkResponseErrorCode.
  destruct (ChainClient.StatusCode resp =? 200)%Z eqn:E; simpl.
  - apply Z.eqb_eq in E. easy.
  - apply Z.eqb_neq in E. easy.
Qed.

(** [GetTxsByBlockHeight] returns a nil error exactly when the node answered
    with status 200, the body was read and [json.Unmarshal] accepted it; the
    result is then the decoded value. *)
Theorem GetTxsByBlockHeight_nil_iff
    (http_Get : string -> ChainClient.Response + error)
    (Response : Type) (zero : Response)
    (Unmarshal : string -> Response -> Response * option error)
    host height result :
  ChainClient.GetTxsByBlockHeight http_Get zero Unmarshal host height = (result, None)
  <-> exists resp,
        http_Get (host ++ ChainClient.txs_by_block_height_endpoint height)%string = inl resp
        /\ ChainClient.StatusCode resp = 200%Z
        /\ ChainClient.ReadErr resp = None
        /\ Unmarshal (ChainClient.Body resp) zero = (result, None).
Proof.
  unfold ChainClient.GetTxsByBlockHeight. cbv zeta.
  destruct (http_Get _) as [resp | e].
  2:{ split; [discriminate | now intros (? & [=] & _)]. }
  destruct (ChainClient.checkResponseErrorCode _ resp) eqn:Hc.
  - split; [discriminate |]. intros (r & [= <-] & Hs & _).
    rewrite (proj2 (checkResponseErrorCode_None _ resp) Hs) in Hc. discriminate.
  - apply checkResponseErrorCode_None in Hc. unfold ChainClient.ReadAll.
    destruct (ChainClient.ReadErr resp) as [e |] eqn:Hr.
    + split; [discriminate |]. intros (r & [= <-] & _ & Hr' & _). congruence.
    + destruct (Unmarshal (ChainClient.Body resp) zero) as [v [e |]] eqn:Hu.
      * split; [discriminate |]. intros (r & [= <-] & _ & _ & Hu'). congruence.
      * split.
        -- intros [= <-]. now exists resp.
        -- intros (r & [= <-] & _ & _ & Hu'). congruence.
Qed.

(** [GetLatestBlock] returns a nil error exactly when the node answered with
    status 200, the body was read and [json.Unmarshal] accepted it; the result
    is then the decoded value. *)
Theorem GetLatestBlock_nil_iff
    (http_Get : string -> ChainClient.Response + error)
    (Response : Type) (zero : Response)
    (Unmarshal : string -> Response -> Response * option error)
    host result :
  ChainClient.GetLatestBlock http_Get zero Unmarshal host = (result, None)
  <-> exists resp,
        http_Get (host ++ ChainClient.latest_block_endpoint)%string = inl resp
        /\ ChainClient.StatusCode resp = 200%Z
        /\ ChainClient.ReadErr resp = None
        /\ Unmarshal (ChainClient.Body resp) zero = (result, None).
Proof.
  unfold ChainClient.GetLatestBlock. cbv zeta.
  destruct (http_Get _) as [resp | e].
  2:{ split; [discriminate | now intros (? & [=] & _)]. }
  destruct (ChainClient.checkResponseErrorCode _ resp) eqn:Hc.
  - split; [discriminate |]. intros (r & [= <-] & Hs & _).
    rewrite (proj2 (checkResponseErrorCode_None _ resp) Hs) in Hc. discriminate.
  - apply checkResponseErrorCode_None in Hc. unfold ChainClient.ReadAll.
    destruct (ChainClient.ReadErr resp) as [e |] eqn:Hr.
    + split; [discriminate |]. intros (r & [= <-] & _ & Hr' & _). congruence.
    + destruct (Unmarshal (ChainClient.Body resp) zero) as [v [e |]] eqn:Hu.
      * split; [discriminate |]. intros (r & [= <-] & _ & _ & Hu'). congruence.
      * split.
        -- intros [= <-]. now exists resp.
        -- intros (r & [= <-] & _ & _ & Hu'). congruence.
Qed.

(** An error of [GetBlockByHeight] comes with the zero response, and it is
    the error of the transport, the error made from a status other than 200
    (which names the endpoint, the status and the body), or the error of
    reading the body. *)
Theorem GetBlockByHeight_error
    (http_Get : string -> ChainClient.Response + error)
    (Response : Type) (zero : Response)
    (Unmarshal : string -> Response -> Response * option error)
    host height result err :
  ChainClient.GetBlockByHeight http_Get zero Unmarshal host height = (result, Some err) ->
  result = zero
  /\ (http_Get (host ++ ChainClient.blocks_endpoint height)%string = inr err
      \/ exists resp,
           http_Get (host ++ ChainClient.blocks_endpoint height)%string = inl resp
           /\ ((ChainClient.StatusCode resp <> 200%Z
                /\ err = ("Error getting response for endpoint "
                          ++ ChainClient.blocks_endpoint height
                          ++ ": Status " ++ ChainClient.Status resp
                          ++ " Body " ++ ChainClient.Body resp)%string)
               \/ (ChainClient.StatusCode resp = 200%Z
                   /\ ChainClient.ReadErr resp = Some err))).
Proof.
  unfold ChainClient.GetBlockByHeight. cbv zeta.
  destruct (http_Get _) as [resp | e].
  2:{ intros [= <- <-]. split; [reflexivity | now left]. }
  unfold ChainClient.checkResponseErrorCode, ChainClient.ReadAll.
  destruct (ChainClient.StatusCode resp =? 200)%Z eqn:Hs; simpl.
  - apply Z.eqb_eq in Hs. destruct (ChainClient.ReadErr resp) as [e |] eqn:Hr.
    + intros [= <- <-]. split; [reflexivity |]. right. exists resp.
      split; [reflexivity |]. now right.
    + destruct (Unmarshal (ChainClient.Body resp) zero). discriminate.
  - apply Z.eqb_neq in Hs. intros [= <- <-]. split; [reflexivity |]. right.
    exists resp. split; [reflexivity |]. now left.
Qed.

Lemma GetBlockByHeight_error_not_found :
  ""%string = ""%string
  /\ (answersNotFound ("https://rest.cosmos.directory/cosmoshub"
                         ++ ChainClient.blocks_endpoint 100)%string
      = inr ("Error getting response for endpoint /cosmos/base/tendermint/v1beta1/blocks/100"
             ++ ": Status 404 Not Found Body {}")%string
      \/ exists resp,
           answersNotFound ("https://rest.cosmos.directory/cosmoshub"
                            ++ ChainClient.blocks_endpoint 100)%string = inl resp
           /\ ((ChainClient.StatusCode resp <> 200%Z
                /\ ("Error getting response for endpoint /cosmos/base/tendermint/v1beta1/blocks/100"
                    ++ ": Status 404 Not Found Body {}")%string
                   = ("Error getting response for endpoint "
                      ++ ChainClient.blocks_endpoint 100
                      ++ ": Status " ++ ChainClient.Status resp
                      ++ " Body " ++ ChainClient.Body resp)%string)
               \/ (ChainClient.StatusCode resp = 200%Z
                   /\ ChainClient.ReadErr resp
                      = Some ("Error getting response for endpoint /cosmos/base/tendermint/v1beta1/blocks/100"
                              ++ ": Status 404 Not Found Body {}")%string))).
Proof.
  apply (@GetBlockByHeight_error answersNotFound string ""%string unmarshalObject
           "https://rest.cosmos.directory/cosmoshub"%string 100%N).
  vm_compute. reflexivity.
Defined.

(** ** Configuration *)

Lemma mergeString_empty_l s : mergeString "" s = s.
Proof. reflexivity. Qed.

Lemma mergeString_empty_r s : mergeString s "" = s.
Proof.
  unfold mergeString, isEmpty. destruct (s =? "")%string eqn:E; [| reflexivity].
  apply String.eqb_eq in E. now subst.
Qed.

Lemma mergeString_assoc a b c :
  mergeString a (mergeString b c) = mergeString (mergeString a b) c.
Proof.
  unfold mergeString, isEmpty. destruct (a =? "")%string eqn:Ea; [reflexivity |].
  now rewrite Ea.
Qed.

Lemma mergeString_idem a : mergeString a a = a.
Proof. unfold mergeString. now destruct (isEmpty a). Qed.

(** Layers of configuration: the zero configuration changes nothing on
    either side, merging a configuration with itself gives it back, and
    three layers merge to the same configuration however they are grouped. *)
Theorem MergeConfigs_layers :
  (forall c, MergeConfigs zeroConfig c = c)
  /\ (forall c, MergeConfigs c zeroConfig = c)
  /\ (forall c, MergeConfigs c c = c)
  /\ (forall a b c,
        MergeConfigs a (MergeConfigs b c) = MergeConfigs (MergeConfigs a b) c).
Proof.
  repeat split.
  - intros [[] [] ?]. unfold MergeConfigs. simpl. now rewrite !mergeString_empty_r.
  - intros [[] [] ?]. reflexivity.
  - intros [[] [] ?]. unfold MergeConfigs. simpl. now rewrite !mergeString_idem.
  - intros [[] [] ?] [[] [] ?] [[] [] ?]. unfold MergeConfigs. simpl.
    now rewrite !mergeString_assoc.
Qed.

(** ** Recording a failed block *)

Lemma GetFailedBlocks_rows db db1 chainID :
  failed_blocks db1 = failed_blocks db ->
  GetFailedBlocks db1 chainID = GetFailedBlocks db chainID.
Proof. unfold GetFailedBlocks. now intros ->. Qed.

(** What [UpsertFailedBlock] writes, for a height that is not the zero
    value.  The failed-block row is looked up by height alone: when a row of
    that height exists, for whatever chain, no failed-block row is written,
    the store is the one [GetDBChainID] leaves for the chain passed (which
    may hold a new chain row) and every worklist stays as it was; otherwise
    one failed-block row, of the height and of the chain [GetDBChainID]
    returns, is added to that store, the height enters the worklist of that
    chain, and the other worklists stay as they were. *)
Theorem UpsertFailedBlock_worklist db blockHeight chainID chainName :
  blockHeight <> 0%Z ->
  let db1 := snd (UpsertFailedBlock db blockHeight chainID chainName) in
  exists chain_ID db0,
    GetDBChainID db (Chain.mk chainID chainName) = ((chain_ID, None), db0)
    /\ failed_blocks db0 = failed_blocks db
    /\ (In blockHeight (map FailedBlock.Height (failed_blocks db)) ->
        db1 = db0
        /\ forall c, GetFailedBlocks db1 c = GetFailedBlocks db c)
    /\ (~ In blockHeight (map FailedBlock.Height (failed_blocks db)) ->
        db1 = with_rows failed_blocks_tbl
                (failed_blocks db ++ [FailedBlock.mk blockHeight chain_ID]) db0
        /\ (in_sql_int (Z.of_nat chain_ID) ->
            In (FailedBlock.mk blockHeight chain_ID) (GetFailedBlocks db1 chain_ID))
        /\ forall c, c <> chain_ID -> GetFailedBlocks db1 c = GetFailedBlocks db c).
Proof.
  intros Hh. cbv zeta. unfold UpsertFailedBlock, GetDBChainID, Transaction. cbv zeta.
  set (chain := Chain.mk chainID chainName).
  set (cond := whereFailedBlockStruct blockHeight 0).
  assert (Hcond : forall r, cond r = true <-> FailedBlock.Height r = blockHeight).
  { intros r. unfold cond, whereFailedBlockStruct, cond_nat. simpl.
    rewrite andb_true_r. split.
    - now apply cond_Z_eq.
    - intros <-. apply cond_Z_refl. }
  destruct (FirstOrCreate_total chains_tbl (whereChain chain) chain db)
    as ([cid c] & d1 & E1).
  assert (F1 : failed_blocks d1 = failed_blocks db).
  { destruct (FirstOrCreate_cases chains_tbl (whereChain chain) chain db)
      as [(f' & _ & E') | (_ & E')]; rewrite E' in E1; injection E1; intros;
      subst d1; reflexivity. }
  rewrite E1, (@bind_run _ _ _ _ _ _ _ E1). cbv iota beta.
  exists cid, d1. split; [reflexivity |]. split; [exact F1 |].
  destruct (FirstOrCreate_cases failed_blocks_tbl cond (FailedBlock.mk blockHeight cid) d1)
    as [([fid f] & Hf & E2) | (Hn & E2)];
    rewrite (@bind_run _ _ _ _ _ _ _ E2); unfold ret; cbn [snd].
  - split.
    + intros _. split; [reflexivity |]. intros c0. now apply GetFailedBlocks_rows.
    + intros Hnot. exfalso. apply Hnot. apply First_sound in Hf as (_ & Hnth & Hc).
      apply Hcond in Hc. apply in_map_iff. exists f. split; [assumption |].
      rewrite <- F1. eapply nth_error_In. exact Hnth.
  - split.
    + intros Hin. exfalso. apply in_map_iff in Hin as (r & Hr & Hin).
      simpl in Hn. rewrite F1 in Hn.
      pose proof (first_from_None_all _ _ _ Hn r Hin) as Hc.
      apply Hcond in Hr. congruence.
    + intros _. split; [| split].
      * simpl. now rewrite F1.
      * intros Hrange. apply GetFailedBlocks_In; [assumption |].
        split; [| reflexivity]. simpl. apply in_or_app. right. now left.
      * intros c0 Hc0. unfold GetFailedBlocks. simpl. rewrite F1, filter_app. simpl.
        apply Nat.eqb_neq in Hc0. rewrite Nat.eqb_sym in Hc0. rewrite Hc0.
        now rewrite app_nil_r.
Qed.

Lemma UpsertFailedBlock_worklist_other_chain :
  let db1 := snd (UpsertFailedBlock failed100 100 "osmosis-1" "Osmosis") in
  exists chain_ID db0,
    GetDBChainID failed100 (Chain.mk "osmosis-1" "Osmosis") = ((chain_ID, None), db0)
    /\ failed_blocks db0 = failed_blocks failed100
    /\ (In 100%Z (map FailedBlock.Height (failed_blocks failed100)) ->
        db1 = db0
        /\ forall c, GetFailedBlocks db1 c = GetFailedBlocks failed100 c)
    /\ (~ In 100%Z (map FailedBlock.Height (failed_blocks failed100)) ->
        db1 = with_rows failed_blocks_tbl
                (failed_blocks failed100 ++ [FailedBlock.mk 100 chain_ID]) db0
        /\ (in_sql_int (Z.of_nat chain_ID) ->
            In (FailedBlock.mk 100 chain_ID) (GetFailedBlocks db1 chain_ID))
        /\ forall c, c <> chain_ID -> GetFailedBlocks db1 c = GetFailedBlocks failed100 c).
Proof.
  apply (@UpsertFailedBlock_worklist failed100 100%Z "osmosis-1"%string "Osmosis"%string).
  lia.
Defined.
